(** * Mixed-variable local search of the GP sampler: [optuna/_gp/optim_mixed.py]

    A shallow embedding of the module and the properties of its six
    functions: the preconditioned continuous optimizer [_gradient_ascent], the
    two discrete coordinate optimizers [_exhaustive_search] and
    [_discrete_line_search] with their dispatcher [_local_search_discrete], the
    coordinate-descent driver [local_search_mixed] and the multi-start driver
    [optimize_acqf_mixed].

    Conventions of the embedding.
    - A Python [float] / NumPy [float64] is a value of [float] below: the
      special values of IEEE 754 (the two infinities and NaN) with their
      comparison and arithmetic rules, and exact rationals for the finite
      values.  Rounding, overflow and the sign of zero are not modelled.
    - A one-dimensional array is a [list]; a two-dimensional array is a list
      of rows.  Indices are [Z] where the source computes with them.
    - A function that can raise, calls the evaluator, logs or draws random
      numbers is a computation in the monad [M]: it maps the state of the
      world to an outcome (an exception or a value) and the next state.
    - SciPy's two minimizers, NumPy's [exp] and [sqrt], the random source and
      the helpers of [optuna._gp.search_space] are not part of the module:
      they are the fields of the class [Externals], and every theorem holds
      for all of them. *)

From stdpp Require Import base numbers list gmap strings.
From Stdlib Require Import QArith Qcanon Qround Lqa.

#[local] Open Scope Z_scope.
#[local] Open Scope string_scope.
#[local] Open Scope list_scope.

(** ** Floating-point values *)

Module Float.

Inductive float : Type :=
| Fin (q : Qc)
| PInf
| NInf
| NaN.

#[global] Instance float_eq_dec : EqDecision float.
Proof. solve_decision. Defined.

Definition of_Z (z : Z) : float := Fin (Qc_of_Z z).
Definition zero : float := of_Z 0.
Definition one : float := of_Z 1.

Definition is_nan (x : float) : bool :=
  match x with NaN => true | _ => false end.

Definition is_finite (x : float) : bool :=
  match x with Fin _ => true | _ => false end.

(** [-x] *)
Definition neg (x : float) : float :=
  match x with
  | Fin q => Fin (- q)%Qc
  | PInf => NInf
  | NInf => PInf
  | NaN => NaN
  end.

(** [x + y]: opposite infinities have no sum. *)
Definition add (x y : float) : float :=
  match x, y with
  | NaN, _ | _, NaN => NaN
  | PInf, NInf | NInf, PInf => NaN
  | PInf, _ | _, PInf => PInf
  | NInf, _ | _, NInf => NInf
  | Fin a, Fin b => Fin (a + b)%Qc
  end.

(** [x - y] *)
Definition sub (x y : float) : float := add x (neg y).

(** The sign of a rational as a comparison with zero. *)
Definition sgn (q : Qc) : comparison := (q ?= 0)%Qc.

(** An infinity of the given sign; a zero sign has none. *)
Definition inf_of (c : comparison) : float :=
  match c with Gt => PInf | Lt => NInf | Eq => NaN end.

Definition sgn_mul (c d : comparison) : comparison :=
  match c, d with
  | Eq, _ | _, Eq => Eq
  | Gt, Gt | Lt, Lt => Gt
  | _, _ => Lt
  end.

(** [x * y]: zero times an infinity is NaN. *)
Definition mul (x y : float) : float :=
  match x, y with
  | NaN, _ | _, NaN => NaN
  | Fin a, Fin b => Fin (a * b)%Qc
  | Fin a, PInf | PInf, Fin a => inf_of (sgn a)
  | Fin a, NInf | NInf, Fin a => inf_of (sgn_mul (sgn a) Lt)
  | PInf, PInf | NInf, NInf => PInf
  | PInf, NInf | NInf, PInf => NInf
  end.

(** [x / y] as NumPy divides: no exception, a nonzero value over zero is an
    infinity and [0 / 0] is NaN. *)
Definition div (x y : float) : float :=
  match x, y with
  | NaN, _ | _, NaN => NaN
  | Fin a, Fin b =>
      if bool_decide (b = 0%Qc) then inf_of (sgn a) else Fin (a / b)%Qc
  | Fin _, (PInf | NInf) => zero
  | PInf, Fin b => if bool_decide (b < 0)%Qc then NInf else PInf
  | NInf, Fin b => if bool_decide (b < 0)%Qc then PInf else NInf
  | (PInf | NInf), (PInf | NInf) => NaN
  end.

(** [abs(x)] *)
Definition abs (x : float) : float :=
  match x with
  | Fin q => if bool_decide (q < 0)%Qc then Fin (- q)%Qc else Fin q
  | PInf | NInf => PInf
  | NaN => NaN
  end.

(** [x < y]: false as soon as one side is NaN. *)
Definition ltb (x y : float) : bool :=
  match x, y with
  | NaN, _ | _, NaN => false
  | Fin a, Fin b => bool_decide (a < b)%Qc
  | NInf, (Fin _ | PInf) => true
  | Fin _, PInf => true
  | _, _ => false
  end.

(** [x <= y] *)
Definition leb (x y : float) : bool :=
  match x, y with
  | NaN, _ | _, NaN => false
  | Fin a, Fin b => bool_decide (a <= b)%Qc
  | NInf, _ => true
  | _, PInf => true
  | _, _ => false
  end.

(** [x == y]: NaN equals nothing, itself included. *)
Definition eqb (x y : float) : bool :=
  match x, y with
  | NaN, _ | _, NaN => false
  | _, _ => bool_decide (x = y)
  end.

(** [x > y], [x >= y] and [x != y] *)
Definition gtb (x y : float) : bool := ltb y x.
Definition geb (x y : float) : bool := leb y x.
Definition neqb (x y : float) : bool := negb (eqb x y).

(** The decimal literal [m / 10^e]. *)
Definition dec (m : Z) (e : Z) : float :=
  Fin (Q2Qc (Qmake m (Z.to_pos (10 ^ e)))).

End Float.
Export Float.

Declare Scope float_scope.
Delimit Scope float_scope with F.
Bind Scope float_scope with float.
Infix "+" := add : float_scope.
Infix "-" := sub : float_scope.
Infix "*" := mul : float_scope.
Infix "/" := div : float_scope.
Notation "- x" := (neg x) : float_scope.
Infix "<?" := ltb : float_scope.
Infix "<=?" := leb : float_scope.
Infix ">?" := gtb : float_scope.
Infix ">=?" := geb : float_scope.
Infix "=?" := eqb : float_scope.
Infix "!=?" := neqb (at level 70) : float_scope.

#[local] Open Scope float_scope.

(** ** Exceptions, the state of the world and the monad of computations *)

Inductive exn : Type :=
| AssertionError (msg : string)
| ValueError (msg : string)
| IndexError (msg : string).

#[global] Instance exn_eq_dec : EqDecision exn.
Proof. solve_decision. Defined.

(** What a call can change outside its own locals: the state of the random
    source, the list of the batches handed to the evaluator (oldest first,
    a single vector is a batch of one) and the warnings logged so far. *)
Record world : Type := World {
  rng : N;
  evals : list (list (list float));
  warnings : list string;
}.

#[global] Instance world_eq_dec : EqDecision world.
Proof. solve_decision. Defined.

Definition M (A : Type) : Type := world -> (exn + A) * world.

Definition ret {A} (a : A) : M A := fun w => (inr a, w).

Definition raise {A} (e : exn) : M A := fun w => (inl e, w).

Definition bind {A B} (m : M A) (k : A -> M B) : M B :=
  fun w =>
    match m w with
    | (inl e, w') => (inl e, w')
    | (inr a, w') => k a w'
    end.

Notation "'do' x <- m ; k" := (bind m (fun x => k))
  (at level 10, x name, m at level 100, k at level 200).
Notation "'do' ' p <- m ; k" := (bind m (fun x => match x with p => k end))
  (at level 10, p pattern, m at level 100, k at level 200).

(** [assert cond, msg] *)
Definition assert (cond : bool) (msg : string) : M unit :=
  if cond then ret tt else raise (AssertionError msg).

(** The evaluator has been handed the batch [xs]. *)
Definition log_eval (xs : list (list float)) : M unit :=
  fun w => (inr tt, World (rng w) (evals w ++ [xs]) (warnings w)).

(** [_logger.warn(msg)] *)
Definition warn (msg : string) : M unit :=
  fun w => (inr tt, World (rng w) (evals w) (warnings w ++ [msg])).

(** ** Python and NumPy primitives *)

(** [a[i]] read as Python does: a negative index counts from the end. *)
Definition py_index {A} (a : list A) (i : Z) : option A :=
  let n := Z.of_nat (length a) in
  if bool_decide (0 <= i < n) then a !! Z.to_nat i
  else if bool_decide (- n <= i < 0) then a !! Z.to_nat (n + i)
  else None.

Definition getitem {A} (a : list A) (i : Z) : M A :=
  match py_index a i with
  | Some x => ret x
  | None => raise (IndexError "index out of bounds")
  end.

(** [a[i] = v] on a copy of [a]. *)
Definition setitem {A} (a : list A) (i : Z) (v : A) : M (list A) :=
  let n := Z.of_nat (length a) in
  if bool_decide (0 <= i < n) then ret (<[Z.to_nat i := v]> a)
  else if bool_decide (- n <= i < 0) then ret (<[Z.to_nat (n + i) := v]> a)
  else raise (IndexError "index out of bounds").

(** [a[idxs]] for an index array [idxs]. *)
Fixpoint take_at {A} (a : list A) (idxs : list Z) : M (list A) :=
  match idxs with
  | [] => ret []
  | i :: rest => do x <- getitem a i; do xs <- take_at a rest; ret (x :: xs)
  end.

(** [a[idxs] = vals] on a copy of [a]; the shapes must agree. *)
Fixpoint put_at {A} (a : list A) (idxs : list Z) (vals : list A) : M (list A) :=
  match idxs, vals with
  | [], [] => ret a
  | i :: idxs', v :: vals' => do a' <- setitem a i v; put_at a' idxs' vals'
  | _, _ => raise (ValueError "shape mismatch")
  end.

(** An elementwise operation on two arrays of one shape. *)
Fixpoint np_zip_with (f : float -> float -> float) (a b : list float)
  : M (list float) :=
  match a, b with
  | [], [] => ret []
  | x :: a', y :: b' => do r <- np_zip_with f a' b'; ret (f x y :: r)
  | _, _ => raise (ValueError "operands could not be broadcast together")
  end.

(** [np.where(p(a))[0]]: the indices at which [p] holds, ascending. *)
Fixpoint np_where_from {A} (p : A -> bool) (a : list A) (i : Z) : list Z :=
  match a with
  | [] => []
  | x :: a' => if p x then i :: np_where_from p a' (i + 1)
               else np_where_from p a' (i + 1)
  end.

Definition np_where {A} (p : A -> bool) (a : list A) : list Z :=
  np_where_from p a 0.

(** The scan of [np.argmax] over the elements after the first: [mp] is the
    running maximum, [mi] its index and [i] the index of the head of [a].  An
    element that is not [<= mp] takes over, so the first NaN wins and ends
    the scan. *)
Fixpoint argmax_scan (a : list float) (i : Z) (mp : float) (mi : Z) : Z :=
  match a with
  | [] => mi
  | x :: a' =>
      if negb (x <=? mp) then
        if is_nan x then i else argmax_scan a' (i + 1) x i
      else argmax_scan a' (i + 1) mp mi
  end.

(** [np.argmax(a)]: the index of the first maximum; an empty array has none. *)
Definition np_argmax (a : list float) : M Z :=
  match a with
  | [] => raise (ValueError "attempt to get argmax of an empty sequence")
  | x :: a' => ret (if is_nan x then 0 else argmax_scan a' 1 x 0)
  end.

(** The order NumPy sorts and searches floats by: NaN comes last. *)
Definition np_less (a b : float) : bool :=
  (a <? b) || (is_nan b && negb (is_nan a)).

(** The loop of NumPy's binary search between [lo] and [hi]. *)
Fixpoint binsearch_left (fuel : nat) (a : list float) (key : float)
    (lo hi : nat) : nat :=
  match fuel with
  | O => lo
  | S fuel' =>
      if bool_decide (lo < hi)%nat then
        let mid := (lo + (hi - lo) / 2)%nat in
        match a !! mid with
        | Some x =>
            if np_less x key then binsearch_left fuel' a key (S mid) hi
            else binsearch_left fuel' a key lo mid
        | None => lo
        end
      else lo
  end.

(** [np.searchsorted(a, key)] (side left). *)
Definition np_searchsorted (a : list float) (key : float) : Z :=
  Z.of_nat (binsearch_left (S (length a)) a key 0 (length a)).

(** [np.clip(i, lo, hi)] is [minimum(maximum(i, lo), hi)]. *)
Definition np_clip (i lo hi : Z) : Z := Z.min (Z.max i lo) hi.

(** [np.diff(a)] *)
Fixpoint np_diff (a : list float) : list float :=
  match a with
  | x :: (y :: _) as a' => (y - x) :: np_diff a'
  | _ => []
  end.

(** [np.minimum] of two values: a NaN on either side is the result. *)
Definition np_minimum (x y : float) : float :=
  if is_nan x then x else if is_nan y then y else if y <? x then y else x.

(** [np.min(a, initial=init)] *)
Definition np_min (a : list float) (init : float) : float :=
  foldl np_minimum init a.

(** [a.sum()] *)
Definition np_sum (a : list float) : float := foldl add zero a.

(** [np.arange(start, stop, step)] on floats: [ceil((stop - start) / step)]
    values [start + k * step]; no length can be computed from a quotient that
    is not finite. *)
Definition np_arange (start stop step : float) : M (list float) :=
  match (stop - start) / step with
  | Fin q =>
      let n := Z.to_nat (Qceiling (this q)) in
      ret (map (fun k : nat => start + of_Z (Z.of_nat k) * step) (seq 0 n))
  | _ => raise (ValueError "arange: cannot compute length")
  end.

(** [a] with [a[i]] replaced, the index read as Python does; no change when
    the index is out of bounds. *)
Definition update_at {A} (a : list A) (i : Z) (v : A) : list A :=
  let n := Z.of_nat (length a) in
  if bool_decide (0 <= i < n) then <[Z.to_nat i := v]> a
  else if bool_decide (- n <= i < 0) then <[Z.to_nat (n + i) := v]> a
  else a.

(** A list comprehension whose body can raise. *)
Fixpoint mapM {A B} (f : A -> M B) (l : list A) : M (list B) :=
  match l with
  | [] => ret []
  | a :: l' => do b <- f a; do bs <- mapM f l'; ret (b :: bs)
  end.

(** ** A solver that works by calling back

    SciPy's minimizers are black boxes that evaluate the objective they are
    given at points of their choosing, finitely often, and then return.  Such
    a solver is a strategy: from the queries made and the answers received so
    far, [solver_next] is the next query, the result, or an exception.  The
    solver makes at most [solver_budget] queries; [solver_last] is what it
    returns when they are used up.  The objective is a closure of the caller
    that reads and writes the caller's locals [L] and the world. *)

Inductive move (Q R : Type) : Type :=
| Ask (q : Q)
| Stop (r : R)
| Throw (e : exn).
Arguments Ask {Q R} q.
Arguments Stop {Q R} r.
Arguments Throw {Q R} e.

Record solver (Q A R : Type) : Type := Solver {
  solver_budget : nat;
  solver_next : list (Q * A) -> move Q R;
  solver_last : list (Q * A) -> exn + R;
}.
Arguments Solver {Q A R}.
Arguments solver_budget {Q A R}.
Arguments solver_next {Q A R}.
Arguments solver_last {Q A R}.

Fixpoint run_from {Q A R L} (fuel : nat) (s : solver Q A R)
    (f : Q -> L -> M (A * L)) (hist : list (Q * A)) (l : L) : M (R * L) :=
  match fuel with
  | O =>
      match solver_last s hist with
      | inl e => raise e
      | inr r => ret (r, l)
      end
  | S fuel' =>
      match solver_next s hist with
      | Ask q => do '(a, l') <- f q l; run_from fuel' s f (hist ++ [(q, a)]) l'
      | Stop r => ret (r, l)
      | Throw e => raise e
      end
  end.

Definition run_solver {Q A R L} (s : solver Q A R) (f : Q -> L -> M (A * L))
    (l : L) : M (R * L) :=
  run_from (solver_budget s) s f [] l.

(** ** The data of the module *)

(** [optuna._gp.search_space.ScaleType] *)
Inductive ScaleType : Type := LINEAR | LOG | CATEGORICAL.

#[global] Instance ScaleType_eq_dec : EqDecision ScaleType.
Proof. solve_decision. Defined.

(** [optuna._gp.search_space.SearchSpace]: one entry per parameter. *)
Record SearchSpace : Type := {
  scale_types : list ScaleType;
  bounds : list (float * float);
  steps : list float;
}.

Record KernelParamsTensor : Type := {
  inverse_squared_lengthscales : list float;
}.

(** [optuna._gp.acqf.AcquisitionFunctionParams].  The fields this module does
    not read determine the acquisition function; they are kept as that
    function [acqf] and its gradient [acqf_grad]. *)
Record AcquisitionFunctionParams : Type := {
  search_space : SearchSpace;
  kernel_params : KernelParamsTensor;
  acqf : list float -> float;
  acqf_grad : list float -> list float;
}.

(** [eval_acqf_no_grad(acqf_params, x)] for a matrix [x]: one value per row. *)
Definition eval_acqf_no_grad (acqf_params : AcquisitionFunctionParams)
    (xs : list (list float)) : M (list float) :=
  do _ <- log_eval xs; ret (map (acqf acqf_params) xs).

(** [float(eval_acqf_no_grad(acqf_params, x))] for a single vector [x]. *)
Definition eval_acqf_no_grad1 (acqf_params : AcquisitionFunctionParams)
    (x : list float) : M float :=
  do _ <- log_eval [x]; ret (acqf acqf_params x).

(** [eval_acqf_with_grad(acqf_params, x)] *)
Definition eval_acqf_with_grad (acqf_params : AcquisitionFunctionParams)
    (x : list float) : M (float * list float) :=
  do _ <- log_eval [x]; ret (acqf acqf_params x, acqf_grad acqf_params x).

(** What the module calls and does not define. *)
Class Externals : Type := {
  (** [scipy.optimize.fmin_l_bfgs_b(func, x0, bounds, pgtol, maxiter)]: the
      objective answers with a value and a gradient; the result is the
      minimizer, its value and [info["nit"]]. *)
  fmin_l_bfgs_b :
    list float -> list (float * float) -> float -> Z ->
    solver (list float) (float * list float) (list float * float * Z);
  (** [scipy.optimize.minimize_scalar(fun, bracket, method="brent", tol)]:
      the result is [res.x]. *)
  minimize_scalar_brent : float * float * float -> float -> solver float float float;
  (** [math.sqrt], [np.sqrt] *)
  sqrt : float -> float;
  (** [np.exp] *)
  exp : float -> float;
  (** [sample_normalized_params(n, search_space, rng)] from the state of the
      random source: the sampled rows and the next state. *)
  sample_normalized_params :
    Z -> SearchSpace -> N -> list (list float) * N;
  (** The indices [rng.choice] draws once its arguments are found valid. *)
  choice_draw : Z -> Z -> list float -> N -> list Z * N;
  (** [normalize_one_param(param_value, scale_type, bounds, step)] *)
  normalize_one_param :
    list float -> ScaleType -> float * float -> float -> list float;
}.

(** [sqrt(np.finfo(np.float64).eps)], that is [2^-26]: the tolerance of
    [rng.choice] on the sum of the probabilities. *)
Definition choice_atol : float := Fin (Q2Qc (Qmake 1 (2 ^ 26))).

(** [rng.choice(a, size=size, replace=False, p=p)] for an integer [a]: the
    argument checks of NumPy's [RandomState.choice], then the draw. *)
Definition rng_choice `{Externals} (a size : Z) (p : list float) : M (list Z) :=
  if bool_decide (a <= 0) && negb (bool_decide (size = 0)) then
    raise (ValueError "a must be greater than 0 unless no samples are taken")
  else if negb (bool_decide (Z.of_nat (length p) = a)) then
    raise (ValueError "'a' and 'p' must have same size")
  else if is_nan (np_sum p) then
    raise (ValueError "probabilities contain NaN")
  else if existsb (fun x => x <? zero) p then
    raise (ValueError "probabilities are not non-negative")
  else if abs (np_sum p - one) >? choice_atol then
    raise (ValueError "probabilities do not sum to 1")
  else if bool_decide (a < size) then
    raise (ValueError "Cannot take a larger sample than population when 'replace=False'")
  else if bool_decide (size < 0) then
    raise (ValueError "negative dimensions are not allowed")
  else if bool_decide (Z.of_nat (length (List.filter (fun x => x >? zero) p)) < size) then
    raise (ValueError "Fewer non-zero entries in p than size")
  else
    fun w =>
      let '(idxs, r) := choice_draw a size p (rng w) in
      (inr idxs, World r (evals w) (warnings w)).

(** [math.sqrt(x)] raises on a negative argument, [np.sqrt(x)] gives NaN. *)
Definition math_sqrt `{Externals} (x : float) : M float :=
  if x <? zero then raise (ValueError "math domain error") else ret (sqrt x).

Definition np_sqrt `{Externals} (x : float) : float :=
  if x <? zero then NaN else sqrt x.

(** ** The functions of [optim_mixed.py] *)

Section OptimMixed.

Context `{Externals}.

(** The result of the three coordinate optimizers: the vector, its value and
    whether they are new. *)
Abbreviation outcome := (list float * float * bool)%type.

(** The closure [negative_acqf_with_grad] of [_gradient_ascent]; it writes
    to the local [normalized_params]. *)
Definition negative_acqf_with_grad (acqf_params : AcquisitionFunctionParams)
    (continuous_indices : list Z) (lengthscale : list float)
    (scaled_x : list float) (normalized_params : list float)
  : M ((float * list float) * list float) :=
  (* Scale back to the original domain, i.e. [0, 1], from [0, 1/s]. *)
  do v <- np_zip_with mul scaled_x lengthscale;
  do normalized_params <- put_at normalized_params continuous_indices v;
  do '(fval, grad) <- eval_acqf_with_grad acqf_params normalized_params;
  (* Flip sign because scipy minimizes functions. *)
  do g <- take_at grad continuous_indices;
  do g <- np_zip_with mul (map neg g) lengthscale;
  ret ((- fval, g), normalized_params).

(** The statement of lines 62 to 68: the call of [so.fmin_l_bfgs_b] on a copy
    [normalized_params] of the vector.  The result is
    [(scaled_cont_x_opt, neg_fval_opt, info["nit"])] and the copy as the
    solver's calls left it. *)
Definition minimize_negative_acqf (acqf_params : AcquisitionFunctionParams)
    (initial_params : list float) (continuous_indices : list Z)
    (lengthscale : list float) (tol : float)
  : M ((list float * float * Z) * list float) :=
  let normalized_params := initial_params in
  do xc <- take_at normalized_params continuous_indices;
  do x0 <- np_zip_with div xc lengthscale;
  do pgtol <- math_sqrt tol;
  run_solver
    (fmin_l_bfgs_b x0 (map (fun s => (zero, one / s)) lengthscale) pgtol 200)
    (negative_acqf_with_grad acqf_params continuous_indices lengthscale)
    normalized_params.

Definition _gradient_ascent (acqf_params : AcquisitionFunctionParams)
    (initial_params : list float) (initial_fval : float)
    (continuous_indices : list Z) (lengthscale : list float) (tol : float)
  : M outcome :=
  if bool_decide (length continuous_indices = 0%nat) then
    ret (initial_params, initial_fval, false)
  else
    do '((scaled_cont_x_opt, neg_fval_opt, nit), normalized_params) <-
      minimize_negative_acqf acqf_params initial_params continuous_indices
        lengthscale tol;
    if (- neg_fval_opt >? initial_fval) && bool_decide (0 < nit)%Z then
      (* Improved. *)
      do v <- np_zip_with mul scaled_cont_x_opt lengthscale;
      do normalized_params <- put_at normalized_params continuous_indices v;
      ret (normalized_params, - neg_fval_opt, true)
    else
      (* No improvement. *)
      ret (initial_params, initial_fval, false).

Definition _exhaustive_search (acqf_params : AcquisitionFunctionParams)
    (initial_params : list float) (initial_fval : float)
    (param_idx : Z) (choices : list float) : M outcome :=
  do current <- getitem initial_params param_idx;
  let choices_except_current := List.filter (fun c => c !=? current) choices in
  let all_params :=
    map (fun c => update_at initial_params param_idx c) choices_except_current in
  do fvals <- eval_acqf_no_grad acqf_params all_params;
  do best_idx <- np_argmax fvals;
  do fbest <- getitem fvals best_idx;
  if fbest >? initial_fval then
    (* Improved. *)
    do row <- getitem all_params best_idx;
    ret (row, fbest, true)
  else
    (* No improvement. *)
    ret (initial_params, initial_fval, false).

(** The closure [find_nearest_index] of [_discrete_line_search]. *)
Definition find_nearest_index (grids : list float) (x : float) : M Z :=
  let i := np_clip (np_searchsorted grids x) 1 (Z.of_nat (length grids) - 1) in
  do below <- getitem grids (i - 1)%Z;
  do above <- getitem grids i;
  ret (if abs (x - below) <? abs (x - above) then (i - 1)%Z else i).

(** The locals the closures of [_discrete_line_search] share:
    [negative_fval_cache] and [normalized_params]. *)
Abbreviation line_locals := (gmap Z float * list float)%type.

(** The closure [negative_acqf_with_cache]: the negated value at [grids[i]]. *)
Definition negative_acqf_with_cache (acqf_params : AcquisitionFunctionParams)
    (param_idx : Z) (grids : list float) (i : Z) (l : line_locals)
  : M (float * line_locals) :=
  let '(negative_fval_cache, normalized_params) := l in
  match negative_fval_cache !! i with
  | Some cache_val => ret (cache_val, l)
  | None =>
      do g <- getitem grids i;
      do normalized_params <- setitem normalized_params param_idx g;
      (* Flip sign because scipy minimizes functions. *)
      do fval <- eval_acqf_no_grad1 acqf_params normalized_params;
      let negval := - fval in
      ret (negval, (<[i := negval]> negative_fval_cache, normalized_params))
  end.

(** The closure [interpolated_negative_acqf]. *)
Definition interpolated_negative_acqf (acqf_params : AcquisitionFunctionParams)
    (param_idx : Z) (grids : list float) (x : float) (l : line_locals)
  : M (float * line_locals) :=
  do first <- getitem grids 0;
  do last <- getitem grids (-1);
  if (x <? first) || (x >? last) then ret (PInf, l)
  else
    let right := np_clip (np_searchsorted grids x) 1 (Z.of_nat (length grids) - 1) in
    let left := (right - 1)%Z in
    do '(neg_acqf_left, l) <- negative_acqf_with_cache acqf_params param_idx grids left l;
    do '(neg_acqf_right, l) <- negative_acqf_with_cache acqf_params param_idx grids right l;
    do g_right <- getitem grids right;
    do g_left <- getitem grids left;
    let w_left := (g_right - x) / (g_right - g_left) in
    let w_right := one - w_left in
    ret (w_left * neg_acqf_left + w_right * neg_acqf_right, l).

Definition EPS : float := dec 1 12.

Definition _discrete_line_search (acqf_params : AcquisitionFunctionParams)
    (initial_params : list float) (initial_fval : float)
    (param_idx : Z) (grids : list float) (xtol : float) : M outcome :=
  if bool_decide (length grids = 1%nat) then
    (* Do not optimize anything when there's only one choice. *)
    ret (initial_params, initial_fval, false)
  else
    do current <- getitem initial_params param_idx;
    do current_choice_i <- find_nearest_index grids current;
    do g_current <- getitem grids current_choice_i;
    do _ <- assert (current =? g_current) EmptyString;
    let negative_fval_cache : gmap Z float := {[ current_choice_i := - initial_fval ]} in
    let normalized_params := initial_params in
    do first <- getitem grids 0;
    do last <- getitem grids (-1);
    do '(res_x, l) <-
      run_solver
        (* The values of this bracket are (inf, -fval, inf). *)
        (minimize_scalar_brent (first - EPS, g_current, last + EPS) xtol)
        (interpolated_negative_acqf acqf_params param_idx grids)
        (negative_fval_cache, normalized_params);
    do opt_idx <- find_nearest_index grids res_x;
    do '(negval, (_, normalized_params)) <-
      negative_acqf_with_cache acqf_params param_idx grids opt_idx l;
    let fval_opt := - negval in
    (* We check both conditions because of numerical errors. *)
    if negb (bool_decide (opt_idx = current_choice_i)) && (fval_opt >? initial_fval) then
      do g_opt <- getitem grids opt_idx;
      do normalized_params <- setitem normalized_params param_idx g_opt;
      ret (normalized_params, fval_opt, true)
    else
      ret (initial_params, initial_fval, false).

Definition MAX_INT_EXHAUSTIVE_SEARCH_PARAMS : nat := 16.

Definition _local_search_discrete (acqf_params : AcquisitionFunctionParams)
    (initial_params : list float) (initial_fval : float)
    (param_idx : Z) (choices : list float) (xtol : float) : M outcome :=
  (* If the number of possible parameter values is small, we just perform an
     exhaustive search. *)
  do scale_type <- getitem (scale_types (search_space acqf_params)) param_idx;
  if bool_decide (scale_type = CATEGORICAL)
     || bool_decide (length choices <= MAX_INT_EXHAUSTIVE_SEARCH_PARAMS)%nat then
    _exhaustive_search acqf_params initial_params initial_fval param_idx choices
  else
    _discrete_line_search acqf_params initial_params initial_fval param_idx choices xtol.

(** The choices of the discrete parameter [i]: the category codes, or the
    normalized grid from the lower to the upper bound. *)
Definition choices_of (space : SearchSpace) (i : Z) : M (list float) :=
  do scale_type <- getitem (scale_types space) i;
  do b <- getitem (bounds space) i;
  if bool_decide (scale_type = CATEGORICAL) then np_arange zero b.2 one
  else
    do step <- getitem (steps space) i;
    do raw <- np_arange b.1 (b.2 + dec 5 1 * step) step;
    ret (normalize_one_param raw scale_type b step).

Definition CONTINUOUS : Z := -1.

(** What the loops of [local_search_mixed] carry: the best vector, its value
    and [last_changed_param]. *)
Abbreviation search_state := (list float * float * option Z)%type.

(** The loop over the discrete parameters; [inl] is a [return] from inside
    it, [inr] the state at its end. *)
Fixpoint sweep_discrete (acqf_params : AcquisitionFunctionParams)
    (groups : list (Z * list float * float)) (st : search_state)
  : M (list float * float + search_state) :=
  let '(best_normalized_params, best_fval, last_changed_param) := st in
  match groups with
  | [] => ret (inr st)
  | (i, choices, xtol) :: groups' =>
      if bool_decide (last_changed_param = Some i) then
        (* Parameters not changed since last time. *)
        ret (inl (best_normalized_params, best_fval))
      else
        do '(best_normalized_params, best_fval, updated) <-
          _local_search_discrete acqf_params best_normalized_params best_fval
            i choices xtol;
        sweep_discrete acqf_params groups'
          (best_normalized_params, best_fval,
           if updated then Some i else last_changed_param)
  end.

(** The loop [for _ in range(max_iter)] with what follows it. *)
Fixpoint sweeps (acqf_params : AcquisitionFunctionParams)
    (continuous_indices : list Z) (lengthscale : list float) (tol : float)
    (groups : list (Z * list float * float)) (iters : nat) (st : search_state)
  : M (list float * float) :=
  let '(best_normalized_params, best_fval, last_changed_param) := st in
  match iters with
  | O =>
      do _ <- warn "local_search_mixed: Local search did not converge.";
      ret (best_normalized_params, best_fval)
  | S iters' =>
      if bool_decide (last_changed_param = Some CONTINUOUS) then
        (* Parameters not changed since last time. *)
        ret (best_normalized_params, best_fval)
      else
        do '(best_normalized_params, best_fval, updated) <-
          _gradient_ascent acqf_params best_normalized_params best_fval
            continuous_indices lengthscale tol;
        let last_changed_param :=
          if updated then Some CONTINUOUS else last_changed_param in
        do r <- sweep_discrete acqf_params groups
                  (best_normalized_params, best_fval, last_changed_param);
        match r with
        | inl res => ret res
        | inr (best_normalized_params, best_fval, None) =>
            (* Parameters not changed from the beginning. *)
            ret (best_normalized_params, best_fval)
        | inr st' =>
            sweeps acqf_params continuous_indices lengthscale tol groups iters' st'
        end
  end.

(** Lines 194 to 228 of [local_search_mixed]: the continuous indices with
    their length scales, and each discrete index with its choices and the
    tolerance of its line search. *)
Definition parameter_groups (acqf_params : AcquisitionFunctionParams)
  : M (list Z * list float * list (Z * list float * float)) :=
  let space := search_space acqf_params in
  let continuous_indices := np_where (fun s => s =? zero) (steps space) in
  do isl <- take_at (inverse_squared_lengthscales (kernel_params acqf_params))
              continuous_indices;
  (* This is a technique for speeding up optimization. *)
  let lengthscale := map (fun v => one / np_sqrt v) isl in
  let discrete_indices := np_where (fun s => s >? zero) (steps space) in
  do choices_of_discrete_params <- mapM (choices_of space) discrete_indices;
  let noncontinuous_paramwise_xtol :=
    (* Terminate discrete optimizations once the change in x becomes smaller
       than this. *)
    map (fun choices => np_min (np_diff choices) PInf / of_Z 4)
      choices_of_discrete_params in
  ret (continuous_indices, lengthscale,
       zip (zip discrete_indices choices_of_discrete_params)
         noncontinuous_paramwise_xtol).

Definition local_search_mixed (acqf_params : AcquisitionFunctionParams)
    (initial_normalized_params : list float) (tol : float) (max_iter : Z)
  : M (list float * float) :=
  do '(continuous_indices, lengthscale, groups) <- parameter_groups acqf_params;
  let best_normalized_params := initial_normalized_params in
  do best_fval <- eval_acqf_no_grad1 acqf_params best_normalized_params;
  sweeps acqf_params continuous_indices lengthscale tol groups
    (Z.to_nat max_iter) (best_normalized_params, best_fval, None).

(** The defaults of the keyword arguments. *)
Definition default_max_iter : Z := 100.
Definition default_tol : float := dec 1 4.
Definition default_n_additional_samples : Z := 2048.
Definition default_n_local_search : Z := 10.

(** The weights of lines 299 to 301: [probs = np.exp(f_vals - f_vals[max_i])],
    [probs[max_i] = 0.0], [probs /= probs.sum()]. *)
Definition softmax_probs (f_vals : list float) (max_i : Z) : M (list float) :=
  do f_max <- getitem f_vals max_i;
  let probs := map (fun v => exp (v - f_max)) f_vals in
  do probs <- setitem probs max_i zero;
  let total := np_sum probs in
  ret (map (fun p => p / total) probs).

(** The loop over the start points. *)
Fixpoint search_from (acqf_params : AcquisitionFunctionParams) (tol : float)
    (starts : list (list float)) (best_x : list float) (best_f : float)
  : M (list float * float) :=
  match starts with
  | [] => ret (best_x, best_f)
  | x_guess :: starts' =>
      do '(x, f) <- local_search_mixed acqf_params x_guess tol default_max_iter;
      if f >? best_f then search_from acqf_params tol starts' x f
      else search_from acqf_params tol starts' best_x best_f
  end.

Definition optimize_acqf_mixed (acqf_params : AcquisitionFunctionParams)
    (given_initial_xs : option (list (list float)))
    (n_additional_samples n_local_search : Z) (tol : float)
  : M (list float * float) :=
  let given_initial_xs := default [] given_initial_xs in
  do _ <- assert
    (bool_decide (Z.of_nat (length given_initial_xs) <= n_local_search - 1)%Z)
    "We must choose at least 1 best sampled point + given_initial_xs as start points.";
  do sampled_xs <-
    (fun w =>
       let '(xs, r) :=
         sample_normalized_params n_additional_samples
           (search_space acqf_params) (rng w) in
       (inr xs, World r (evals w) (warnings w)));
  (* Evaluate all values at initial samples *)
  do f_vals <- eval_acqf_no_grad acqf_params sampled_xs;
  do max_i <- np_argmax f_vals;
  do probs <- softmax_probs f_vals max_i;
  do remaining_idxs <-
    rng_choice (Z.of_nat (length sampled_xs))
      (n_local_search - Z.of_nat (length given_initial_xs) - 1)%Z probs;
  do best_x <- getitem sampled_xs max_i;
  do best_f <- getitem f_vals max_i;
  do rest <- take_at sampled_xs remaining_idxs;
  search_from acqf_params tol ([best_x] ++ rest ++ given_initial_xs) best_x best_f.

End OptimMixed.

(** ** The coordinate-descent driver in the words of the specification

    The driver as section 4.4 of the specification describes it: a state
    machine whose state is the group that last produced a strict improvement.
    This definition follows the specification, not the source; the theorem
    [local_search_mixed_follows_spec] compares the two. *)

Module DriverSpec.

(** A coordinate group: the continuous coordinates together, or one discrete
    index with its choices and the tolerance of its line search. *)
Inductive group : Type :=
| ContinuousGroup
| DiscreteIndex (i : Z) (choices : list float) (xtol : float).

(** The state: which group last improved. *)
Inductive changed : Type :=
| NoneYet
| ByContinuous
| ByDiscrete (i : Z).

Definition id_of (g : group) : changed :=
  match g with
  | ContinuousGroup => ByContinuous
  | DiscreteIndex i _ _ => ByDiscrete i
  end.

(** Why the machine stopped. *)
Inductive reason : Type :=
| Converged        (* about to optimize the group that improved last *)
| NothingImproved  (* a whole sweep from the start without an improvement *)
| CapReached       (* the cap on the number of sweeps *)
| Raised (e : exn) (* an optimizer raised *).

(** The machine is about to start sweep [k], is in sweep [k] with the groups
    [todo] left, or has stopped in sweep [k]. *)
Inductive config : Type :=
| Starting (k : nat) (best : list float * float) (last : changed) (w : world)
| Sweeping (k : nat) (todo : list group) (best : list float * float)
    (last : changed) (w : world)
| Halted (k : nat) (why : reason) (result : exn + list float * float)
    (w : world).

(** A discrete index of the source with its choices and tolerance, as a
    group. *)
Definition as_group (g : Z * list float * float) : group :=
  let '(i, choices, xtol) := g in DiscreteIndex i choices xtol.

(** The value of [last_changed_param] in the source for a state of the
    machine. *)
Definition code_of (last : changed) : option Z :=
  match last with
  | NoneYet => None
  | ByContinuous => Some CONTINUOUS
  | ByDiscrete i => Some i
  end.

(** A discrete index is not negative, so its code is never [CONTINUOUS]. *)
Definition well_formed (last : changed) : Prop :=
  match last with ByDiscrete i => (0 <= i)%Z | _ => True end.

Section Machine.

Context `{Externals}.
Variable acqf_params : AcquisitionFunctionParams.
Variable continuous_indices : list Z.
Variable lengthscale : list float.
Variable tol : float.
Variable discrete : list (Z * list float * float).
Variable max_iter : nat.

(** The groups of a sweep, in their fixed order: the continuous group, then
    each discrete index in ascending order. *)
Definition groups : list group := ContinuousGroup :: map as_group discrete.

(** Optimizing a group: section 4.2 for the continuous group, section 4.3 for
    a discrete index. *)
Definition optimize (g : group) (best : list float * float)
  : M (list float * float * bool) :=
  match g with
  | ContinuousGroup =>
      _gradient_ascent acqf_params best.1 best.2 continuous_indices lengthscale tol
  | DiscreteIndex i choices xtol =>
      _local_search_discrete acqf_params best.1 best.2 i choices xtol
  end.

Inductive step : config -> config -> Prop :=
(* Hard iteration cap: on reaching the cap, emit a non-fatal warning and
   return the current best regardless. *)
| step_cap best last w :
    step (Starting max_iter best last w)
      (Halted max_iter CapReached (inr best)
         (warn "local_search_mixed: Local search did not converge." w).2)
(* Each outer iteration, in fixed order. *)
| step_sweep k best last w :
    (k < max_iter)%nat ->
    step (Starting k best last w) (Sweeping k groups best last w)
(* Before optimizing a group, if it is the same group that produced the most
   recent improvement, terminate and return the current best. *)
| step_converged k g todo best last w :
    last = id_of g ->
    step (Sweeping k (g :: todo) best last w) (Halted k Converged (inr best) w)
(* Whenever a group improves, record it as "last changed". *)
| step_improved k g todo best last w x f w' :
    last <> id_of g ->
    optimize g best w = (inr (x, f, true), w') ->
    step (Sweeping k (g :: todo) best last w) (Sweeping k todo (x, f) (id_of g) w')
| step_unchanged k g todo best last w x f w' :
    last <> id_of g ->
    optimize g best w = (inr (x, f, false), w') ->
    step (Sweeping k (g :: todo) best last w) (Sweeping k todo (x, f) last w')
| step_raised k g todo best last w e w' :
    last <> id_of g ->
    optimize g best w = (inl e, w') ->
    step (Sweeping k (g :: todo) best last w) (Halted k (Raised e) (inl e) w')
(* If, after sweeping continuous and all discrete indices once, no group has
   ever improved, terminate immediately. *)
| step_nothing_improved k best w :
    step (Sweeping k [] best NoneYet w) (Halted k NothingImproved (inr best) w)
| step_next k best last w :
    last <> NoneYet ->
    step (Sweeping k [] best last w) (Starting (S k) best last w).

End Machine.

End DriverSpec.

(** ** A concrete instance

    Simple stand-ins for the externals, to run the functions on concrete
    inputs: a line-search solver that tries each end of its box, a scalar
    minimizer that scans its bracket, rational approximations of the two
    elementary functions and a counter in place of the random source. *)

Module Toy.

(** A rational literal [n / d]. *)
Definition frac (n : Z) (d : positive) : float := Fin (Q2Qc (Qmake n d)).

(** The integer square root of the argument scaled by [10^12]. *)
Definition toy_sqrt (x : float) : float :=
  match x with
  | Fin q =>
      Fin (Q2Qc (Qmake (Z.sqrt (Qnum (this q) * 10 ^ 12 / Z.pos (Qden (this q))))
                   (10 ^ 6)))
  | PInf => PInf
  | _ => NaN
  end.

(** [1 / (1 - x + x^2 / 2)] for a finite argument: positive, and one at zero. *)
Definition toy_exp (x : float) : float :=
  match x with
  | Fin _ => one / (one - x + x * x / of_Z 2)
  | PInf => PInf
  | NInf => zero
  | NaN => NaN
  end.

(** The least of the answers received so far, with its query. *)
Fixpoint least {Q} (hist : list (Q * float)) (best : Q * float) : Q * float :=
  match hist with
  | [] => best
  | (q, a) :: hist' => least hist' (if a <? best.2 then (q, a) else best)
  end.

(** Tries the start point, then the upper and the lower corner of the box,
    and returns the best of the three; one iteration when it moved. *)
Definition toy_lbfgs (x0 : list float) (box : list (float * float))
    (pgtol : float) (maxiter : Z)
  : solver (list float) (float * list float) (list float * float * Z) :=
  let result (hist : list (list float * (float * list float))) :=
    match hist with
    | [] => (x0, PInf, 0%Z)
    | (q0, (a0, _)) :: rest =>
        let '(q, a) := least (map (fun qa => (qa.1, qa.2.1)) rest) (q0, a0) in
        (q, a, if bool_decide (q = q0) then 0%Z else 1%Z)
    end in
  Solver 3
    (fun hist =>
       match length hist with
       | 0%nat => Ask x0
       | 1%nat => Ask (map snd box)
       | 2%nat => Ask (map fst box)
       | _ => Stop (result hist)
       end)
    (fun hist => inr (result hist)).

(** Asks the middle of the bracket and then the points one tolerance apart on
    both sides of the best answer, up to sixty-four queries. *)
Definition toy_brent (bracket : float * float * float) (tol : float)
  : solver float float float :=
  let '(xa, xb, xc) := bracket in
  let result (hist : list (float * float)) :=
    match hist with
    | [] => xb
    | qa :: rest => (least rest qa).1
    end in
  Solver 64
    (fun hist =>
       match hist with
       | [] => Ask xb
       | qa :: rest =>
           let x := (least rest qa).1 in
           let asked (y : float) := existsb (fun h => bool_decide (h.1 = y)) hist in
           if negb (asked (x + tol)) then Ask (x + tol)
           else if negb (asked (x - tol)) then Ask (x - tol)
           else Stop x
       end)
    (fun hist => inr (result hist)).

(** [normalize_one_param] for a linear scale: the position in the bounds
    widened by half a step; a categorical code is its own normal form. *)
Definition toy_normalize (param_value : list float) (scale_type : ScaleType)
    (b : float * float) (step : float) : list float :=
  match scale_type with
  | CATEGORICAL => param_value
  | _ =>
      let lo := b.1 - step / of_Z 2 in
      let hi := b.2 + step / of_Z 2 in
      if lo =? hi then map (fun _ => frac 1 2) param_value
      else map (fun v => (v - lo) / (hi - lo)) param_value
  end.

(** The [k]-th sampled row from the counter [r]: a continuous coordinate is a
    multiple of a tenth, a discrete one a point of its grid. *)
Definition toy_coordinate (space : SearchSpace) (r k : Z) (j : nat) : float :=
  let t := (r + 7 * k + 3 * Z.of_nat j)%Z in
  match scale_types space !! j, bounds space !! j, steps space !! j with
  | Some st, Some b, Some step =>
      if step =? zero then frac (t mod 11) 10
      else
        let count :=
          match (if bool_decide (st = CATEGORICAL) then b.2
                 else (b.2 - b.1) / step + one) with
          | Fin q => Z.max 1 (Qceiling (this q))
          | _ => 1%Z
          end in
        let raw :=
          if bool_decide (st = CATEGORICAL) then of_Z (t mod count)
          else b.1 + of_Z (t mod count) * step in
        default NaN (head (toy_normalize [raw] st b step))
  | _, _, _ => NaN
  end.

Definition toy_sample (n : Z) (space : SearchSpace) (r : N)
  : list (list float) * N :=
  (map (fun k : nat =>
          map (toy_coordinate space (Z.of_N r) (Z.of_nat k))
            (seq 0 (length (scale_types space))))
     (seq 0 (Z.to_nat n)),
   (r + N.of_nat (Z.to_nat n))%N).

(** Draws the first [size] indices of positive probability. *)
Definition toy_choice (a size : Z) (p : list float) (r : N) : list Z * N :=
  (take (Z.to_nat size) (np_where (fun x => x >? zero) p), (r + 1)%N).

Definition toy : Externals := {|
  fmin_l_bfgs_b := toy_lbfgs;
  minimize_scalar_brent := toy_brent;
  sqrt := toy_sqrt;
  exp := toy_exp;
  sample_normalized_params := toy_sample;
  choice_draw := toy_choice;
  normalize_one_param := toy_normalize;
|}.

(** A fresh world. *)
Definition w0 : world := World 0 [] [].

End Toy.

(** ** Concrete acquisition functions *)

Module Examples.

Import Toy.

Definition sq (x : float) : float := x * x.

(** One continuous parameter and one categorical parameter with three
    categories: [f(x0, x1) = -(x0 - 0.4)^2 + (1 if x1 == 1 else 0)]. *)
Definition f_mixed (x : list float) : float :=
  match x with
  | [x0; x1] => - sq (x0 - frac 4 10) + (if x1 =? one then one else zero)
  | _ => NaN
  end.

Definition p_mixed : AcquisitionFunctionParams := {|
  search_space := {|
    scale_types := [LINEAR; CATEGORICAL];
    bounds := [(zero, one); (zero, of_Z 3)];
    steps := [zero; one] |};
  kernel_params := {| inverse_squared_lengthscales := [one; one] |};
  acqf := f_mixed;
  acqf_grad := fun x =>
    match x with
    | [x0; _] => [of_Z (-2) * (x0 - frac 4 10); zero]
    | _ => []
    end;
|}.

(** One continuous parameter, [f(x) = x]. *)
Definition p_line : AcquisitionFunctionParams := {|
  search_space := {|
    scale_types := [LINEAR]; bounds := [(zero, one)]; steps := [zero] |};
  kernel_params := {| inverse_squared_lengthscales := [one] |};
  acqf := fun x => default NaN (head x);
  acqf_grad := fun x => [one];
|}.

(** One categorical parameter with a single category. *)
Definition p_single : AcquisitionFunctionParams := {|
  search_space := {|
    scale_types := [CATEGORICAL]; bounds := [(zero, one)]; steps := [one] |};
  kernel_params := {| inverse_squared_lengthscales := [one] |};
  acqf := fun _ => zero;
  acqf_grad := fun _ => [zero];
|}.

(** One integer parameter from 0 to 19: twenty grid points, searched by the
    line search; [f(x) = -(x - 1/2)^2]. *)
Definition p_grid : AcquisitionFunctionParams := {|
  search_space := {|
    scale_types := [LINEAR]; bounds := [(zero, of_Z 19)]; steps := [one] |};
  kernel_params := {| inverse_squared_lengthscales := [one] |};
  acqf := fun x => - sq (default NaN (head x) - frac 1 2);
  acqf_grad := fun _ => [zero];
|}.

(** Two categorical parameters with 202 categories each and a staircase:
    [f(a, b) = a + b] where [|a - b| <= 1], and [-1] elsewhere.  From [(0, 0)]
    every sweep climbs two steps. *)
Definition f_stairs (x : list float) : float :=
  match x with
  | [a; b] => if abs (a - b) <=? one then a + b else of_Z (-1)
  | _ => NaN
  end.

Definition p_stairs : AcquisitionFunctionParams := {|
  search_space := {|
    scale_types := [CATEGORICAL; CATEGORICAL];
    bounds := [(zero, of_Z 202); (zero, of_Z 202)];
    steps := [one; one] |};
  kernel_params := {| inverse_squared_lengthscales := [one; one] |};
  acqf := f_stairs;
  acqf_grad := fun _ => [zero; zero];
|}.

(** Two categorical parameters with three categories each and the same
    staircase. *)
Definition p_cat : AcquisitionFunctionParams := {|
  search_space := {|
    scale_types := [CATEGORICAL; CATEGORICAL];
    bounds := [(zero, of_Z 3); (zero, of_Z 3)];
    steps := [one; one] |};
  kernel_params := {| inverse_squared_lengthscales := [one; one] |};
  acqf := f_stairs;
  acqf_grad := fun _ => [zero; zero];
|}.

(** The discrete groups of [p_cat] as the classifier computes them. *)
Definition cat_groups : list (Z * list float * float) :=
  [(0%Z, [zero; one; of_Z 2], frac 1 4); (1%Z, [zero; one; of_Z 2], frac 1 4)].

(** The normalized grid of [p_grid]: [(k + 1/2) / 20] for [k] from 0 to 19. *)
Definition grid20 : list float :=
  map (fun k : nat => frac (2 * Z.of_nat k + 1) 40) (seq 0 20).

End Examples.

(** ** Predicates of the statements and their proofs *)

(** [keeps R m]: the world after [m] is related by [R] to the world before. *)
Definition keeps (R : relation world) {A} (m : M A) : Prop :=
  forall w, R w (m w).2.

(** The warnings stay as they are; the evaluation log only grows; the log
    of warnings only grows. *)
Definition same_warnings : relation world :=
  fun w w' => warnings w' = warnings w.

Definition evals_grow : relation world :=
  fun w w' => evals w `prefix_of` evals w'.

Definition warnings_grow : relation world :=
  fun w w' => warnings w `prefix_of` warnings w'.

(** The outcome of [m] is the same from every world. *)
Definition indep {A} (m : M A) : Prop := forall w1 w2, (m w1).1 = (m w2).1.

(** An index that Python accepts for an array of length [n]. *)
Definition valid_index (n : nat) (i : Z) : Prop :=
  (- Z.of_nat n <= i < Z.of_nat n)%Z.

(** The value [f'] an optimizer returns for the value [f] it was given: the
    same value, or a strictly greater one. *)
Definition improves (f f' : float) : Prop := f' = f \/ (f <? f') = true.

(** The dispatcher sends the group to the exhaustive search: its scale is
    categorical or it has at most sixteen choices. *)
Definition searched_exhaustively (acqf_params : AcquisitionFunctionParams)
    (g : Z * list float * float) : Prop :=
  exists scale_type,
    py_index (scale_types (search_space acqf_params)) g.1.1 = Some scale_type /\
    (scale_type = CATEGORICAL \/
     (length g.1.2 <= MAX_INT_EXHAUSTIVE_SEARCH_PARAMS)%nat).

(** The coordinate of the group is one of its choices. *)
Definition on_grid (x : list float) (g : Z * list float * float) : Prop :=
  exists c, py_index x g.1.1 = Some c /\ c ∈ g.1.2.

(** The grid ascends: each point is below the next. *)
Fixpoint ascending (grids : list float) : bool :=
  match grids with
  | x :: (y :: _) as rest => (x <? y) && ascending rest
  | _ => true
  end.

(** A vector that differs from [x] in coordinate [idx] at most, where it has
    a point of the grid. *)
Definition grid_vector (x : list float) (idx : Z) (grids : list float)
    (v : list float) : Prop :=
  exists g, g ∈ grids /\ v = update_at x idx g.

(** What a call has done to the world [w] it started from: it has handed the
    batches [E] to the evaluator and nothing else. *)
Definition evaluated (w : world) (E : list (list (list float))) (w' : world) : Prop :=
  rng w' = rng w /\ warnings w' = warnings w /\ evals w' = evals w ++ E.

(** The invariant of the closures of [_discrete_line_search]. *)
Definition line_inv (p : AcquisitionFunctionParams) (x : list float)
    (f : float) (idx : Z) (grids : list float) (ci : Z) (w0 : world)
    (l : gmap Z float * list float) (w : world) : Prop :=
  (l.2 = x \/ grid_vector x idx grids l.2) /\
  (forall i v, l.1 !! i = Some v ->
     (0 <= i < Z.of_nat (length grids))%Z /\
     (i = ci /\ v = - f \/
      exists g, py_index grids i = Some g /\ v = - acqf p (update_at x idx g))) /\
  exists E, evaluated w0 E w /\ S (length E) = size l.1 /\
    Forall (fun b => exists v, grid_vector x idx grids v /\ b = [v]) E.

(** The invariant of the driver for a start vector [x0]: the length stays,
    every discrete coordinate is on its grid, and a coordinate that is in no
    group is as it was. *)
Definition on_grids (idxs : list Z) (groups : list (Z * list float * float))
    (x0 x : list float) : Prop :=
  length x = length x0 /\
  Forall (on_grid x) groups /\
  forall j : nat,
    Z.of_nat j ∉ idxs -> Z.of_nat j ∉ (fun g => g.1.1) <$> groups ->
    x !! j = x0 !! j.


(** [v] has the length of [x] and differs from it at the indices [idxs]
    at most. *)
Definition agrees (idxs : list Z) (x v : list float) : Prop :=
  length v = length x /\
  forall j : nat, Z.of_nat j ∉ idxs -> v !! j = x !! j.

(** [evaluates_only G m post]: whatever [m] does, value or exception, the
    batches it hands to the evaluator hold vectors of [G] only; a value it
    returns satisfies [post]. *)
Definition evaluates_only (G : list float -> Prop) {A} (m : M A)
    (post : A -> Prop) : Prop :=
  forall w, exists E,
    evals (m w).2 = evals w ++ E /\ Forall (Forall G) E /\
    match (m w).1 with inr a => post a | inl _ => True end.

(** * Properties *)

(** ** The order of the floating-point values *)

Section FloatOrder.

Implicit Types x y z : float.

Lemma ltb_leb x y : (x <? y) = true -> (x <=? y) = true.
Proof.
  destruct x, y; simpl; try done.
  rewrite !bool_decide_eq_true. apply Qclt_le_weak.
Qed.

Lemma leb_refl x : is_nan x = false -> (x <=? x) = true.
Proof.
  destruct x; simpl; try done.
  intros _. apply bool_decide_eq_true. apply Qcle_refl.
Qed.

Lemma leb_trans x y z : (x <=? y) = true -> (y <=? z) = true -> (x <=? z) = true.
Proof.
  destruct x, y, z; simpl; try done.
  rewrite !bool_decide_eq_true. apply Qcle_trans.
Qed.

Lemma leb_not_nan x y : (x <=? y) = true -> is_nan x = false /\ is_nan y = false.
Proof. destruct x, y; simpl; done. Qed.

Lemma ltb_not_nan x y : (x <? y) = true -> is_nan x = false /\ is_nan y = false.
Proof. destruct x, y; simpl; done. Qed.

(** Two numbers are comparable: what is not below or equal is above. *)
Lemma leb_total x y :
  is_nan x = false -> is_nan y = false -> (x <=? y) = false -> (y <? x) = true.
Proof.
  destruct x, y; simpl; try done.
  intros _ _. rewrite bool_decide_eq_false, bool_decide_eq_true.
  apply Qcnot_le_lt.
Qed.

Lemma leb_ltb_false x y : (x <=? y) = true -> (y <? x) = false.
Proof.
  destruct x, y; simpl; try done.
  rewrite bool_decide_eq_true, bool_decide_eq_false. apply Qcle_not_lt.
Qed.

Lemma ltb_irrefl x : (x <? x) = false.
Proof.
  destruct x; simpl; try done.
  apply bool_decide_eq_false. intros Hlt.
  by apply (Qclt_not_le _ _ Hlt), Qcle_refl.
Qed.

Lemma eqb_eq x y : (x =? y) = true -> x = y.
Proof. destruct x, y; simpl; try done; by rewrite bool_decide_eq_true. Qed.

Lemma eqb_refl x : is_nan x = false -> (x =? x) = true.
Proof. destruct x; simpl; try done; intros _; by apply bool_decide_eq_true. Qed.

(** Equal values are not in strict order. *)
Lemma eqb_ltb_false x y : (x =? y) = true -> (x <? y) = false.
Proof. intros Heq. apply eqb_eq in Heq as ->. apply ltb_irrefl. Qed.

Lemma neg_involutive x : - - x = x.
Proof.
  destruct x; simpl; try done. f_equal.
  apply Qc_is_canon. simpl. rewrite !Qred_correct. apply Qopp_involutive.
Qed.

End FloatOrder.

(** ** Reasoning about computations *)

Section Monad.

Context {A B : Type}.
Implicit Types (m : M A) (k : A -> M B) (w : world).

Lemma bind_inr m k w b w' :
  bind m k w = (inr b, w') ->
  exists a w1, m w = (inr a, w1) /\ k a w1 = (inr b, w').
Proof.
  unfold bind. destruct (m w) as [[e|a] w1]; [done|]. intros Hk. by exists a, w1.
Qed.

Lemma bind_ok m k w a w1 : m w = (inr a, w1) -> bind m k w = k a w1.
Proof. unfold bind. by intros ->. Qed.

Lemma bind_raise m k w e w1 : m w = (inl e, w1) -> bind m k w = (inl e, w1).
Proof. unfold bind. by intros ->. Qed.

End Monad.

(** A computation that touches neither the world nor raises is its value. *)
Lemma getitem_inr {A} (a : list A) i x w w' :
  getitem a i w = (inr x, w') -> py_index a i = Some x /\ w' = w.
Proof.
  unfold getitem. destruct (py_index a i); unfold ret, raise; naive_solver.
Qed.

Lemma getitem_ok {A} (a : list A) i x w :
  py_index a i = Some x -> getitem a i w = (inr x, w).
Proof. unfold getitem. by intros ->. Qed.

Lemma py_index_nonneg {A} (a : list A) (i : nat) :
  py_index a (Z.of_nat i) = a !! i.
Proof.
  unfold py_index. case_bool_decide as Hi.
  - by rewrite Nat2Z.id.
  - rewrite bool_decide_eq_false_2 by lia.
    symmetry. apply lookup_ge_None. lia.
Qed.

Lemma py_index_is_Some {A} (a : list A) i :
  (0 <= i < Z.of_nat (length a))%Z -> is_Some (py_index a i).
Proof.
  intros Hi. unfold py_index. rewrite bool_decide_eq_true_2 by done.
  apply lookup_lt_is_Some. lia.
Qed.

(** ** What a computation leaves of the world

    [keeps R m]: the world after [m] is related by [R] to the world before.
    With [R] a preorder that every logged evaluation respects, this holds of
    every function of the module that logs no warning and draws nothing; two
    instances follow, one for the warnings and one for the evaluation log. *)

Section Frame.

Context `{Externals}.
Variable R : relation world.
Context `{!PreOrder R}.
Hypothesis R_log_eval : forall xs, keeps R (log_eval xs).

Lemma keeps_ret {A} (a : A) : keeps R (ret a).
Proof. intros w. simpl. reflexivity. Qed.

Lemma keeps_raise {A} e : keeps R (@raise A e).
Proof. intros w. simpl. reflexivity. Qed.

Lemma keeps_bind {A B} (m : M A) (k : A -> M B) :
  keeps R m -> (forall a, keeps R (k a)) -> keeps R (bind m k).
Proof.
  intros Hm Hk w. unfold bind. specialize (Hm w).
  destruct (m w) as [[e|a] w1]; simpl in *; [done|].
  etrans; [exact Hm|apply Hk].
Qed.

Ltac keeps_step :=
  lazymatch goal with
  | |- keeps _ (ret _) => apply keeps_ret
  | |- keeps _ (raise _) => apply keeps_raise
  | |- keeps _ (bind _ _) => apply keeps_bind; [|intros ?]
  | |- keeps _ (match ?x with _ => _ end) => destruct x
  | |- keeps _ (log_eval _) => apply R_log_eval
  | |- _ => first [done | fail 1 "no rule"]
  end.

Ltac keeps_auto := repeat (cbv zeta; keeps_step).

Lemma keeps_assert c msg : keeps R (assert c msg).
Proof using PreOrder0. unfold assert. keeps_auto. Qed.

Lemma keeps_getitem {A} (a : list A) i : keeps R (getitem a i).
Proof using PreOrder0. unfold getitem. keeps_auto. Qed.

Lemma keeps_setitem {A} (a : list A) i v : keeps R (setitem a i v).
Proof using PreOrder0. unfold setitem. keeps_auto. Qed.

Lemma keeps_take_at {A} (a : list A) idxs : keeps R (take_at a idxs).
Proof using PreOrder0.
  induction idxs as [|i idxs IH]; simpl; keeps_auto; auto using keeps_getitem.
Qed.

Lemma keeps_put_at {A} idxs : forall (a vals : list A), keeps R (put_at a idxs vals).
Proof using PreOrder0.
  induction idxs as [|i idxs IH]; intros a [|v vals]; simpl; keeps_auto;
    auto using keeps_setitem.
Qed.

Lemma keeps_np_zip_with f a : forall b, keeps R (np_zip_with f a b).
Proof using PreOrder0.
  induction a as [|x a IH]; intros [|y b]; simpl; keeps_auto; auto.
Qed.

Lemma keeps_mapM {A B} (f : A -> M B) l :
  (forall a, keeps R (f a)) -> keeps R (mapM f l).
Proof using PreOrder0.
  intros Hf. induction l as [|a l IH]; simpl; keeps_auto; auto.
Qed.

Lemma keeps_np_argmax a : keeps R (np_argmax a).
Proof using PreOrder0. unfold np_argmax. keeps_auto. Qed.

Lemma keeps_math_sqrt x : keeps R (math_sqrt x).
Proof using PreOrder0. unfold math_sqrt. keeps_auto. Qed.

Lemma keeps_run_from {Q A R' L} (s : solver Q A R') (f : Q -> L -> M (A * L)) fuel :
  (forall q l, keeps R (f q l)) ->
  forall hist l, keeps R (run_from fuel s f hist l).
Proof using PreOrder0.
  intros Hf. induction fuel as [|fuel IH]; intros hist l; simpl; keeps_auto; auto.
Qed.

Lemma keeps_run_solver {Q A R' L} (s : solver Q A R') (f : Q -> L -> M (A * L)) l :
  (forall q l, keeps R (f q l)) -> keeps R (run_solver s f l).
Proof using PreOrder0. intros Hf. by apply keeps_run_from. Qed.

Lemma keeps_eval_acqf_no_grad p xs : keeps R (eval_acqf_no_grad p xs).
Proof using PreOrder0 R_log_eval. unfold eval_acqf_no_grad. keeps_auto. Qed.

Lemma keeps_eval_acqf_no_grad1 p x : keeps R (eval_acqf_no_grad1 p x).
Proof using PreOrder0 R_log_eval. unfold eval_acqf_no_grad1. keeps_auto. Qed.

Lemma keeps_eval_acqf_with_grad p x : keeps R (eval_acqf_with_grad p x).
Proof using PreOrder0 R_log_eval. unfold eval_acqf_with_grad. keeps_auto. Qed.

Hint Resolve keeps_assert keeps_getitem keeps_setitem keeps_take_at keeps_put_at
  keeps_np_zip_with keeps_np_argmax keeps_math_sqrt keeps_eval_acqf_no_grad
  keeps_eval_acqf_no_grad1 keeps_eval_acqf_with_grad : core.

Lemma keeps_negative_acqf_with_grad p idxs ls q l :
  keeps R (negative_acqf_with_grad p idxs ls q l).
Proof using PreOrder0 R_log_eval.
  unfold negative_acqf_with_grad. keeps_auto; auto.
Qed.

Lemma keeps_minimize_negative_acqf p x idxs ls tol :
  keeps R (minimize_negative_acqf p x idxs ls tol).
Proof using PreOrder0 R_log_eval.
  unfold minimize_negative_acqf. keeps_auto; auto.
  apply keeps_run_solver. intros. apply keeps_negative_acqf_with_grad.
Qed.

Lemma keeps_gradient_ascent p x f idxs ls tol :
  keeps R (_gradient_ascent p x f idxs ls tol).
Proof using PreOrder0 R_log_eval.
  unfold _gradient_ascent.
  keeps_auto; auto using keeps_minimize_negative_acqf.
Qed.

Lemma keeps_exhaustive_search p x f i choices :
  keeps R (_exhaustive_search p x f i choices).
Proof using PreOrder0 R_log_eval. unfold _exhaustive_search. keeps_auto; auto. Qed.

Lemma keeps_find_nearest_index grids x : keeps R (find_nearest_index grids x).
Proof using PreOrder0. unfold find_nearest_index. keeps_auto; auto. Qed.

Lemma keeps_negative_acqf_with_cache p idx grids i l :
  keeps R (negative_acqf_with_cache p idx grids i l).
Proof using PreOrder0 R_log_eval.
  unfold negative_acqf_with_cache. keeps_auto; auto.
Qed.

Lemma keeps_interpolated_negative_acqf p idx grids x l :
  keeps R (interpolated_negative_acqf p idx grids x l).
Proof using PreOrder0 R_log_eval.
  unfold interpolated_negative_acqf.
  keeps_auto; auto using keeps_negative_acqf_with_cache.
Qed.

Lemma keeps_discrete_line_search p x f i grids xtol :
  keeps R (_discrete_line_search p x f i grids xtol).
Proof using PreOrder0 R_log_eval.
  unfold _discrete_line_search.
  keeps_auto;
    auto using keeps_find_nearest_index, keeps_negative_acqf_with_cache.
  apply keeps_run_solver. intros. apply keeps_interpolated_negative_acqf.
Qed.

Lemma keeps_local_search_discrete p x f i choices xtol :
  keeps R (_local_search_discrete p x f i choices xtol).
Proof using PreOrder0 R_log_eval.
  unfold _local_search_discrete.
  keeps_auto; auto using keeps_exhaustive_search, keeps_discrete_line_search.
Qed.

Lemma keeps_sweep_discrete p groups : forall st, keeps R (sweep_discrete p groups st).
Proof using PreOrder0 R_log_eval.
  induction groups as [|[[i choices] xtol] groups IH]; intros [[x f] last]; simpl.
  - keeps_auto.
  - keeps_auto; auto using keeps_local_search_discrete.
Qed.

Lemma keeps_np_arange a b c : keeps R (np_arange a b c).
Proof using PreOrder0. unfold np_arange. keeps_auto. Qed.

Lemma keeps_choices_of space i : keeps R (choices_of space i).
Proof using PreOrder0.
  unfold choices_of. keeps_auto; auto using keeps_np_arange.
Qed.

Lemma keeps_parameter_groups p : keeps R (parameter_groups p).
Proof using PreOrder0.
  unfold parameter_groups. keeps_auto; auto.
  apply keeps_mapM. intros i. apply keeps_choices_of.
Qed.

End Frame.

#[local] Instance same_warnings_preorder : PreOrder same_warnings.
Proof.
  split; [by intros w|]. intros w1 w2 w3. unfold same_warnings. congruence.
Qed.

#[local] Instance evals_grow_preorder : PreOrder evals_grow.
Proof.
  split; [intros w; unfold evals_grow; reflexivity|].
  intros w1 w2 w3. unfold evals_grow. intros H12 H23. by etrans.
Qed.

Lemma log_eval_same_warnings xs : keeps same_warnings (log_eval xs).
Proof. by intros w. Qed.

Lemma log_eval_evals_grow xs : keeps evals_grow (log_eval xs).
Proof. intros w. simpl. by apply prefix_app_r. Qed.

Section EvalsGrow.

Context `{Externals}.

Lemma warn_evals_grow msg : keeps evals_grow (warn msg).
Proof. intros w. unfold evals_grow. simpl. reflexivity. Qed.

Lemma sweeps_evals_grow p idxs ls tol groups iters :
  forall st, keeps evals_grow (sweeps p idxs ls tol groups iters st).
Proof.
  induction iters as [|iters IH]; intros [[x f] last]; simpl.
  - apply (keeps_bind evals_grow); [apply warn_evals_grow|].
    intros _. apply (keeps_ret evals_grow).
  - case_bool_decide; [apply (keeps_ret evals_grow)|].
    apply (keeps_bind evals_grow);
      [apply (keeps_gradient_ascent evals_grow log_eval_evals_grow)|].
    intros [[x' f'] upd].
    apply (keeps_bind evals_grow);
      [apply (keeps_sweep_discrete evals_grow log_eval_evals_grow)|].
    intros [res|[[x'' f''] [last''|]]]; try apply (keeps_ret evals_grow).
    apply IH.
Qed.

Lemma local_search_mixed_evals_grow p x tol max_iter :
  keeps evals_grow (local_search_mixed p x tol max_iter).
Proof.
  unfold local_search_mixed.
  apply (keeps_bind evals_grow); [apply (keeps_parameter_groups evals_grow)|].
  intros [[idxs ls] groups].
  apply (keeps_bind evals_grow);
    [apply (keeps_eval_acqf_no_grad1 evals_grow log_eval_evals_grow)|].
  intros f. apply sweeps_evals_grow.
Qed.

Lemma search_from_evals_grow p tol starts :
  forall x f, keeps evals_grow (search_from p tol starts x f).
Proof.
  induction starts as [|s starts IH]; intros x f; simpl.
  - apply (keeps_ret evals_grow).
  - apply (keeps_bind evals_grow); [apply local_search_mixed_evals_grow|].
    intros [x' f']. destruct (f' >? f); apply IH.
Qed.

Lemma softmax_probs_pure f_vals max_i w r w' :
  softmax_probs f_vals max_i w = (r, w') -> w' = w.
Proof.
  unfold softmax_probs, bind, getitem, setitem, ret, raise.
  repeat case_match; naive_solver.
Qed.

Lemma rng_choice_evals a size p w :
  evals (rng_choice a size p w).2 = evals w.
Proof.
  unfold rng_choice, raise. repeat case_match; try done.
Qed.

End EvalsGrow.

(** ** The precondition of [optimize_acqf_mixed] *)

Section Precondition.

Context `{Externals}.

(** C5. A call of [optimize_acqf_mixed] with more seed points than
    [n_local_search - 1] raises the assertion error of line 287 and leaves
    the world as it found it: nothing was sampled and nothing evaluated.  A
    call with at most [n_local_search - 1] seed points passes the assertion:
    it samples the pool and hands it to the evaluator, which is the first
    evaluation of the call. *)
Theorem optimize_acqf_mixed_precondition
    (acqf_params : AcquisitionFunctionParams)
    (given_initial_xs : option (list (list float)))
    (n_additional_samples n_local_search : Z) (tol : float) (w : world) :
  let seeds := Z.of_nat (length (default [] given_initial_xs)) in
  let run :=
    optimize_acqf_mixed acqf_params given_initial_xs n_additional_samples
      n_local_search tol w in
  ((n_local_search - 1 < seeds)%Z ->
   run =
   (inl (AssertionError
      "We must choose at least 1 best sampled point + given_initial_xs as start points."),
    w))
  /\
  ((0 <= seeds <= n_local_search - 1)%Z ->
   assert (bool_decide (seeds <= n_local_search - 1)%Z)
     "We must choose at least 1 best sampled point + given_initial_xs as start points."
     w = (inr tt, w)
   /\
   let pool :=
     (sample_normalized_params n_additional_samples
        (search_space acqf_params) (rng w)).1 in
   (evals w ++ [pool])%list `prefix_of` evals run.2).
Proof.
  intros seeds run. subst run. unfold optimize_acqf_mixed. fold seeds. split.
  - intros Hgt. unfold bind at 1, assert.
    by rewrite bool_decide_eq_false_2 by lia.
  - intros [_ Hle]. unfold assert. rewrite bool_decide_eq_true_2 by done.
    split; [done|].
    unfold bind at 1. unfold ret at 1. unfold bind at 1.
    destruct (sample_normalized_params _ _ _) as [pool r] eqn:Hpool. simpl.
    unfold bind at 1. unfold eval_acqf_no_grad at 1, bind at 1. simpl.
    set (w1 := World r (evals w ++ [pool]) (warnings w)).
    change (evals w ++ [pool])%list with (evals w1).
    match goal with |- _ `prefix_of` evals (?m w1).2 =>
      cut (keeps evals_grow m); [intros Hk; apply Hk|] end.
    apply (keeps_bind evals_grow); [apply (keeps_np_argmax evals_grow)|].
    intros max_i.
    apply (keeps_bind evals_grow).
    { intros w2. destruct (softmax_probs _ _ w2) as [r2 w2'] eqn:Hs.
      apply softmax_probs_pure in Hs as ->. reflexivity. }
    intros probs.
    apply (keeps_bind evals_grow).
    { intros w2. unfold evals_grow. by rewrite rng_choice_evals. }
    intros idxs.
    apply (keeps_bind evals_grow); [apply (keeps_getitem evals_grow)|].
    intros best_x.
    apply (keeps_bind evals_grow); [apply (keeps_getitem evals_grow)|].
    intros best_f.
    apply (keeps_bind evals_grow); [apply (keeps_take_at evals_grow)|].
    intros rest.
    exact (search_from_evals_grow acqf_params tol
             ([best_x] ++ rest ++ default [] given_initial_xs) best_x best_f).
Qed.

End Precondition.

(** ** The nearest grid point *)

Section NearestIndex.

Context `{Externals}.

Lemma np_clip_bounds i lo hi : (lo <= hi)%Z -> (lo <= np_clip i lo hi <= hi)%Z.
Proof. unfold np_clip. lia. Qed.

(** On a grid of two or more points [find_nearest_index] raises nothing: it
    compares the distances to the grid points [i - 1] and [i], where [i] is
    the insertion point clipped into the grid. *)
Lemma find_nearest_index_run (grids : list float) (x : float) (w : world) :
  (2 <= length grids)%nat ->
  let i := np_clip (np_searchsorted grids x) 1 (Z.of_nat (length grids) - 1) in
  exists below above,
    py_index grids (i - 1)%Z = Some below /\
    py_index grids i = Some above /\
    find_nearest_index grids x w =
    (inr (if abs (x - below) <? abs (x - above) then (i - 1)%Z else i), w).
Proof.
  intros Hlen i.
  assert (1 <= i <= Z.of_nat (length grids) - 1)%Z as Hi
    by (apply np_clip_bounds; lia).
  destruct (py_index_is_Some grids (i - 1)%Z) as [below Hbelow]; [lia|].
  destruct (py_index_is_Some grids i) as [above Habove]; [lia|].
  exists below, above. split_and!; [done..|].
  unfold find_nearest_index. fold i.
  rewrite (bind_ok _ _ _ _ _ (getitem_ok _ _ _ w Hbelow)).
  by rewrite (bind_ok _ _ _ _ _ (getitem_ok _ _ _ w Habove)).
Qed.

(** C4 as amended. When the two grid points that bracket the query are at
    equal distance from it, [find_nearest_index] returns the upper one: the
    lower index is taken only when its distance is strictly smaller. *)
Theorem find_nearest_index_tie (grids : list float) (x : float) (w : world) :
  (2 <= length grids)%nat ->
  let i := np_clip (np_searchsorted grids x) 1 (Z.of_nat (length grids) - 1) in
  exists below above,
    py_index grids (i - 1)%Z = Some below /\
    py_index grids i = Some above /\
    ((abs (x - below) =? abs (x - above)) = true ->
     find_nearest_index grids x w = (inr i, w)).
Proof.
  intros Hlen i.
  destruct (find_nearest_index_run grids x w Hlen)
    as (below & above & Hbelow & Habove & Hrun).
  exists below, above. split_and!; [done..|].
  intros Htie. fold i in Hrun. by rewrite Hrun, (eqb_ltb_false _ _ Htie).
Qed.

End NearestIndex.

(** ** The line search on a grid *)

Section LineSearch.

Context `{Externals}.

(** The singleton guard of [_discrete_line_search]: on a grid of one
    point the input vector and value are returned with the flag unset,
    whatever the vector, and the world is as before. *)
Lemma discrete_line_search_singleton acqf_params initial_params initial_fval
    param_idx (g : float) xtol (w : world) :
  _discrete_line_search acqf_params initial_params initial_fval param_idx [g] xtol w
  = (inr (initial_params, initial_fval, false), w).
Proof. done. Qed.

(** C10. On a grid of two or more points, as every grid is that the
    dispatcher hands to the line search, a vector whose coordinate is not
    equal to the grid value nearest to it makes [_discrete_line_search]
    raise the assertion error of line 115, and the world is as before: the
    evaluator has not been called. *)
Theorem discrete_line_search_off_grid
    (acqf_params : AcquisitionFunctionParams) (initial_params : list float)
    (initial_fval : float) (param_idx : Z) (grids : list float) (xtol : float)
    (w : world) (current : float) :
  (2 <= length grids)%nat ->
  py_index initial_params param_idx = Some current ->
  exists i nearest,
    find_nearest_index grids current w = (inr i, w) /\
    py_index grids i = Some nearest /\
    ((current =? nearest) = false ->
     _discrete_line_search acqf_params initial_params initial_fval param_idx
       grids xtol w
     = (inl (AssertionError EmptyString), w)).
Proof.
  intros Hlen Hcur.
  destruct (find_nearest_index_run grids current w Hlen)
    as (below & above & Hbelow & Habove & Hrun).
  set (i := np_clip _ _ _) in *.
  set (j := if abs (current - below) <? abs (current - above) then (i - 1)%Z else i)
    in *.
  assert (exists nearest, py_index grids j = Some nearest) as [nearest Hnearest].
  { subst j. destruct (_ <? _); eauto. }
  exists j, nearest. split_and!; [done..|].
  intros Hoff. unfold _discrete_line_search.
  rewrite bool_decide_eq_false_2 by lia.
  rewrite (bind_ok _ _ _ _ _ (getitem_ok _ _ _ w Hcur)).
  rewrite (bind_ok _ _ _ _ _ Hrun).
  rewrite (bind_ok _ _ _ _ _ (getitem_ok _ _ _ w Hnearest)).
  unfold bind at 1, assert. by rewrite Hoff.
Qed.

End LineSearch.

(** ** Array primitives that succeed *)

Section Arrays.

Context {A : Type}.
Implicit Types (a : list A) (i : Z) (w : world).

Lemma py_index_valid a i : is_Some (py_index a i) <-> valid_index (length a) i.
Proof.
  unfold py_index, valid_index. repeat case_bool_decide.
  - rewrite lookup_lt_is_Some. lia.
  - rewrite lookup_lt_is_Some. lia.
  - split; [by intros [? ?]|lia].
Qed.

Lemma setitem_inr a i v a' w w' :
  setitem a i v w = (inr a', w') ->
  w' = w /\ a' = update_at a i v /\ length a' = length a /\
  valid_index (length a) i.
Proof.
  unfold setitem, update_at, valid_index, ret, raise.
  repeat case_bool_decide; intros [= <- <-]; rewrite ?length_insert;
    split_and!; try done; lia.
Qed.

Lemma setitem_ok a i v w :
  valid_index (length a) i -> setitem a i v w = (inr (update_at a i v), w).
Proof.
  unfold setitem, update_at, valid_index, ret.
  intros Hi. repeat case_bool_decide; try done; lia.
Qed.

Lemma length_update_at a i v : length (update_at a i v) = length a.
Proof. unfold update_at. repeat case_bool_decide; by rewrite ?length_insert. Qed.

Lemma take_at_inr a idxs r w w' :
  take_at a idxs w = (inr r, w') ->
  w' = w /\ length r = length idxs /\ Forall (valid_index (length a)) idxs.
Proof.
  revert r. induction idxs as [|i idxs IH]; intros r; simpl.
  - by intros [= <- <-].
  - intros (x & w1 & Hx & Hrest)%bind_inr.
    apply getitem_inr in Hx as [Hx ->].
    apply bind_inr in Hrest as (xs & w2 & Hxs & [= <- <-]).
    apply IH in Hxs as (-> & Hlen & Hall).
    split_and!; [done|simpl; by f_equal|].
    constructor; [|done]. apply py_index_valid. by rewrite Hx.
Qed.

Lemma put_at_inr idxs : forall a vals r w w',
  put_at a idxs vals w = (inr r, w') -> w' = w /\ length r = length a.
Proof.
  induction idxs as [|i idxs IH]; intros a [|v vals] r w w'; simpl;
    try (by intros [= <- <-]); try done.
  intros (a' & w1 & (-> & _ & Hlen & _)%setitem_inr & Hrest)%bind_inr.
  apply IH in Hrest as [-> Hr]. split; [done|congruence].
Qed.

Lemma put_at_ok idxs : forall a vals w,
  Forall (valid_index (length a)) idxs -> length vals = length idxs ->
  exists r, put_at a idxs vals w = (inr r, w).
Proof.
  induction idxs as [|i idxs IH]; intros a [|v vals] w Hall Hlen;
    simpl in *; try done.
  - by eexists.
  - apply Forall_cons in Hall as [Hi Hall].
    rewrite (bind_ok _ _ _ _ _ (setitem_ok a i v w Hi)).
    apply IH; [by rewrite length_update_at|lia].
Qed.

End Arrays.

Lemma np_zip_with_inr f a : forall b r w w',
  np_zip_with f a b w = (inr r, w') ->
  w' = w /\ length a = length b /\ length r = length a.
Proof.
  induction a as [|x a IH]; intros [|y b] r w w'; simpl;
    try (by intros [= <- <-]); try done.
  intros (r' & w1 & (-> & Hab & Hr)%IH & [= <- <-])%bind_inr.
  simpl. split_and!; [done|lia..].
Qed.

Lemma np_zip_with_ok f a : forall b w,
  length a = length b -> exists r, np_zip_with f a b w = (inr r, w).
Proof.
  induction a as [|x a IH]; intros [|y b] w Hlen; simpl in *; try done.
  - by eexists.
  - destruct (IH b w) as [r Hr]; [lia|].
    rewrite (bind_ok _ _ _ _ _ Hr). by eexists.
Qed.

(** What every call of the objective preserves of the locals holds of them
    when the solver returns. *)
Lemma run_from_invariant {Q A R L} (P : L -> Prop) (s : solver Q A R)
    (f : Q -> L -> M (A * L)) fuel :
  (forall q l w a l' w', P l -> f q l w = (inr (a, l'), w') -> P l') ->
  forall hist l w r l' w',
    P l -> run_from fuel s f hist l w = (inr (r, l'), w') -> P l'.
Proof.
  intros Hf. induction fuel as [|fuel IH]; intros hist l w r l' w' Hl; simpl.
  - destruct (solver_last s hist); [done|]. by intros [= _ <- _].
  - destruct (solver_next s hist) as [q|r0|e]; [|by intros [= _ <- _]|done].
    intros ([a l1] & w1 & Hq & Hrest)%bind_inr.
    eapply IH; [|exact Hrest]. by eapply Hf.
Qed.

(** ** The continuous optimizer *)

Section GradientAscent.

Context `{Externals}.

Lemma minimize_negative_acqf_inr p x idxs ls tol res scratch w w' :
  minimize_negative_acqf p x idxs ls tol w = (inr (res, scratch), w') ->
  length scratch = length x /\ length ls = length idxs /\
  Forall (valid_index (length x)) idxs.
Proof.
  unfold minimize_negative_acqf.
  intros (xc & w1 & (-> & Hxc & Hall)%take_at_inr & Hrest)%bind_inr.
  apply bind_inr in Hrest as (x0 & w2 & (-> & Hlen & _)%np_zip_with_inr & Hrest).
  apply bind_inr in Hrest as (pgtol & w3 & _ & Hrun).
  split_and!; [|congruence|done].
  eapply (run_from_invariant (fun l => length l = length x)); [|done|exact Hrun].
  intros q l w4 a l' w5 Hl. unfold negative_acqf_with_grad.
  intros (v & w6 & _ & Hr)%bind_inr.
  apply bind_inr in Hr as (l1 & w7 & (_ & Hl1)%put_at_inr & Hr).
  apply bind_inr in Hr as ([fv gr] & w8 & _ & Hr).
  apply bind_inr in Hr as (g & w9 & _ & Hr).
  apply bind_inr in Hr as (g' & w10 & _ & [= _ <- _]). congruence.
Qed.

(** C6. The continuous optimizer decides as follows.
    - Without continuous indices it returns the input with the flag unset,
      and calls nothing.
    - A set flag means that the solver returned a value whose negation is
      strictly above the input value after at least one iteration; the value
      reported is that negation and the vector is the solver's point scaled
      back and written into the copy.
    - An unset flag comes with the input vector and the input value.
    - Conversely, once the solver has returned, the test of line 70 alone
      decides: when it fails the input is returned unchanged with the flag
      unset, and when it holds (for a point of the right shape) the flag is
      set. *)
Theorem gradient_ascent_accepts (acqf_params : AcquisitionFunctionParams)
    (initial_params : list float) (initial_fval : float)
    (continuous_indices : list Z) (lengthscale : list float) (tol : float)
    (w : world) :
  let run :=
    _gradient_ascent acqf_params initial_params initial_fval
      continuous_indices lengthscale tol in
  let solve :=
    minimize_negative_acqf acqf_params initial_params continuous_indices
      lengthscale tol in
  (length continuous_indices = 0%nat ->
   run w = (inr (initial_params, initial_fval, false), w))
  /\
  (forall x f updated w',
     run w = (inr (x, f, updated), w') ->
     if updated then
       exists z neg_fval_opt nit scratch v,
         solve w = (inr ((z, neg_fval_opt, nit), scratch), w') /\
         (- neg_fval_opt >? initial_fval) = true /\ (0 < nit)%Z /\
         f = - neg_fval_opt /\
         np_zip_with mul z lengthscale w' = (inr v, w') /\
         put_at scratch continuous_indices v w' = (inr x, w')
     else x = initial_params /\ f = initial_fval)
  /\
  (forall z neg_fval_opt nit scratch w',
     length continuous_indices <> 0%nat ->
     solve w = (inr ((z, neg_fval_opt, nit), scratch), w') ->
     if (- neg_fval_opt >? initial_fval) && bool_decide (0 < nit)%Z then
       length z = length lengthscale ->
       exists x, run w = (inr (x, - neg_fval_opt, true), w')
     else run w = (inr (initial_params, initial_fval, false), w')).
Proof.
  intros run solve. subst run solve. unfold _gradient_ascent. split_and!.
  - intros Hlen. by rewrite bool_decide_eq_true_2.
  - intros x f updated w'. case_bool_decide as Hlen.
    { by intros [= <- <- <- <-]. }
    intros ([[[z nf] nit] scratch] & w1 & Hsolve & Hrest)%bind_inr.
    destruct (_ && _) eqn:Hcond.
    + apply andb_true_iff in Hcond as [Hgt Hnit].
      apply bool_decide_eq_true in Hnit.
      apply bind_inr in Hrest as (v & w2 & Hv & Hrest).
      pose proof Hv as (-> & _)%np_zip_with_inr.
      apply bind_inr in Hrest as (x' & w3 & Hput & [= <- <- <- <-]).
      pose proof Hput as (-> & _)%put_at_inr.
      by exists z, nf, nit, scratch, v.
    + by injection Hrest as <- <- <- <-.
  - intros z nf nit scratch w' Hlen Hsolve.
    rewrite (bool_decide_eq_false_2 (length continuous_indices = 0%nat)) by done.
    rewrite (bind_ok _ _ _ _ _ Hsolve).
    destruct (_ && _) eqn:Hcond; [|done].
    intros Hz.
    apply minimize_negative_acqf_inr in Hsolve as (Hscratch & Hls & Hall).
    destruct (np_zip_with_ok mul z lengthscale w' Hz) as [v Hv].
    rewrite (bind_ok _ _ _ _ _ Hv).
    apply np_zip_with_inr in Hv as (_ & _ & Hvlen).
    destruct (put_at_ok continuous_indices scratch v w') as [x Hx];
      [by rewrite Hscratch|congruence|].
    rewrite (bind_ok _ _ _ _ _ Hx). by exists x.
Qed.

End GradientAscent.

(** ** The weights of the multi-start driver *)

Section Softmax.

Context `{Externals}.

Lemma of_Z_succ (k : Z) : of_Z k + one = of_Z (k + 1).
Proof.
  unfold of_Z, one. simpl. f_equal. by rewrite Z2Qc_inj_add.
Qed.

Lemma sub_diag (q : Qc) : Fin q - Fin q = zero.
Proof.
  unfold sub, zero, of_Z. simpl. f_equal. by rewrite Qcplus_opp_r, Z2Qc_inj_0.
Qed.

Lemma np_argmax_all_equal (v : Qc) (n : nat) (w : world) :
  np_argmax (replicate (S n) (Fin v)) w = (inr 0%Z, w).
Proof.
  simpl. unfold ret. do 2 f_equal.
  generalize 1%Z. induction n as [|n IH]; intros i; simpl; [done|].
  rewrite bool_decide_eq_true_2 by apply Qcle_refl. simpl. apply IH.
Qed.

Lemma foldl_add_ones (k : Z) (m : nat) :
  foldl add (of_Z k) (replicate m one) = of_Z (k + Z.of_nat m).
Proof.
  revert k. induction m as [|m IH]; intros k; cbn [replicate foldl].
  - f_equal. lia.
  - rewrite of_Z_succ, IH. f_equal. lia.
Qed.

Lemma foldl_add_const (a c : Qc) (m : nat) :
  foldl add (Fin a) (replicate m (Fin c)) = Fin (a + Qc_of_Z (Z.of_nat m) * c)%Qc.
Proof.
  revert a. induction m as [|m IH]; intros a.
  - change (Z.of_nat 0) with 0%Z. cbn [replicate foldl]. f_equal.
    rewrite Z2Qc_inj_0. ring.
  - rewrite Nat2Z.inj_succ. cbn [replicate foldl add]. rewrite IH. f_equal.
    unfold Z.succ. rewrite Z2Qc_inj_add, Z2Qc_inj_1. ring.
Qed.

Lemma Qc_of_Z_pos_ne_0 (m : nat) : Qc_of_Z (Z.of_nat (S m)) <> Q2Qc 0.
Proof.
  rewrite <- Z2Qc_inj_0. intros Heq%Z2Qc_inj. lia.
Qed.

Lemma Qc_of_Z_pos (m : nat) : (Q2Qc 0 < Qc_of_Z (Z.of_nat (S m)))%Qc.
Proof. rewrite <- Z2Qc_inj_0. apply (proj1 (Z2Qc_inj_lt _ _)). lia. Qed.

(** The quotient of one by a positive count. *)
Lemma one_div_count (m : nat) :
  one / of_Z (Z.of_nat (S m)) = Fin (1 / Qc_of_Z (Z.of_nat (S m)))%Qc.
Proof.
  unfold one, of_Z. cbn [div].
  rewrite bool_decide_eq_false_2 by apply Qc_of_Z_pos_ne_0.
  by rewrite Z2Qc_inj_1.
Qed.

Lemma zero_div_count (m : nat) : zero / of_Z (Z.of_nat (S m)) = zero.
Proof.
  unfold zero, of_Z. cbn [div].
  rewrite bool_decide_eq_false_2 by apply Qc_of_Z_pos_ne_0.
  f_equal. rewrite Z2Qc_inj_0. unfold Qcdiv. ring.
Qed.

Lemma share_pos (m : nat) : (Q2Qc 0 < 1 / Qc_of_Z (Z.of_nat (S m)))%Qc.
Proof.
  unfold Qcdiv. rewrite Qcmult_1_l. apply Qcinv_pos, Qc_of_Z_pos.
Qed.

Lemma py_index_0 {A} (x : A) (l : list A) : py_index (x :: l) 0 = Some x.
Proof.
  unfold py_index. by rewrite bool_decide_eq_true_2 by (cbn [length]; lia).
Qed.

Lemma map_replicate {A B} (f : A -> B) (n : nat) (x : A) :
  map f (replicate n x) = replicate n (f x).
Proof. induction n as [|n IH]; [done|]. cbn [replicate map]. by f_equal. Qed.

Lemma zero_add (x : float) : zero + x = x.
Proof.
  destruct x; try done. unfold zero, of_Z. cbn [add]. f_equal.
  rewrite Z2Qc_inj_0. apply Qcplus_0_l.
Qed.

Lemma np_sum_cons_zero (l : list float) : np_sum (zero :: l) = foldl add zero l.
Proof. unfold np_sum. cbn [foldl]. by rewrite zero_add. Qed.

(** [rng.choice] accepts a weight zero followed by equal positive weights
    whose sum is within its tolerance of one. *)
Lemma rng_choice_equal_weights (s : Qc) (n : nat) (size : Z) (w : world) :
  (0 < s)%Qc ->
  let probs := zero :: replicate (S n) (Fin s) in
  (abs (np_sum probs - one) <=? choice_atol) = true ->
  (0 <= size <= Z.of_nat (S n))%Z ->
  (rng_choice (Z.of_nat (S (S n))) size probs w).1
  = inr (choice_draw (Z.of_nat (S (S n))) size probs (rng w)).1.
Proof.
  intros Hs probs Htol Hsize. unfold rng_choice.
  rewrite (bool_decide_eq_false_2 (_ <= 0)%Z) by lia. cbn [andb].
  assert (length probs = S (S n)) as Hlen
    by (subst probs; cbn [length]; by rewrite length_replicate).
  rewrite Hlen, (bool_decide_eq_true_2 (_ = _)) by done. cbn [negb].
  assert (exists t, np_sum probs = Fin t) as [t Hsum].
  { subst probs. rewrite np_sum_cons_zero. unfold zero, of_Z.
    rewrite foldl_add_const. by eexists. }
  rewrite Hsum in Htol |- *. cbn [is_nan].
  replace (existsb _ probs) with false.
  2:{ symmetry. apply not_true_is_false. intros (p & Hin & Hneg)%existsb_exists.
      subst probs. destruct Hin as [<-|Hin]; [done|].
      apply list_elem_of_In, elem_of_replicate in Hin as [-> _].
      unfold zero, of_Z in Hneg. cbn [ltb] in Hneg.
      apply bool_decide_eq_true in Hneg. rewrite Z2Qc_inj_0 in Hneg.
      exact (Qclt_not_le _ _ Hneg (Qclt_le_weak _ _ Hs)). }
  unfold gtb at 1. rewrite (leb_ltb_false _ _ Htol).
  rewrite (bool_decide_eq_false_2 (_ < size)%Z) by lia.
  rewrite (bool_decide_eq_false_2 (size < 0)%Z) by lia.
  replace (length (List.filter _ probs)) with (S n).
  2:{ subst probs. cbn [List.filter].
      replace (zero >? zero) with false by done.
      clear -Hs. induction (S n) as [|m IH]; [done|].
      cbn [replicate List.filter]. unfold gtb at 1, zero at 1, of_Z. cbn [ltb].
      rewrite bool_decide_eq_true_2 by (by rewrite Z2Qc_inj_0).
      cbn [length]. by f_equal. }
  rewrite bool_decide_eq_false_2 by lia.
  by destruct (choice_draw _ _ _ _).
Qed.

(** C9 as amended. For a pool of two or more points that all have the same
    finite value: [np.argmax] picks the first point; the weights are
    computed without an exception; that of the maximizer is exactly zero and
    the others are equal.  In the exact arithmetic of this embedding every
    other point gets one over the number of the other points and the
    weights add up to one, and [rng.choice] accepts them for any sample of
    at most that many points.  The acceptance does not hang on the exact
    quotient: [rng.choice] accepts a zero followed by that many equal
    positive weights whenever their sum is within its tolerance [2^-26] of
    one. *)
Theorem softmax_probs_all_equal (v : Qc) (n : nat) (w : world) :
  exp zero = one ->
  let f_vals := replicate (S (S n)) (Fin v) in
  let share := one / of_Z (Z.of_nat (S n)) in
  let probs := zero :: replicate (S n) share in
  np_argmax f_vals w = (inr 0%Z, w) /\
  softmax_probs f_vals 0 w = (inr probs, w) /\
  np_sum probs = one /\
  Forall (fun p => (zero <=? p) = true) probs /\
  (forall size : Z,
     (0 <= size <= Z.of_nat (S n))%Z ->
     (rng_choice (Z.of_nat (S (S n))) size probs w).1
     = inr (choice_draw (Z.of_nat (S (S n))) size probs (rng w)).1) /\
  forall (s : Qc) (size : Z),
    (0 < s)%Qc ->
    let probs' := zero :: replicate (S n) (Fin s) in
    (abs (np_sum probs' - one) <=? choice_atol) = true ->
    (0 <= size <= Z.of_nat (S n))%Z ->
    (rng_choice (Z.of_nat (S (S n))) size probs' w).1
    = inr (choice_draw (Z.of_nat (S (S n))) size probs' (rng w)).1.
Proof.
  intros Hexp f_vals share probs.
  assert (share = Fin (1 / Qc_of_Z (Z.of_nat (S n)))%Qc) as Hshare
    by apply one_div_count.
  assert (np_sum probs = one) as Hsum.
  { subst probs. rewrite Hshare, np_sum_cons_zero.
    unfold zero, of_Z. rewrite foldl_add_const. unfold one, of_Z. f_equal.
    rewrite Z2Qc_inj_0, Z2Qc_inj_1. field. apply Qc_of_Z_pos_ne_0. }
  assert (Forall (fun p => (zero <=? p) = true) probs) as Hpos.
  { subst probs. rewrite Hshare. constructor; [done|]. apply Forall_replicate.
    unfold zero, of_Z. cbn [leb]. apply bool_decide_eq_true.
    rewrite Z2Qc_inj_0. apply Qclt_le_weak, share_pos. }
  split_and!; [apply np_argmax_all_equal| |done|done| |].
  - subst f_vals probs. unfold softmax_probs.
    change (replicate (S (S n)) (Fin v)) with (Fin v :: replicate (S n) (Fin v)).
    rewrite (bind_ok _ _ _ _ _ (getitem_ok _ 0%Z (Fin v) w (py_index_0 _ _))).
    cbn [map]. rewrite map_replicate, sub_diag, Hexp.
    unfold setitem. rewrite bool_decide_eq_true_2 by (cbn [length]; lia).
    change (Z.to_nat 0) with 0%nat. unfold bind, ret.
    cbn [insert list_insert].
    do 2 f_equal. rewrite np_sum_cons_zero.
    unfold zero at 1. rewrite foldl_add_ones.
    cbn [map]. by rewrite Z.add_0_l, zero_div_count, map_replicate.
  - intros size Hsize. subst probs. rewrite Hshare in Hsum |- *.
    apply rng_choice_equal_weights; [apply share_pos| |done].
    by rewrite Hsum.
  - intros s size Hs probs' Htol Hsize. by apply rng_choice_equal_weights.
Qed.

End Softmax.

(** ** [np.argmax] *)

Section Argmax.

(** The scan keeps the index of a value that bounds everything seen, unless
    it meets a NaN. *)
Lemma argmax_scan_max (a : list float) :
  forall (pre : list float) (mp : float) (mi : nat),
    (pre ++ a) !! mi = Some mp ->
    is_nan mp = false ->
    Forall (fun v => (v <=? mp) = true) pre ->
    exists (j : nat) (m : float),
      argmax_scan a (Z.of_nat (length pre)) mp (Z.of_nat mi) = Z.of_nat j /\
      (pre ++ a) !! j = Some m /\
      (is_nan m = false -> Forall (fun v => (v <=? m) = true) (pre ++ a)).
Proof.
  induction a as [|x a IH]; intros pre mp mi Hmi Hmp Hpre; cbn [argmax_scan].
  - exists mi, mp. rewrite app_nil_r in *. done.
  - assert (Z.of_nat (length pre) + 1 = Z.of_nat (length (pre ++ [x])))%Z as ->
      by (rewrite length_app; simpl; lia).
    replace (pre ++ x :: a) with ((pre ++ [x]) ++ a) in * by by rewrite <- app_assoc.
    destruct (x <=? mp) eqn:Hle; cbn [negb].
    + apply IH; [done..|]. apply Forall_app. split; [done|]. by constructor.
    + destruct (is_nan x) eqn:Hx.
      * exists (length pre), x. split_and!; [done| |congruence].
        rewrite <- app_assoc. by apply list_lookup_middle.
      * pose proof (leb_total _ _ Hx Hmp Hle) as Hlt%ltb_leb.
        replace (Z.of_nat (length pre)) with (Z.of_nat (length pre)) by done.
        apply IH; [|done|].
        -- rewrite <- app_assoc. by apply list_lookup_middle.
        -- apply Forall_app. split.
           ++ eapply Forall_impl; [exact Hpre|]. intros v Hv. simpl in Hv.
              by eapply leb_trans.
           ++ constructor; [by apply leb_refl|done].
Qed.

(** [np.argmax] returns an index of the array; unless the value there is NaN,
    no value of the array is above it. *)
Lemma np_argmax_inr (a : list float) (i : Z) (w w' : world) :
  np_argmax a w = (inr i, w') ->
  w' = w /\
  exists m, py_index a i = Some m /\
    (is_nan m = false -> Forall (fun v => (v <=? m) = true) a).
Proof.
  destruct a as [|x a]; [done|]. cbn [np_argmax]. intros [= <- <-].
  split; [done|]. destruct (is_nan x) eqn:Hx.
  - exists x. split; [apply py_index_0|congruence].
  - destruct (argmax_scan_max a [x] x 0) as (j & m & Hj & Hm & Hmax);
      [done|done|by constructor; [apply leb_refl|]|].
    change (Z.of_nat (length [x])) with 1%Z in Hj.
    change (Z.of_nat 0) with 0%Z in Hj. rewrite Hj.
    exists m. by rewrite py_index_nonneg.
Qed.

End Argmax.

(** ** No optimizer regresses *)

Lemma improves_leb (v f f' : float) :
  (v <=? f) = true -> improves f f' -> (v <=? f') = true.
Proof.
  intros Hv [->|Hlt]; [done|]. eapply leb_trans; [exact Hv|by apply ltb_leb].
Qed.

(** Takes the binds of a successful run [H] apart, one at a time. *)
Ltac bind_inr_in H :=
  let a := fresh "a" in
  let w := fresh "w" in
  let Ha := fresh "Ha" in
  apply bind_inr in H as (a & w & Ha & H); cbv beta in H.

Section Monotone.

Context `{Externals}.

Lemma gradient_ascent_improves p x f idxs ls tol x' f' updated w w' :
  _gradient_ascent p x f idxs ls tol w = (inr (x', f', updated), w') ->
  improves f f'.
Proof.
  unfold _gradient_ascent. case_bool_decide.
  { intros [= _ <- _ _]. by left. }
  intros Hrun. bind_inr_in Hrun. destruct a as [[[z nf] nit] scratch].
  destruct (_ && _) eqn:Hcond.
  - apply andb_true_iff in Hcond as [Hgt _].
    do 2 bind_inr_in Hrun. injection Hrun as _ <- _ _. by right.
  - injection Hrun as _ <- _ _. by left.
Qed.

Lemma exhaustive_search_improves p x f i choices x' f' updated w w' :
  _exhaustive_search p x f i choices w = (inr (x', f', updated), w') ->
  improves f f'.
Proof.
  unfold _exhaustive_search. intros Hrun. do 4 bind_inr_in Hrun.
  destruct (_ >? _) eqn:Hgt.
  - bind_inr_in Hrun. injection Hrun as _ <- _ _. by right.
  - injection Hrun as _ <- _ _. by left.
Qed.

Lemma discrete_line_search_improves p x f i grids xtol x' f' updated w w' :
  _discrete_line_search p x f i grids xtol w = (inr (x', f', updated), w') ->
  improves f f'.
Proof.
  unfold _discrete_line_search. case_bool_decide.
  { intros [= _ <- _ _]. by left. }
  intros Hrun. do 7 bind_inr_in Hrun. destruct a5 as [res_x l].
  do 2 bind_inr_in Hrun. destruct a6 as [negval [cache np]].
  destruct (_ && _) eqn:Hcond.
  - apply andb_true_iff in Hcond as [_ Hgt].
    do 2 bind_inr_in Hrun. injection Hrun as _ <- _ _. by right.
  - injection Hrun as _ <- _ _. by left.
Qed.

Lemma local_search_discrete_improves p x f i choices xtol x' f' updated w w' :
  _local_search_discrete p x f i choices xtol w = (inr (x', f', updated), w') ->
  improves f f'.
Proof.
  unfold _local_search_discrete. intros Hrun. bind_inr_in Hrun.
  destruct (_ || _).
  - by eapply exhaustive_search_improves.
  - by eapply discrete_line_search_improves.
Qed.

Lemma sweep_discrete_monotone p (v : float) groups :
  forall x f last r w w',
    (v <=? f) = true ->
    sweep_discrete p groups (x, f, last) w = (inr r, w') ->
    match r with
    | inl (_, f') => (v <=? f') = true
    | inr (_, f', _) => (v <=? f') = true
    end.
Proof.
  induction groups as [|[[i choices] xtol] groups IH];
    intros x f last r w w' Hv; cbn [sweep_discrete].
  - by intros [= <- _].
  - case_bool_decide; [by intros [= <- _]|].
    intros Hrun. bind_inr_in Hrun. destruct a as [[x1 f1] updated].
    eapply IH; [|exact Hrun].
    eapply improves_leb; [exact Hv|]. by eapply local_search_discrete_improves.
Qed.

Lemma sweeps_monotone p (v : float) idxs ls tol groups iters :
  forall x f last x' f' w w',
    (v <=? f) = true ->
    sweeps p idxs ls tol groups iters (x, f, last) w = (inr (x', f'), w') ->
    (v <=? f') = true.
Proof.
  induction iters as [|iters IH]; intros x f last x' f' w w' Hv; cbn [sweeps].
  - intros Hrun. bind_inr_in Hrun. by injection Hrun as _ <- _.
  - case_bool_decide; [by intros [= _ <- _]|].
    intros Hrun.
    apply bind_inr in Hrun as ([[x1 f1] updated] & w1 & Hga & Hrun).
    apply bind_inr in Hrun as (r & w2 & Hsweep & Hrun).
    assert ((v <=? f1) = true) as Hv1.
    { eapply improves_leb; [exact Hv|]. by eapply gradient_ascent_improves. }
    pose proof (sweep_discrete_monotone _ _ _ _ _ _ _ _ _ Hv1 Hsweep) as Hr.
    destruct r as [[x2 f2]|[[x2 f2] [last2|]]].
    + by injection Hrun as _ <- _.
    + by eapply IH.
    + by injection Hrun as _ <- _.
Qed.

(** X1. A set flag stands for a strict increase: when the continuous
    optimizer or the discrete coordinate optimizer reports an improvement, the
    value it returns is strictly above the value it was given. *)
Lemma improved_flag_strict p x f idxs ls tol i choices xtol x' f' w w' :
  _gradient_ascent p x f idxs ls tol w = (inr (x', f', true), w') \/
  _local_search_discrete p x f i choices xtol w = (inr (x', f', true), w') ->
  (f <? f') = true.
Proof.
  intros [Hrun|Hrun].
  - unfold _gradient_ascent in Hrun. case_bool_decide; [done|].
    apply bind_inr in Hrun as ([[[z nf] nit] scratch] & w1 & _ & Hrun).
    destruct (_ && _) eqn:Hcond; [|done].
    apply andb_true_iff in Hcond as [Hgt _].
    do 2 bind_inr_in Hrun. by injection Hrun as _ <- _.
  - unfold _local_search_discrete in Hrun. bind_inr_in Hrun.
    destruct (_ || _).
    + unfold _exhaustive_search in Hrun. do 4 bind_inr_in Hrun.
      destruct (_ >? _) eqn:Hgt; [|done].
      bind_inr_in Hrun. by injection Hrun as _ <- _.
    + unfold _discrete_line_search in Hrun. case_bool_decide; [done|].
      do 7 bind_inr_in Hrun.
      match type of Hrun with context [let '(_, _) := ?r in _] =>
        destruct r as [res_x l] end.
      do 2 bind_inr_in Hrun.
      match type of Hrun with context [let '(_, _) := ?r in _] =>
        destruct r as [negval [cache np]] end.
      destruct (_ && _) eqn:Hcond; [|done].
      apply andb_true_iff in Hcond as [_ Hgt].
      do 2 bind_inr_in Hrun. by injection Hrun as _ <- _.
Qed.

(** C2. Whatever [local_search_mixed] returns, with or without the warning
    of the iteration cap, has a value at least that of the start vector,
    provided the latter is a number. *)
Theorem local_search_mixed_monotone (acqf_params : AcquisitionFunctionParams)
    (initial_normalized_params : list float) (tol : float) (max_iter : Z)
    (w : world) (x : list float) (f : float) (w' : world) :
  is_nan (acqf acqf_params initial_normalized_params) = false ->
  local_search_mixed acqf_params initial_normalized_params tol max_iter w
  = (inr (x, f), w') ->
  (acqf acqf_params initial_normalized_params <=? f) = true.
Proof.
  intros Hnum. unfold local_search_mixed. intros Hrun.
  apply bind_inr in Hrun as ([[idxs ls] groups] & w1 & _ & Hrun).
  apply bind_inr in Hrun as (f0 & w2 & Heval & Hrun).
  unfold eval_acqf_no_grad1 in Heval.
  apply bind_inr in Heval as (? & ? & _ & [= <- <-]).
  eapply sweeps_monotone; [|exact Hrun]. by apply leb_refl.
Qed.

End Monotone.

(** ** The multi-start driver and its pool *)

Section Dominance.

Context `{Externals}.

Lemma search_from_monotone p tol (v : float) starts :
  forall x f x' f' w w',
    (v <=? f) = true ->
    search_from p tol starts x f w = (inr (x', f'), w') ->
    (v <=? f') = true.
Proof.
  induction starts as [|s starts IH]; intros x f x' f' w w' Hv;
    cbn [search_from].
  - by intros [= _ <- _].
  - intros Hrun. apply bind_inr in Hrun as ([x1 f1] & w1 & _ & Hrun).
    destruct (f1 >? f) eqn:Hgt.
    + eapply IH; [|exact Hrun]. eapply leb_trans; [exact Hv|by apply ltb_leb].
    + by eapply IH.
Qed.

Lemma py_index_elem_of {A} (a : list A) (i : Z) (x : A) :
  py_index a i = Some x -> x ∈ a.
Proof.
  unfold py_index. repeat case_bool_decide; try done;
    intros Hx; by eapply list_elem_of_lookup_2.
Qed.

(** C1. The value [optimize_acqf_mixed] returns is at least the value of
    every point of the pool it sampled, the values of the pool being
    numbers. *)
Theorem optimize_acqf_mixed_dominates_pool
    (acqf_params : AcquisitionFunctionParams)
    (given_initial_xs : option (list (list float)))
    (n_additional_samples n_local_search : Z) (tol : float)
    (w : world) (x : list float) (f : float) (w' : world) :
  let pool :=
    (sample_normalized_params n_additional_samples
       (search_space acqf_params) (rng w)).1 in
  Forall (fun p => is_nan (acqf acqf_params p) = false) pool ->
  optimize_acqf_mixed acqf_params given_initial_xs n_additional_samples
    n_local_search tol w = (inr (x, f), w') ->
  Forall (fun p => (acqf acqf_params p <=? f) = true) pool.
Proof.
  intros pool Hnum. unfold optimize_acqf_mixed. intros Hrun.
  apply bind_inr in Hrun as ([] & w1 & Hassert & Hrun).
  assert (w1 = w) as ->.
  { unfold assert in Hassert. destruct (bool_decide _); [|done].
    by injection Hassert. }
  apply bind_inr in Hrun as (sampled_xs & w2 & Hsample & Hrun).
  assert (sampled_xs = pool) as ->.
  { subst pool. destruct (sample_normalized_params _ _ _).
    by injection Hsample. }
  apply bind_inr in Hrun as (f_vals & w3 & Heval & Hrun).
  assert (f_vals = map (acqf acqf_params) pool) as ->.
  { unfold eval_acqf_no_grad in Heval.
    apply bind_inr in Heval as (? & ? & _ & Heval). by injection Heval. }
  apply bind_inr in Hrun as (max_i & w4 & Hmax & Hrun).
  apply np_argmax_inr in Hmax as (-> & m & Hm & Hbound).
  apply bind_inr in Hrun as (probs & w5 & _ & Hrun).
  apply bind_inr in Hrun as (idxs & w6 & _ & Hrun).
  apply bind_inr in Hrun as (best_x & w7 & _ & Hrun).
  apply bind_inr in Hrun as (best_f & w8 & Hbest & Hrun).
  apply getitem_inr in Hbest as [Hbest ->].
  assert (best_f = m) as -> by congruence.
  apply bind_inr in Hrun as (rest & w9 & _ & Hrun).
  assert (is_nan m = false) as Hm_num.
  { apply py_index_elem_of, list_elem_of_In, in_map_iff in Hm as (p & <- & Hp).
    rewrite Forall_forall in Hnum. apply Hnum. by apply list_elem_of_In. }
  specialize (Hbound Hm_num).
  assert ((m <=? f) = true) as Hmf.
  { eapply search_from_monotone; [|exact Hrun]. by apply leb_refl. }
  rewrite Forall_forall in Hbound. apply Forall_forall. intros p Hp.
  eapply leb_trans; [|exact Hmf]. apply Hbound.
  apply list_elem_of_In, in_map, list_elem_of_In, Hp.
Qed.

End Dominance.

(** ** The driver follows the specification *)

Section Refinement.

Import DriverSpec.

Context `{Externals}.
Variable acqf_params : AcquisitionFunctionParams.
Variable continuous_indices : list Z.
Variable lengthscale : list float.
Variable tol : float.
Variable discrete : list (Z * list float * float).
Variable max_iter : nat.

#[local] Abbreviation step := (step acqf_params continuous_indices lengthscale tol discrete max_iter).
#[local] Abbreviation msg := "local_search_mixed: Local search did not converge.".

Lemma code_of_discrete last i :
  well_formed last -> (0 <= i)%Z -> code_of last = Some i <-> last = ByDiscrete i.
Proof.
  destruct last as [| |j]; simpl; unfold CONTINUOUS; intros Hwf Hi;
    split; intros Heq; try done; simplify_eq; try done; lia.
Qed.

Lemma code_of_continuous last :
  well_formed last -> code_of last = Some CONTINUOUS <-> last = ByContinuous.
Proof.
  destruct last as [| |j]; simpl; unfold CONTINUOUS; intros Hwf;
    split; intros Heq; try done; simplify_eq; lia.
Qed.

(** The loop over the discrete indices against the machine. *)
Lemma sweep_discrete_steps (k : nat) (todo : list (Z * list float * float)) :
  forall x f last w,
    Forall (fun g => (0 <= g.1.1)%Z) todo ->
    well_formed last ->
    let start := Sweeping k (map as_group todo) (x, f) last w in
    match sweep_discrete acqf_params todo (x, f, code_of last) w with
    | (inl e, w') =>
        rtc step start (Halted k (Raised e) (inl e) w') /\
        warnings w' = warnings w
    | (inr (inl best), w') =>
        rtc step start (Halted k Converged (inr best) w') /\
        warnings w' = warnings w
    | (inr (inr (x', f', l')), w') =>
        exists last',
          l' = code_of last' /\ well_formed last' /\
          (last <> NoneYet -> last' <> NoneYet) /\
          rtc step start (Sweeping k [] (x', f') last' w') /\
          warnings w' = warnings w
    end.
Proof.
  induction todo as [|[[i choices] xtol] todo IH]; intros x f last w Hpos Hwf;
    cbn [sweep_discrete map as_group].
  - unfold ret. exists last. by split_and!.
  - apply Forall_cons in Hpos as [Hi Hpos]. simpl in Hi.
    case_bool_decide as Hlast.
    + apply code_of_discrete in Hlast; [|done..]. unfold ret. split; [|done].
      apply rtc_once. by apply step_converged.
    + rewrite code_of_discrete in Hlast by done.
      pose proof (keeps_local_search_discrete same_warnings log_eval_same_warnings
                    acqf_params x f i choices xtol w) as Hwarn.
      unfold bind.
      destruct (_local_search_discrete acqf_params x f i choices xtol w)
        as [[e|[[x1 f1] updated]] w1] eqn:Hopt; simpl in Hwarn.
      * split; [|done]. apply rtc_once. by apply step_raised.
      * set (last1 := if updated then ByDiscrete i else last).
        assert ((if updated then Some i else code_of last) = code_of last1) as ->
          by (subst last1; by destruct updated).
        assert (well_formed last1) as Hwf1 by (subst last1; by destruct updated).
        assert (rtc step (Sweeping k (DiscreteIndex i choices xtol :: map as_group todo)
                            (x, f) last w)
                  (Sweeping k (map as_group todo) (x1, f1) last1 w1)) as Hstep.
        { apply rtc_once. subst last1. destruct updated.
          - by apply (step_improved _ _ _ _ _ _ _ (DiscreteIndex i choices xtol)).
          - by apply (step_unchanged _ _ _ _ _ _ _ (DiscreteIndex i choices xtol)). }
        specialize (IH x1 f1 last1 w1 Hpos Hwf1). simpl in IH.
        destruct (sweep_discrete acqf_params todo (x1, f1, code_of last1) w1)
          as [[e|[best|[[x2 f2] l2]]] w2].
        -- destruct IH as [IH1 IH2]. split; [by etrans|congruence].
        -- destruct IH as [IH1 IH2]. split; [by etrans|congruence].
        -- destruct IH as (last2 & -> & Hwf2 & Hne & IH1 & IH2).
           exists last2. split_and!; [done|done| |by etrans|congruence].
           intros Hl. apply Hne. subst last1. by destruct updated.
Qed.


(** The machine has one run: a configuration has at most one successor. *)
Lemma step_deterministic c c1 c2 : step c c1 -> step c c2 -> c1 = c2.
Proof.
  intros H1 H2.
  destruct H1; inversion H2; subst; try done; try lia; congruence.
Qed.

(** The loop over the sweeps against the machine. *)
Lemma sweeps_steps (iters : nat) :
  forall k x f last w,
    (k + iters = max_iter)%nat ->
    Forall (fun g => (0 <= g.1.1)%Z) discrete ->
    well_formed last ->
    (k = 0%nat \/ last <> NoneYet) ->
    let '(r, w') :=
      sweeps acqf_params continuous_indices lengthscale tol discrete iters
        (x, f, code_of last) w in
    exists k' why,
      rtc step (Starting k (x, f) last w) (Halted k' why r w') /\
      (k' <= max_iter)%nat /\
      match why with
      | Converged => (k' < max_iter)%nat /\ warnings w' = warnings w
      | NothingImproved => k' = 0%nat /\ warnings w' = warnings w
      | CapReached => k' = max_iter /\ warnings w' = warnings w ++ [msg]
      | Raised e => r = inl e /\ warnings w' = warnings w
      end.
Proof.
  induction iters as [|iters IH]; intros k x f last w Hk Hpos Hwf Hfirst;
    cbn [sweeps].
  - assert (k = max_iter) as -> by lia. unfold bind, warn, ret.
    exists max_iter, CapReached. split_and!; [|done..].
    apply rtc_once. apply step_cap.
  - assert (rtc step (Starting k (x, f) last w)
              (Sweeping k (ContinuousGroup :: map as_group discrete) (x, f) last w))
      as Hstart by (apply rtc_once, step_sweep; lia).
    case_bool_decide as Hlast.
    + apply code_of_continuous in Hlast; [|done]. unfold ret.
      exists k, Converged. split_and!; [|lia|lia|done].
      etrans; [exact Hstart|]. apply rtc_once. by apply step_converged.
    + rewrite code_of_continuous in Hlast by done.
      pose proof (keeps_gradient_ascent same_warnings log_eval_same_warnings
                    acqf_params x f continuous_indices lengthscale tol w) as Hwarn.
      unfold bind at 1.
      destruct (_gradient_ascent acqf_params x f continuous_indices lengthscale tol w)
        as [[e|[[x1 f1] updated]] w1] eqn:Hopt; simpl in Hwarn.
      * exists k, (Raised e). split_and!; [|lia|done..].
        etrans; [exact Hstart|]. apply rtc_once. by apply step_raised.
      * set (last1 := if updated then ByContinuous else last).
        assert ((if updated then Some CONTINUOUS else code_of last) = code_of last1)
          as -> by (subst last1; by destruct updated).
        assert (well_formed last1) as Hwf1 by (subst last1; by destruct updated).
        assert (rtc step (Starting k (x, f) last w)
                  (Sweeping k (map as_group discrete) (x1, f1) last1 w1)) as Hcont.
        { etrans; [exact Hstart|]. apply rtc_once. subst last1. destruct updated.
          - by apply (step_improved _ _ _ _ _ _ _ ContinuousGroup).
          - by apply (step_unchanged _ _ _ _ _ _ _ ContinuousGroup). }
        pose proof (sweep_discrete_steps k discrete x1 f1 last1 w1 Hpos Hwf1) as Hin.
        simpl in Hin. unfold bind.
        destruct (sweep_discrete acqf_params discrete (x1, f1, code_of last1) w1)
          as [[e|[best|[[x2 f2] l2]]] w2].
        -- destruct Hin as [Hin1 Hin2]. exists k, (Raised e).
           split_and!; [by etrans|lia|done|congruence].
        -- destruct Hin as [Hin1 Hin2]. exists k, Converged. unfold ret.
           split_and!; [by etrans|lia|lia|congruence].
        -- destruct Hin as (last2 & -> & Hwf2 & Hne & Hin1 & Hin2).
           destruct last2 as [| |j] eqn:Hlast2; cbn [code_of].
           ++ exists k, NothingImproved. unfold ret.
              split_and!; [|lia| |congruence].
              ** etrans; [exact Hcont|]. etrans; [exact Hin1|].
                 apply rtc_once, step_nothing_improved.
              ** destruct Hfirst as [->|Hfirst]; [done|].
                 exfalso. apply Hne; [|done]. subst last1.
                 by destruct updated.
           ++ specialize (IH (S k) x2 f2 ByContinuous w2).
              cbn [code_of] in IH.
              destruct (sweeps _ _ _ _ _ iters _ w2) as [r w3].
              destruct IH as (k' & why & Hrun & Hk' & Hwhy);
                [lia|done|done|by right|].
              exists k', why. split_and!; [|done|].
              ** etrans; [exact Hcont|]. etrans; [exact Hin1|].
                 etrans; [|exact Hrun]. by apply rtc_once, step_next.
              ** destruct why; destruct Hwhy as [? Hw]; split; try done;
                   congruence.
           ++ specialize (IH (S k) x2 f2 (ByDiscrete j) w2).
              cbn [code_of] in IH.
              destruct (sweeps _ _ _ _ _ iters _ w2) as [r w3].
              destruct IH as (k' & why & Hrun & Hk' & Hwhy);
                [lia|done|done|by right|].
              exists k', why. split_and!; [|done|].
              ** etrans; [exact Hcont|]. etrans; [exact Hin1|].
                 etrans; [|exact Hrun]. by apply rtc_once, step_next.
              ** destruct why; destruct Hwhy as [? Hw]; split; try done;
                   congruence.
Qed.

End Refinement.

Section FollowsSpec.

Import DriverSpec.

Context `{Externals}.

Lemma np_where_from_ge {A} (p : A -> bool) (a : list A) :
  forall i, Forall (fun j => (i <= j)%Z) (np_where_from p a i).
Proof.
  induction a as [|x a IH]; intros i; cbn [np_where_from]; [done|].
  assert (Forall (fun j => (i <= j)%Z) (np_where_from p a (i + 1))) as Hrest.
  { eapply Forall_impl; [apply IH|]. intros j Hj. simpl in Hj. lia. }
  destruct (p x); [constructor; [lia|done]|done].
Qed.

Lemma Forall_zip3_fst {A B C} (P : A -> Prop) (l1 : list A) :
  forall (l2 : list B) (l3 : list C),
    Forall P l1 -> Forall (fun g => P g.1.1) (zip (zip l1 l2) l3).
Proof.
  induction l1 as [|a l1 IH]; intros [|b l2] [|c l3] Hall; simpl; try done.
  apply Forall_cons in Hall as [Ha Hall]. constructor; [done|by apply IH].
Qed.

(** The groups of the classifier: the world is as before, and the discrete
    indices are not negative. *)
Lemma parameter_groups_inr p idxs ls discrete w w' :
  parameter_groups p w = (inr (idxs, ls, discrete), w') ->
  w' = w /\ Forall (fun g => (0 <= g.1.1)%Z) discrete.
Proof.
  intros Hrun. split.
  { pose proof (keeps_parameter_groups eq p w) as Hw. by rewrite Hrun in Hw. }
  unfold parameter_groups in Hrun.
  apply bind_inr in Hrun as (isl & w1 & _ & Hrun).
  apply bind_inr in Hrun as (choices & w2 & _ & [= _ _ <- _]).
  apply Forall_zip3_fst, np_where_from_ge.
Qed.

(** C7. [local_search_mixed] runs as the machine of section 4.4 does.  When
    the classifier raises, so does the driver.  Otherwise the machine, started
    on the start vector and its value with no group changed yet, reaches
    exactly one halted configuration, and the driver returns its result and
    its world.  The machine stops for one of four reasons: it is about to
    optimize the group that improved last (no warning, before the cap); the
    first sweep ended and nothing had improved (no warning); the cap on the
    sweeps is reached (the warning is logged, and the current best is still
    the result); or an optimizer raised. *)
Theorem local_search_mixed_follows_spec
    (acqf_params : AcquisitionFunctionParams)
    (initial_normalized_params : list float) (tol : float) (max_iter : Z)
    (w : world) :
  let '(r, w') :=
    local_search_mixed acqf_params initial_normalized_params tol max_iter w in
  match parameter_groups acqf_params w with
  | (inl e, _) => r = inl e /\ w' = w
  | (inr (continuous_indices, lengthscale, discrete), _) =>
      let step :=
        step acqf_params continuous_indices lengthscale tol discrete
          (Z.to_nat max_iter) in
      let start :=
        (initial_normalized_params, acqf acqf_params initial_normalized_params) in
      (forall c c1 c2, step c c1 -> step c c2 -> c1 = c2) /\
      exists k why,
        rtc step (Starting 0 start NoneYet (log_eval [initial_normalized_params] w).2)
          (Halted k why r w') /\
        (k <= Z.to_nat max_iter)%nat /\
        match why with
        | Converged => (k < Z.to_nat max_iter)%nat /\ warnings w' = warnings w
        | NothingImproved => k = 0%nat /\ warnings w' = warnings w
        | CapReached =>
            k = Z.to_nat max_iter /\
            warnings w' =
            warnings w ++ ["local_search_mixed: Local search did not converge."]
        | Raised e => r = inl e /\ warnings w' = warnings w
        end
  end.
Proof.
  unfold local_search_mixed. unfold bind at 1.
  destruct (parameter_groups acqf_params w)
    as [[e|[[idxs ls] discrete]] w1] eqn:Hgroups.
  { pose proof (keeps_parameter_groups eq acqf_params w) as Hw.
    rewrite Hgroups in Hw. simpl in Hw. by subst w1. }
  apply parameter_groups_inr in Hgroups as [-> Hpos].
  unfold bind at 1, eval_acqf_no_grad1 at 1, bind at 1, ret at 1.
  cbn [log_eval fst snd].
  set (w1 := World (rng w) (evals w ++ [[initial_normalized_params]]) (warnings w)).
  pose proof (sweeps_steps acqf_params idxs ls tol discrete (Z.to_nat max_iter)
                (Z.to_nat max_iter) 0%nat initial_normalized_params
                (acqf acqf_params initial_normalized_params) NoneYet w1
                eq_refl Hpos I (or_introl eq_refl)) as Hrun.
  cbn [code_of] in Hrun.
  destruct (sweeps _ _ _ _ _ _ _ w1) as [r w'].
  split; [apply step_deterministic|].
  destruct Hrun as (k & why & Hrun & Hk & Hwhy). by exists k, why.
Qed.

End FollowsSpec.

(** ** Results that do not depend on the world *)

Section Indep.

Context `{Externals}.

Lemma indep_ret {A} (a : A) : indep (ret a).
Proof. by intros w1 w2. Qed.

Lemma indep_raise {A} e : indep (@raise A e).
Proof. by intros w1 w2. Qed.

Lemma indep_bind {A B} (m : M A) (k : A -> M B) :
  indep m -> (forall a, indep (k a)) -> indep (bind m k).
Proof.
  intros Hm Hk w1 w2. unfold bind. specialize (Hm w1 w2).
  destruct (m w1) as [[e1|a1] w1'], (m w2) as [[e2|a2] w2']; simpl in *;
    simplify_eq; [done|apply Hk].
Qed.

Lemma indep_log_eval xs : indep (log_eval xs).
Proof. by intros w1 w2. Qed.

Ltac indep_step :=
  lazymatch goal with
  | |- indep (ret _) => apply indep_ret
  | |- indep (raise _) => apply indep_raise
  | |- indep (bind _ _) => apply indep_bind; [|intros ?]
  | |- indep (match ?x with _ => _ end) => destruct x
  | |- indep (log_eval _) => apply indep_log_eval
  | |- _ => first [done | fail 1 "no rule"]
  end.

Ltac indep_auto := repeat (cbv zeta; indep_step).

Lemma indep_getitem {A} (a : list A) i : indep (getitem a i).
Proof. unfold getitem. indep_auto. Qed.

Lemma indep_take_at {A} (a : list A) idxs : indep (take_at a idxs).
Proof.
  induction idxs as [|i idxs IH]; simpl; indep_auto; auto using indep_getitem.
Qed.

Lemma indep_mapM {A B} (f : A -> M B) l :
  (forall a, indep (f a)) -> indep (mapM f l).
Proof. intros Hf. induction l as [|a l IH]; simpl; indep_auto; auto. Qed.

Lemma indep_np_argmax a : indep (np_argmax a).
Proof. unfold np_argmax. indep_auto. Qed.

Lemma indep_np_arange a b c : indep (np_arange a b c).
Proof. unfold np_arange. indep_auto. Qed.

Lemma indep_choices_of space i : indep (choices_of space i).
Proof.
  unfold choices_of. indep_auto; auto using indep_getitem, indep_np_arange.
Qed.

Lemma indep_parameter_groups p : indep (parameter_groups p).
Proof.
  unfold parameter_groups. indep_auto; auto using indep_take_at.
  apply indep_mapM. intros i. apply indep_choices_of.
Qed.

Lemma indep_exhaustive_search p x f i choices :
  indep (_exhaustive_search p x f i choices).
Proof.
  unfold _exhaustive_search, eval_acqf_no_grad.
  indep_auto; auto using indep_getitem, indep_np_argmax.
Qed.

End Indep.

(** ** The exhaustive search in detail *)

Section ExhaustiveSearch.

Context `{Externals}.

Lemma py_index_map {A B} (g : A -> B) (a : list A) (i : Z) (y : B) :
  py_index (map g a) i = Some y ->
  exists x, py_index a i = Some x /\ y = g x.
Proof.
  unfold py_index. rewrite length_map.
  repeat case_bool_decide; try done; rewrite list_lookup_fmap;
    intros Hy; apply fmap_Some in Hy as (x & Hx & ->); by exists x.
Qed.

Lemma np_argmax_nonempty (a : list float) (w : world) :
  a <> [] -> exists i, np_argmax a w = (inr i, w).
Proof. destruct a; [done|]. intros _. by eexists. Qed.

(** What a run of the exhaustive search returns.  With the flag set: the
    vector with the coordinate moved to another choice, its value, which is
    above the value given and bounds the values at all other choices. *)
Lemma exhaustive_search_inr p x f i choices x' f' updated w w' :
  _exhaustive_search p x f i choices w = (inr (x', f', updated), w') ->
  exists current,
    py_index x i = Some current /\
    if updated then
      exists c,
        c ∈ choices /\ (c !=? current) = true /\
        x' = update_at x i c /\ f' = acqf p x' /\ (f <? f') = true /\
        forall c', c' ∈ choices -> (c' !=? current) = true ->
                   (acqf p (update_at x i c') <=? f') = true
    else x' = x /\ f' = f.
Proof.
  unfold _exhaustive_search. intros Hrun.
  apply bind_inr in Hrun as (current & w1 & [Hcur ->]%getitem_inr & Hrun).
  exists current. split; [done|].
  set (cands := List.filter _ choices) in Hrun.
  set (all := map _ cands) in Hrun.
  apply bind_inr in Hrun as (fvals & w2 & Heval & Hrun).
  assert (fvals = map (acqf p) all) as ->.
  { unfold eval_acqf_no_grad in Heval.
    apply bind_inr in Heval as (? & ? & _ & Heval). by injection Heval. }
  apply bind_inr in Hrun as (best_idx & w3 & (-> & m & Hm & Hbound)%np_argmax_inr & Hrun).
  apply bind_inr in Hrun as (fbest & w4 & [Hbest ->]%getitem_inr & Hrun).
  assert (fbest = m) as -> by congruence.
  destruct (m >? f) eqn:Hgt.
  - apply bind_inr in Hrun as (row & w5 & [Hrow ->]%getitem_inr & Hrun).
    injection Hrun as <- <- <- <-.
    apply py_index_map in Hm as (row' & Hrow' & ->).
    assert (row' = row) as -> by congruence.
    pose proof (py_index_elem_of _ _ _ Hrow) as Hin.
    apply list_elem_of_In, in_map_iff in Hin as (c & <- & Hc).
    apply filter_In in Hc as [Hc Hne].
    exists c. split_and!; [by apply list_elem_of_In|done..|].
    intros c' Hc' Hne'.
    apply ltb_not_nan in Hgt as [_ Hnum]. specialize (Hbound Hnum).
    rewrite Forall_forall in Hbound. apply Hbound.
    apply list_elem_of_In, in_map, in_map, filter_In.
    split; [by apply list_elem_of_In|done].
  - by injection Hrun as <- <- <- <-.
Qed.

(** When the values at all other choices are at most the value given, and
    there is another choice, the exhaustive search returns its input. *)
Lemma exhaustive_search_quiet p x f i choices current c0 w :
  py_index x i = Some current ->
  c0 ∈ choices -> (c0 !=? current) = true ->
  (forall c, c ∈ choices -> (c !=? current) = true ->
             (acqf p (update_at x i c) <=? f) = true) ->
  exists w', _exhaustive_search p x f i choices w = (inr (x, f, false), w').
Proof.
  intros Hcur Hc0 Hne0 Hle. unfold _exhaustive_search.
  rewrite (bind_ok _ _ _ _ _ (getitem_ok _ _ _ w Hcur)).
  set (cands := List.filter _ choices).
  set (all := map _ cands).
  unfold eval_acqf_no_grad. unfold bind at 1. unfold bind at 1.
  cbn [log_eval ret].
  set (w1 := World _ _ _).
  assert (map (acqf p) all <> []) as Hne.
  { assert (c0 ∈ cands) as Hin
      by (apply list_elem_of_In, filter_In; split; [by apply list_elem_of_In|done]).
    subst all. destruct cands; [by apply elem_of_nil in Hin|done]. }
  destruct (np_argmax_nonempty _ w1 Hne) as [best_idx Hargmax].
  rewrite (bind_ok _ _ _ _ _ Hargmax).
  apply np_argmax_inr in Hargmax as (_ & m & Hm & _).
  rewrite (bind_ok _ _ _ _ _ (getitem_ok _ _ _ w1 Hm)).
  assert ((m >? f) = false) as ->; [|by eexists].
  apply leb_ltb_false.
  apply py_index_elem_of, list_elem_of_In, in_map_iff in Hm as (row & <- & Hrow).
  apply in_map_iff in Hrow as (c & <- & Hc). apply filter_In in Hc as [Hc Hnec].
  apply Hle; [by apply list_elem_of_In|done].
Qed.

End ExhaustiveSearch.

(** ** Reading and writing at an index that is not negative *)

Section NonNegativeIndex.

Context {A : Type}.
Implicit Types (a : list A) (i j : Z).

Lemma py_index_lookup a i : (0 <= i)%Z -> py_index a i = a !! Z.to_nat i.
Proof.
  intros Hi. rewrite <- (Z2Nat.id i) at 1 by done. apply py_index_nonneg.
Qed.

Lemma update_at_insert a i v : (0 <= i)%Z -> update_at a i v = <[Z.to_nat i := v]> a.
Proof.
  intros Hi. unfold update_at. case_bool_decide; [done|].
  rewrite bool_decide_eq_false_2 by lia.
  symmetry. apply list_insert_ge. lia.
Qed.

Lemma update_at_twice a i v v' :
  (0 <= i)%Z -> update_at (update_at a i v) i v' = update_at a i v'.
Proof. intros Hi. rewrite !update_at_insert by done. apply list_insert_insert_eq. Qed.

Lemma update_at_same a i v :
  (0 <= i)%Z -> py_index a i = Some v -> update_at a i v = a.
Proof.
  intros Hi. rewrite py_index_lookup, update_at_insert by done.
  apply list_insert_id.
Qed.

Lemma py_index_update_at a i v x :
  (0 <= i)%Z -> py_index a i = Some x -> py_index (update_at a i v) i = Some v.
Proof.
  intros Hi. rewrite !py_index_lookup, update_at_insert by done.
  intros Hx. apply list_lookup_insert_eq. by eapply lookup_lt_Some.
Qed.

Lemma py_index_update_at_ne a i j v :
  (0 <= i)%Z -> (0 <= j)%Z -> i <> j ->
  py_index (update_at a i v) j = py_index a j.
Proof.
  intros Hi Hj Hne. rewrite !py_index_lookup, update_at_insert by done.
  apply list_lookup_insert_ne. lia.
Qed.

End NonNegativeIndex.

Lemma neqb_sym (x y : float) : (x !=? y) = (y !=? x).
Proof.
  unfold neqb. f_equal. destruct x, y; simpl; try done.
  apply bool_decide_ext. split; congruence.
Qed.

Lemma neqb_false_eq (x y : float) : (x !=? y) = false -> x = y.
Proof. unfold neqb. intros Heq%negb_false_iff. by apply eqb_eq. Qed.

(** ** The output of the driver as a fixed point *)

Section FixedPoint.

Context `{Externals}.
Variable p : AcquisitionFunctionParams.
Variable groups : list (Z * list float * float).
Hypothesis groups_exhaustive : Forall (searched_exhaustively p) groups.
Hypothesis groups_nonneg : Forall (fun g => (0 <= g.1.1)%Z) groups.
Hypothesis groups_nodup : NoDup ((fun g => g.1.1) <$> groups).

(** The value is that of the vector, and the vector is on the grid. *)
Definition state_ok (x : list float) (v : float) : Prop :=
  v = acqf p x /\ Forall (on_grid x) groups.

(** The optimizer of the group returns the state as it is, from any world. *)
Definition quiet (x : list float) (v : float) (g : Z * list float * float) : Prop :=
  forall w, exists w',
    _local_search_discrete p x v g.1.1 g.1.2 g.2 w = (inr (x, v, false), w').

Lemma local_search_discrete_exhaustive g x v w :
  searched_exhaustively p g ->
  _local_search_discrete p x v g.1.1 g.1.2 g.2 w
  = _exhaustive_search p x v g.1.1 g.1.2 w.
Proof.
  intros (st & Hst & Hcase). unfold _local_search_discrete.
  rewrite (bind_ok _ _ _ _ _ (getitem_ok _ _ _ w Hst)).
  destruct Hcase as [->|Hlen].
  - by rewrite bool_decide_eq_true_2.
  - rewrite (bool_decide_eq_true_2 (_ <= _)%nat) by done.
    by rewrite orb_true_r.
Qed.

Lemma indep_local_search_discrete g x v :
  searched_exhaustively p g ->
  indep (_local_search_discrete p x v g.1.1 g.1.2 g.2).
Proof.
  intros Hg w1 w2. rewrite !local_search_discrete_exhaustive by done.
  apply indep_exhaustive_search.
Qed.

(** A run that reports no improvement returns its input, and the group is
    quiet there. *)
Lemma unchanged_quiet g x v x' v' w w' :
  searched_exhaustively p g ->
  _local_search_discrete p x v g.1.1 g.1.2 g.2 w = (inr (x', v', false), w') ->
  x' = x /\ v' = v /\ quiet x v g.
Proof.
  intros Hg Hrun.
  pose proof Hrun as Hex. rewrite local_search_discrete_exhaustive in Hex by done.
  apply exhaustive_search_inr in Hex as (cur & _ & -> & ->).
  split_and!; [done..|]. intros w2.
  pose proof (indep_local_search_discrete g x v Hg w2 w) as Hind.
  rewrite Hrun in Hind.
  destruct (_local_search_discrete p x v g.1.1 g.1.2 g.2 w2) as [r w2'].
  simpl in Hind. subst r. by exists w2'.
Qed.

(** After an improvement the state is again in order, and the group that
    improved is quiet at the new state. *)
Lemma improved_quiet g x v x' v' w w' :
  g ∈ groups -> state_ok x v ->
  _local_search_discrete p x v g.1.1 g.1.2 g.2 w = (inr (x', v', true), w') ->
  state_ok x' v' /\ quiet x' v' g.
Proof using groups_exhaustive groups_nonneg groups_nodup.
  intros Hin [Hv Hgrid] Hrun.
  assert (searched_exhaustively p g) as Hg
    by (rewrite Forall_forall in groups_exhaustive; auto).
  assert (0 <= g.1.1)%Z as Hi
    by (rewrite Forall_forall in groups_nonneg; by apply groups_nonneg).
  rewrite local_search_discrete_exhaustive in Hrun by done.
  apply exhaustive_search_inr in Hrun
    as (cur & Hcur & c & Hc & Hne & -> & -> & Hlt & Hbound).
  assert (on_grid x g) as (cur' & Hcur' & Hcur_in)
    by (rewrite Forall_forall in Hgrid; auto).
  assert (cur' = cur) as -> by congruence.
  split; [split; [done|]|].
  - (* the new vector is on the grid *)
    apply Forall_forall. intros h Hh.
    destruct (decide (h.1.1 = g.1.1)) as [Heq|Hneq].
    + assert (h = g) as ->.
      { apply list_elem_of_lookup in Hh as [j Hj], Hin as [k Hk].
        assert (j = k) as ->; [|congruence].
        apply (NoDup_lookup _ j k (g.1.1) groups_nodup);
          rewrite list_lookup_fmap; [by rewrite Hj, <- Heq|by rewrite Hk]. }
      exists c. split; [by eapply py_index_update_at|done].
    + assert (0 <= h.1.1)%Z as Hj
        by (rewrite Forall_forall in groups_nonneg; by apply groups_nonneg).
      assert (on_grid x h) as (d & Hd & Hd_in)
        by (rewrite Forall_forall in Hgrid; auto).
      exists d. split; [|done]. by rewrite py_index_update_at_ne.
  - (* the group is quiet *)
    intros w2. rewrite local_search_discrete_exhaustive by done.
    apply (exhaustive_search_quiet p _ _ _ _ c cur).
    + by eapply py_index_update_at.
    + done.
    + by rewrite neqb_sym.
    + intros c' Hc' Hne'. rewrite update_at_twice by done.
      destruct (c' !=? cur) eqn:Hc'cur.
      * by apply Hbound.
      * apply neqb_false_eq in Hc'cur as ->.
        rewrite update_at_same by done. rewrite <- Hv. by apply ltb_leb.
Qed.

(** The invariant of a sweep that has dealt with the groups [done]: with no
    change so far, they are all quiet; after a change by the group [g], that
    group is quiet and so is every group dealt with since, be it in this
    sweep (the groups after [g] in [done]) or since the sweep before (the
    groups after [g] and all of [done]). *)
Definition sweep_inv (done : list (Z * list float * float))
    (x : list float) (v : float) (last : option Z) : Prop :=
  match last with
  | None => Forall (quiet x v) done
  | Some i =>
      exists pre g post,
        groups = pre ++ g :: post /\ g.1.1 = i /\ quiet x v g /\
        ((exists mid, done = pre ++ g :: mid /\ Forall (quiet x v) mid) \/
         (exists rest, pre = done ++ rest /\
                       Forall (quiet x v) done /\ Forall (quiet x v) post))
  end.

Lemma split_unique {A B} (f : A -> B) (l1 : list A) :
  forall a l2 k1 b k2,
    NoDup (f <$> (l1 ++ a :: l2)) ->
    l1 ++ a :: l2 = k1 ++ b :: k2 -> f a = f b ->
    l1 = k1 /\ a = b /\ l2 = k2.
Proof.
  induction l1 as [|c l1 IH]; intros a l2 [|d k1] b k2 Hnd Heq Hf;
    cbn [app fmap list_fmap] in *.
  - by injection Heq as -> ->.
  - injection Heq as -> ->.
    apply NoDup_cons in Hnd as [Hnotin _]. exfalso. apply Hnotin.
    rewrite Hf. apply list_elem_of_fmap. exists b. split; [done|].
    apply elem_of_app. right. by left.
  - injection Heq as -> <-.
    apply NoDup_cons in Hnd as [Hnotin _]. exfalso. apply Hnotin.
    rewrite <- Hf. apply list_elem_of_fmap. exists a. split; [done|].
    apply elem_of_app. right. by left.
  - injection Heq as -> Heq.
    apply NoDup_cons in Hnd as [_ Hnd].
    by destruct (IH _ _ _ _ _ Hnd Heq Hf) as (-> & -> & ->).
Qed.

Lemma app_cons_self_absurd {A} (l : list A) (a : A) (m : list A) :
  l = l ++ a :: m -> False.
Proof.
  intros Heq. apply (f_equal length) in Heq.
  rewrite length_app in Heq. simpl in Heq. lia.
Qed.

Lemma sweep_discrete_inv (todo : list (Z * list float * float)) :
  forall done x v last r w w',
    done ++ todo = groups ->
    state_ok x v -> sweep_inv done x v last ->
    sweep_discrete p todo (x, v, last) w = (inr r, w') ->
    match r with
    | inl (x', v') => state_ok x' v' /\ Forall (quiet x' v') groups
    | inr (x', v', last') => state_ok x' v' /\ sweep_inv groups x' v' last'
    end.
Proof using groups_exhaustive groups_nonneg groups_nodup.
  induction todo as [|[[i choices] xtol] todo IH];
    intros done x v last r w w' Hsplit Hok Hinv; cbn [sweep_discrete].
  - intros [= <- _]. rewrite app_nil_r in Hsplit. by subst done.
  - set (g := (i, choices, xtol)) in *.
    assert (g ∈ groups) as Hin
      by (rewrite <- Hsplit; apply elem_of_app; right; by left).
    assert (searched_exhaustively p g) as Hg
      by (rewrite Forall_forall in groups_exhaustive; auto).
    case_bool_decide as Hlast.
    + (* about to optimize the group that changed last *)
      intros [= <- _]. subst last. split; [done|].
      destruct Hinv as (pre & g0 & post & Hgroups & Hidx & Hquiet & Hcase).
      rewrite Hgroups in groups_nodup.
      destruct (split_unique (fun g => g.1.1) pre g0 post done g todo)
        as (-> & -> & ->); [done|congruence|done|].
      destruct Hcase as [(mid & Hmid & _)|(rest & Hrest & Hdone & Hpost)].
      * by apply app_cons_self_absurd in Hmid.
      * rewrite Hgroups. apply Forall_app. split; [done|by constructor].
    + intros Hrun.
      apply bind_inr in Hrun as ([[x1 v1] updated] & w1 & Hopt & Hrun).
      change i with g.1.1 in Hopt. change choices with g.1.2 in Hopt.
      change xtol with g.2 in Hopt.
      eapply (IH (done ++ [g])); [by rewrite <- app_assoc| | |exact Hrun].
      * destruct updated.
        -- by eapply improved_quiet.
        -- by apply unchanged_quiet in Hopt as (-> & -> & _).
      * destruct updated.
        -- (* the group has improved *)
           destruct (improved_quiet g x v x1 v1 w w1 Hin Hok Hopt) as [_ Hq].
           exists done, g, todo. split_and!; [done..|].
           left. exists []. by split.
        -- (* no improvement *)
           apply unchanged_quiet in Hopt as (-> & -> & Hq); [|done].
           destruct last as [j|]; cbn [sweep_inv] in *.
           ++ destruct Hinv as (pre & g0 & post & Hgroups & Hidx & Hquiet & Hcase).
              exists pre, g0, post. split_and!; [done..|].
              destruct Hcase as [(mid & Hmid & Hall)|(rest & Hrest & Hdone & Hpost)].
              ** left. exists (mid ++ [g]). split.
                 --- rewrite Hmid. by rewrite <- !app_assoc.
                 --- apply Forall_app. split; [done|by constructor].
              ** right. subst pre. rewrite <- Hsplit, <- app_assoc in Hgroups.
                 apply app_inv_head in Hgroups.
                 destruct rest as [|h rest]; simpl in Hgroups.
                 --- injection Hgroups as <- _. by subst j.
                 --- injection Hgroups as -> _. exists rest.
                     split_and!; [by rewrite <- app_assoc| |done].
                     apply Forall_app. split; [done|by constructor].
           ++ apply Forall_app. split; [done|by constructor].
Qed.

(** Between two sweeps: what held with all groups done holds with none. *)
Lemma sweep_inv_next x v i : sweep_inv groups x v (Some i) -> sweep_inv [] x v (Some i).
Proof.
  intros (pre & g & post & Hgroups & Hidx & Hquiet & Hcase).
  exists pre, g, post. split_and!; [done..|]. right. exists pre.
  destruct Hcase as [(mid & Hmid & Hall)|(rest & Hrest & _)].
  - rewrite Hgroups in Hmid at 1. apply app_inv_head in Hmid.
    injection Hmid as ->. by split_and!.
  - exfalso. rewrite Hrest in Hgroups. apply (f_equal length) in Hgroups.
    rewrite !length_app in Hgroups. simpl in Hgroups. lia.
Qed.

Lemma sweep_inv_not_continuous done x v :
  ~ sweep_inv done x v (Some CONTINUOUS).
Proof using groups_nonneg.
  intros (pre & g & post & Hgroups & Hidx & _).
  assert (0 <= g.1.1)%Z as Hpos.
  { rewrite Forall_forall in groups_nonneg. apply groups_nonneg.
    rewrite Hgroups. apply elem_of_app. right. by left. }
  rewrite Hidx in Hpos. unfold CONTINUOUS in Hpos. lia.
Qed.

(** A run of the sweeps without the warning ends where every group is
    quiet. *)
Lemma sweeps_inv ls tol (iters : nat) :
  forall x v last x' v' w w',
    state_ok x v -> sweep_inv [] x v last ->
    sweeps p [] ls tol groups iters (x, v, last) w = (inr (x', v'), w') ->
    warnings w' = warnings w ->
    state_ok x' v' /\ Forall (quiet x' v') groups.
Proof using groups_exhaustive groups_nonneg groups_nodup.
  induction iters as [|iters IH]; intros x v last x' v' w w' Hok Hinv;
    cbn [sweeps].
  - unfold bind, warn, ret. intros [= _ _ <-]. cbn [warnings].
    intros Hw. apply (f_equal length) in Hw. rewrite length_app in Hw.
    simpl in Hw. lia.
  - case_bool_decide as Hlast.
    { subst last. by apply sweep_inv_not_continuous in Hinv. }
    unfold _gradient_ascent. cbn [length bool_decide decide_rel].
    rewrite bool_decide_eq_true_2 by done.
    unfold bind at 1. unfold ret at 1.
    intros Hrun Hw.
    apply bind_inr in Hrun as (r & w1 & Hsweep & Hrun).
    pose proof (keeps_sweep_discrete same_warnings log_eval_same_warnings
                  p groups (x, v, last) w) as Hw1.
    rewrite Hsweep in Hw1. unfold same_warnings in Hw1. simpl in Hw1.
    pose proof (sweep_discrete_inv groups [] x v last r w w1 eq_refl Hok Hinv Hsweep)
      as Hr.
    destruct r as [[x2 v2]|[[x2 v2] [j|]]].
    + by injection Hrun as <- <- <-.
    + destruct Hr as [Hok2 Hinv2].
      eapply IH; [exact Hok2|by apply sweep_inv_next|exact Hrun|congruence].
    + by injection Hrun as <- <- <-.
Qed.

(** Where every group is quiet, a sweep changes nothing. *)
Lemma sweep_discrete_quiet x v (todo : list (Z * list float * float)) :
  Forall (quiet x v) todo ->
  forall w, exists w',
    sweep_discrete p todo (x, v, None) w = (inr (inr (x, v, None)), w').
Proof.
  induction todo as [|[[i choices] xtol] todo IH]; intros Hall w;
    cbn [sweep_discrete].
  - by eexists.
  - apply Forall_cons in Hall as [Hq Hall].
    rewrite bool_decide_eq_false_2 by done.
    destruct (Hq w) as [w1 Hrun]. simpl in Hrun.
    rewrite (bind_ok _ _ _ _ _ Hrun). by apply IH.
Qed.

Lemma sweeps_quiet ls tol x v (iters : nat) :
  Forall (quiet x v) groups ->
  forall w, exists w',
    sweeps p [] ls tol groups (S iters) (x, v, None) w = (inr (x, v), w').
Proof.
  intros Hall w. cbn [sweeps].
  rewrite bool_decide_eq_false_2 by done.
  unfold _gradient_ascent. rewrite bool_decide_eq_true_2 by done.
  unfold bind at 1. unfold ret at 1.
  destruct (sweep_discrete_quiet x v groups Hall w) as [w1 Hrun].
  rewrite (bind_ok _ _ _ _ _ Hrun). by eexists.
Qed.

End FixedPoint.

Section FixedPointTheorem.

Context `{Externals}.

Lemma np_where_from_NoDup {A} (q : A -> bool) (a : list A) :
  forall i, NoDup (np_where_from q a i).
Proof.
  induction a as [|x a IH]; intros i; cbn [np_where_from]; [constructor|].
  destruct (q x); [|apply IH].
  constructor; [|apply IH]. intros Hin.
  pose proof (np_where_from_ge q a (i + 1)) as Hge.
  rewrite Forall_forall in Hge. specialize (Hge i Hin). lia.
Qed.

Lemma zip3_index_elem_of {A B C} (l1 : list A) :
  forall (l2 : list B) (l3 : list C) x,
    x ∈ (fun g => g.1.1) <$> zip (zip l1 l2) l3 -> x ∈ l1.
Proof.
  induction l1 as [|a l1 IH]; intros [|b l2] [|c l3] x; simpl;
    try (by intros ?%elem_of_nil).
  intros [->|Hin]%elem_of_cons; [by left|]. right. by eapply IH.
Qed.

Lemma zip3_index_NoDup {A B C} (l1 : list A) :
  forall (l2 : list B) (l3 : list C),
    NoDup l1 -> NoDup ((fun g => g.1.1) <$> zip (zip l1 l2) l3).
Proof.
  induction l1 as [|a l1 IH]; intros [|b l2] [|c l3] Hnd; simpl;
    try apply NoDup_nil_2.
  apply NoDup_cons in Hnd as [Hnotin Hnd]. apply NoDup_cons. split; [|by apply IH].
  intros Hin. by apply Hnotin, (zip3_index_elem_of _ l2 l3).
Qed.

Lemma parameter_groups_NoDup p idxs ls discrete w w' :
  parameter_groups p w = (inr (idxs, ls, discrete), w') ->
  NoDup ((fun g => g.1.1) <$> discrete).
Proof.
  unfold parameter_groups. intros Hrun.
  apply bind_inr in Hrun as (isl & w1 & _ & Hrun).
  apply bind_inr in Hrun as (choices & w2 & _ & [= _ _ <- _]).
  apply zip3_index_NoDup, np_where_from_NoDup.
Qed.

(** C8 as amended. Take a search space without continuous parameters in
    which the dispatcher sends every discrete parameter to the exhaustive
    search, and a start vector on the grid.  When [local_search_mixed]
    returns without the warning of the iteration cap, a second run from the
    vector it returned, in any world, returns that same vector and the same
    value. *)
Theorem local_search_mixed_fixed_point
    (acqf_params : AcquisitionFunctionParams)
    (initial_normalized_params : list float) (tol : float) (max_iter : Z)
    (w : world) (lengthscale : list float)
    (groups : list (Z * list float * float))
    (x : list float) (f : float) (w' : world) :
  parameter_groups acqf_params w = (inr ([], lengthscale, groups), w) ->
  Forall (searched_exhaustively acqf_params) groups ->
  Forall (on_grid initial_normalized_params) groups ->
  local_search_mixed acqf_params initial_normalized_params tol max_iter w
  = (inr (x, f), w') ->
  warnings w' = warnings w ->
  forall w2, exists w2',
    local_search_mixed acqf_params x tol max_iter w2 = (inr (x, f), w2').
Proof.
  intros Hgroups Hex Hgrid Hrun Hwarn w2.
  pose proof (parameter_groups_inr _ _ _ _ _ _ Hgroups) as [_ Hpos].
  pose proof (parameter_groups_NoDup _ _ _ _ _ _ Hgroups) as Hnd.
  unfold local_search_mixed in Hrun.
  rewrite (bind_ok _ _ _ _ _ Hgroups) in Hrun.
  unfold bind at 1, eval_acqf_no_grad1 at 1, bind at 1, ret at 1 in Hrun.
  cbn [log_eval] in Hrun.
  destruct (Z.to_nat max_iter) as [|iters] eqn:Hiters.
  { cbn [sweeps] in Hrun. unfold bind, warn, ret in Hrun.
    injection Hrun as _ _ <-. cbn [warnings] in Hwarn.
    apply (f_equal length) in Hwarn. rewrite length_app in Hwarn.
    simpl in Hwarn. lia. }
  destruct (sweeps_inv acqf_params groups Hex Hpos Hnd lengthscale tol (S iters)
              initial_normalized_params
              (acqf acqf_params initial_normalized_params) None x f
              (World (rng w) (evals w ++ [[initial_normalized_params]]) (warnings w))
              w')
    as [[Hf _] Hquiet]; [by split|by constructor|exact Hrun|done|].
  (* the second run *)
  assert (parameter_groups acqf_params w2 = (inr ([], lengthscale, groups), w2))
    as Hgroups2.
  { pose proof (indep_parameter_groups acqf_params w2 w) as Hind.
    pose proof (keeps_parameter_groups eq acqf_params w2) as Hw2.
    rewrite Hgroups in Hind.
    destruct (parameter_groups acqf_params w2) as [r w3]. simpl in *.
    by subst. }
  unfold local_search_mixed. rewrite (bind_ok _ _ _ _ _ Hgroups2).
  unfold bind at 1, eval_acqf_no_grad1 at 1, bind at 1, ret at 1.
  cbn [log_eval]. rewrite Hiters, <- Hf.
  apply sweeps_quiet. done.
Qed.

End FixedPointTheorem.

(** ** Arithmetic on the rationals *)

Lemma Qc_lt_Q (a b : Qc) : (a < b)%Qc <-> (this a < this b)%Q.
Proof. done. Qed.
Lemma Qc_le_Q (a b : Qc) : (a <= b)%Qc <-> (this a <= this b)%Q.
Proof. done. Qed.
Lemma Qc_eq_Q (a b : Qc) : a = b <-> (this a == this b)%Q.
Proof. split; [by intros ->|apply Qc_is_canon]. Qed.

(** Linear arithmetic on the canonical rationals, through [Q]. *)
Ltac qc_lra :=
  rewrite ?Qc_lt_Q, ?Qc_le_Q, ?Qc_eq_Q in *;
  unfold Qcminus, Qcdiv in *; unfold Qcplus, Qcopp, Qcmult in *;
  cbn [this Q2Qc] in *;
  rewrite ?Qred_correct in *; lra.

(** ** The nearest grid point on a grid in order *)

Section NearestPoint.

Lemma abs_sub_Fin (x g : Qc) :
  abs (Fin x - Fin g)
  = Fin (if bool_decide (x - g < 0)%Qc then - (x - g) else x - g)%Qc.
Proof. unfold sub, neg, add, abs, Qcminus. by destruct (bool_decide _). Qed.

Lemma dist_le_below (x a b : Qc) :
  (a <= b)%Qc -> (b <= x)%Qc ->
  (abs (Fin x - Fin b) <=? abs (Fin x - Fin a)) = true.
Proof.
  intros Hab Hbx. rewrite !abs_sub_Fin. apply bool_decide_eq_true.
  repeat case_bool_decide; qc_lra.
Qed.

Lemma dist_le_above (x a b : Qc) :
  (x <= a)%Qc -> (a <= b)%Qc ->
  (abs (Fin x - Fin a) <=? abs (Fin x - Fin b)) = true.
Proof.
  intros Hab Hbx. rewrite !abs_sub_Fin. apply bool_decide_eq_true.
  repeat case_bool_decide; qc_lra.
Qed.

Lemma dist_zero (x g : Qc) :
  (abs (Fin x - Fin g) <=? abs (Fin x - Fin x)) = true -> g = x.
Proof.
  rewrite !abs_sub_Fin. intros Hle%bool_decide_eq_true.
  repeat case_bool_decide; qc_lra.
Qed.

(** The binary search on an array along which [np_less _ key] only turns
    from true to false. *)
Lemma binsearch_left_spec (a : list float) (key : float) (fuel : nat) :
  (forall (i j : nat) x y, (i <= j)%nat -> a !! i = Some x -> a !! j = Some y ->
     np_less y key = true -> np_less x key = true) ->
  forall lo hi : nat,
    (lo <= hi <= length a)%nat -> (hi - lo < fuel)%nat ->
    (forall (i : nat) x, (i < lo)%nat -> a !! i = Some x -> np_less x key = true) ->
    (forall (i : nat) x, (hi <= i)%nat -> a !! i = Some x -> np_less x key = false) ->
    let r := binsearch_left fuel a key lo hi in
    (lo <= r <= hi)%nat /\
    (forall (i : nat) x, (i < r)%nat -> a !! i = Some x -> np_less x key = true) /\
    (forall (i : nat) x, (r <= i)%nat -> a !! i = Some x -> np_less x key = false).
Proof.
  intros Hmono. induction fuel as [|fuel IH]; intros lo hi Hrange Hfuel Hlo Hhi.
  { lia. }
  cbn [binsearch_left]. case_bool_decide as Hlt.
  2:{ assert (lo = hi) as -> by lia. cbv zeta. split; [lia|]. by split. }
  set (mid := (lo + (hi - lo) / 2)%nat).
  assert (lo <= mid < hi)%nat as Hmid.
  { subst mid. pose proof (Nat.div_lt (hi - lo) 2). lia. }
  destruct (lookup_lt_is_Some_2 a mid) as [x Hx]; [lia|].
  rewrite Hx. destruct (np_less x key) eqn:Hless.
  - destruct (IH (S mid) hi) as (Hr & Hbelow & Habove); [lia|lia| |done|].
    + intros i y Hi Hy. eapply (Hmono i mid); [lia|done..].
    + cbv zeta. split; [lia|]. by split.
  - destruct (IH lo mid) as (Hr & Hbelow & Habove); [lia|lia|done| |].
    + intros i y Hi Hy. destruct (np_less y key) eqn:Hy'; [|done].
      rewrite <- Hless. symmetry. eapply (Hmono mid i); [lia|done..].
    + cbv zeta. split; [lia|]. by split.
Qed.

Lemma ltb_trans (x y z : float) :
  (x <? y) = true -> (y <? z) = true -> (x <? z) = true.
Proof.
  destruct x, y, z; simpl; try done.
  rewrite !bool_decide_eq_true. apply Qclt_trans.
Qed.

Lemma ascending_cons (x : float) (l : list float) :
  ascending (x :: l) = true ->
  Forall (fun y => (x <? y) = true) l /\ ascending l = true.
Proof.
  revert x. induction l as [|y l IH]; intros x; [done|].
  cbn [ascending]. intros [Hxy Hl]%andb_true_iff. split; [|done].
  apply Forall_cons. split; [done|].
  destruct (IH y Hl) as [Hy _].
  eapply Forall_impl; [exact Hy|]. intros z Hz. by eapply ltb_trans.
Qed.

Lemma ascending_lookup (l : list float) :
  ascending l = true ->
  forall (i j : nat) a b,
    l !! i = Some a -> l !! j = Some b -> (i < j)%nat -> (a <? b) = true.
Proof.
  induction l as [|x l IH]; intros Hasc i j a b Ha Hb Hij;
    [by rewrite lookup_nil in Ha|].
  destruct (ascending_cons _ _ Hasc) as [Hx Hl].
  destruct j as [|j]; [lia|]. cbn in Hb.
  destruct i as [|i].
  - injection Ha as <-. rewrite Forall_forall in Hx. apply Hx.
    by eapply list_elem_of_lookup_2.
  - cbn in Ha. eapply (IH Hl i j); [done..|lia].
Qed.

Lemma finite_grid (l : list float) :
  forallb is_finite l = true -> exists qs : list Qc, l = Fin <$> qs.
Proof.
  induction l as [|x l IH]; [by exists []|].
  cbn [forallb]. intros [Hx Hl]%andb_true_iff.
  destruct (IH Hl) as [qs ->]. destruct x as [q| | |]; try done.
  by exists (q :: qs).
Qed.

Lemma np_less_Fin (a b : Qc) : np_less (Fin a) (Fin b) = bool_decide (a < b)%Qc.
Proof. unfold np_less. simpl. by rewrite orb_false_r. Qed.

Lemma ascending_Fin_lt (qs : list Qc) (i j : nat) (a b : Qc) :
  ascending (Fin <$> qs) = true ->
  qs !! i = Some a -> qs !! j = Some b -> (i < j)%nat -> (a < b)%Qc.
Proof.
  intros Hasc Ha Hb Hij.
  assert ((Fin a <? Fin b) = true) as Hlt.
  { eapply (ascending_lookup _ Hasc i j); [| |done]; by rewrite list_lookup_fmap, ?Ha, ?Hb. }
  by apply bool_decide_eq_true in Hlt.
Qed.

Lemma ascending_Fin_le (qs : list Qc) (i j : nat) (a b : Qc) :
  ascending (Fin <$> qs) = true ->
  qs !! i = Some a -> qs !! j = Some b -> (i <= j)%nat -> (a <= b)%Qc.
Proof.
  intros Hasc Ha Hb Hij. destruct (decide (i = j)) as [->|Hne].
  - rewrite Ha in Hb. injection Hb as <-. apply Qcle_refl.
  - apply Qclt_le_weak. eapply ascending_Fin_lt; [done..|lia].
Qed.

(** [np.searchsorted] on an ascending grid of finite values: the points
    before the result are below the key, the others are not. *)
Lemma np_searchsorted_spec (qs : list Qc) (x : Qc) :
  ascending (Fin <$> qs) = true ->
  exists r : nat,
    np_searchsorted (Fin <$> qs) (Fin x) = Z.of_nat r /\
    (r <= length qs)%nat /\
    (forall (i : nat) q, (i < r)%nat -> qs !! i = Some q -> (q < x)%Qc) /\
    (forall (i : nat) q, (r <= i)%nat -> qs !! i = Some q -> (x <= q)%Qc).
Proof.
  intros Hasc. unfold np_searchsorted.
  set (a := Fin <$> qs).
  destruct (binsearch_left_spec a (Fin x) (S (length a))) with (lo := 0%nat) (hi := length a)
    as (Hr & Hbelow & Habove).
  - intros i j u v Hij Hu Hv. subst a. rewrite list_lookup_fmap in Hu, Hv.
    destruct (qs !! i) as [qi|] eqn:Hqi; [|done].
    destruct (qs !! j) as [qj|] eqn:Hqj; [|done].
    injection Hu as <-. injection Hv as <-. rewrite !np_less_Fin.
    rewrite !bool_decide_eq_true. intros Hlt.
    eapply Qcle_lt_trans; [|exact Hlt]. by eapply ascending_Fin_le.
  - lia.
  - lia.
  - intros i u Hi. lia.
  - intros i u Hi Hu. apply lookup_lt_Some in Hu. lia.
  - eexists. split; [done|]. subst a. rewrite length_fmap in *.
    split; [lia|]. split.
    + intros i q Hi Hq. specialize (Hbelow i (Fin q) Hi).
      rewrite list_lookup_fmap, Hq in Hbelow. specialize (Hbelow eq_refl).
      rewrite np_less_Fin in Hbelow. by apply bool_decide_eq_true in Hbelow.
    + intros i q Hi Hq. specialize (Habove i (Fin q) Hi).
      rewrite list_lookup_fmap, Hq in Habove. specialize (Habove eq_refl).
      rewrite np_less_Fin in Habove. apply bool_decide_eq_false in Habove.
      by apply Qcnot_lt_le.
Qed.


Lemma abs_sub_Fin_finite (x g : Qc) : is_nan (abs (Fin x - Fin g)) = false.
Proof. by rewrite abs_sub_Fin. Qed.

Lemma find_nearest_index_ascending (qs : list Qc) (x : Qc) (w : world) :
  (2 <= length qs)%nat -> ascending (Fin <$> qs) = true ->
  exists (k : nat) (g : Qc),
    find_nearest_index (Fin <$> qs) (Fin x) w = (inr (Z.of_nat k), w) /\
    qs !! k = Some g /\
    forall (j : nat) g', qs !! j = Some g' ->
      (abs (Fin x - Fin g) <=? abs (Fin x - Fin g')) = true.
Proof.
  intros Hlen Hasc.
  destruct (np_searchsorted_spec qs x Hasc) as (r & Hr & Hrn & Hbelow & Habove).
  unfold find_nearest_index. rewrite Hr, length_fmap.
  set (i := Z.to_nat (np_clip (Z.of_nat r) 1 (Z.of_nat (length qs) - 1))).
  assert (np_clip (Z.of_nat r) 1 (Z.of_nat (length qs) - 1) = Z.of_nat i) as ->.
  { unfold i, np_clip. lia. }
  assert (1 <= i <= length qs - 1)%nat as Hi by (unfold i, np_clip; lia).
  assert (i = Nat.min (Nat.max r 1) (length qs - 1)) as Hir
    by (unfold i, np_clip; lia).
  clearbody i.
  replace (Z.of_nat i - 1)%Z with (Z.of_nat (i - 1)) by lia.
  destruct (lookup_lt_is_Some_2 qs (i - 1)) as [below Hb]; [lia|].
  destruct (lookup_lt_is_Some_2 qs i) as [above Ha]; [lia|].
  rewrite (bind_ok _ _ w (Fin below) w).
  2:{ apply getitem_ok. by rewrite py_index_nonneg, list_lookup_fmap, Hb. }
  rewrite (bind_ok _ _ w (Fin above) w).
  2:{ apply getitem_ok. by rewrite py_index_nonneg, list_lookup_fmap, Ha. }
  assert (forall (j : nat) g', (j <= i - 1)%nat -> qs !! j = Some g' ->
            (abs (Fin x - Fin below) <=? abs (Fin x - Fin g')) = true) as HA.
  { intros j g' Hj Hg'. destruct (decide (i - 1 < r)%nat) as [Hlt|Hge].
    - apply dist_le_below.
      + by eapply (ascending_Fin_le qs j (i - 1)).
      + apply Qclt_le_weak. by eapply Hbelow.
    - assert (j = (i - 1)%nat) as -> by lia.
      rewrite Hb in Hg'. injection Hg' as <-.
      apply leb_refl, abs_sub_Fin_finite. }
  assert (forall (j : nat) g', (i <= j)%nat -> qs !! j = Some g' ->
            (abs (Fin x - Fin above) <=? abs (Fin x - Fin g')) = true) as HB.
  { intros j g' Hj Hg'. destruct (decide (r <= i)%nat) as [Hle|Hgt].
    - apply dist_le_above.
      + by eapply Habove.
      + by eapply (ascending_Fin_le qs i j).
    - pose proof (lookup_lt_Some _ _ _ Hg').
      assert (j = i) as -> by lia.
      rewrite Ha in Hg'. injection Hg' as <-.
      apply leb_refl, abs_sub_Fin_finite. }
  unfold ret. destruct (abs (Fin x - Fin below) <? abs (Fin x - Fin above)) eqn:Hcmp.
  - exists (i - 1)%nat, below. split; [done|]. split; [done|].
    intros j g' Hg'. destruct (decide (j <= i - 1)%nat); [by apply (HA j)|].
    eapply leb_trans; [by apply ltb_leb|]. apply (HB j); [lia|done].
  - exists i, above. split; [done|]. split; [done|].
    intros j g' Hg'. destruct (decide (i <= j)%nat); [by apply (HB j)|].
    eapply leb_trans; [|apply (HA j); [lia|done]].
    rewrite !abs_sub_Fin in *. apply bool_decide_eq_true.
    apply bool_decide_eq_false in Hcmp. by apply Qcnot_lt_le.
Qed.

(** X2. The closure [find_nearest_index] on an ascending grid of two or more
    finite points: it returns, without raising, an index [k] of the grid for
    which the distance [abs(x - grids[k])] is not greater than
    [abs(x - grids[j])] for any index [j].  The differences are exact here,
    so this is a nearest point of the grid; what rounding does to two
    differences is not modelled. *)
Theorem find_nearest_index_nearest (grids : list float) (x : Qc) (w : world) :
  (2 <= length grids)%nat ->
  forallb is_finite grids = true ->
  ascending grids = true ->
  exists (k : nat) (g : float),
    find_nearest_index grids (Fin x) w = (inr (Z.of_nat k), w) /\
    grids !! k = Some g /\
    Forall (fun g' => (abs (Fin x - g) <=? abs (Fin x - g')) = true) grids.
Proof.
  intros Hlen [qs ->]%finite_grid Hasc. rewrite length_fmap in Hlen.
  destruct (find_nearest_index_ascending qs x w Hlen Hasc)
    as (k & g & Hrun & Hk & Hmin).
  exists k, (Fin g). split; [done|]. split.
  { by rewrite list_lookup_fmap, Hk. }
  apply Forall_fmap, Forall_lookup_2. intros j g' Hg'. by apply (Hmin j).
Qed.

Lemma find_nearest_index_of_grid (grids : list float) (j : nat) (g : float) :
  (2 <= length grids)%nat ->
  forallb is_finite grids = true ->
  ascending grids = true ->
  grids !! j = Some g ->
  (forall w, find_nearest_index grids g w = (inr (Z.of_nat j), w)) /\
  (g =? g) = true.
Proof.
  intros Hlen [qs ->]%finite_grid Hasc Hj. rewrite length_fmap in Hlen.
  rewrite list_lookup_fmap in Hj.
  destruct (qs !! j) as [q|] eqn:Hq; [|done]. injection Hj as <-.
  split; [|by apply eqb_refl]. intros w.
  destruct (find_nearest_index_ascending qs q w Hlen Hasc)
    as (k & g & Hrun & Hk & Hmin).
  specialize (Hmin j q Hq). apply dist_zero in Hmin. subst g.
  rewrite Hrun. do 3 f_equal.
  destruct (Nat.lt_trichotomy k j) as [Hlt|[->|Hgt]]; [|done|].
  - pose proof (ascending_Fin_lt qs k j q q Hasc Hk Hq Hlt) as Habs.
    by apply Qclt_not_eq in Habs.
  - pose proof (ascending_Fin_lt qs j k q q Hasc Hq Hk Hgt) as Habs.
    by apply Qclt_not_eq in Habs.
Qed.

(** X3. A point of the grid is its own nearest point: on an ascending grid of
    two or more finite points, [find_nearest_index] maps the point at index
    [j] back to [j], so the assertion of line 115 holds for a coordinate that
    is on the grid. *)
Theorem find_nearest_index_of_grid_point (grids : list float) (j : nat)
    (g : float) (w : world) :
  (2 <= length grids)%nat ->
  forallb is_finite grids = true ->
  ascending grids = true ->
  grids !! j = Some g ->
  find_nearest_index grids g w = (inr (Z.of_nat j), w) /\
  (g =? g) = true.
Proof.
  intros Hlen Hfin Hasc Hj.
  destruct (find_nearest_index_of_grid grids j g Hlen Hfin Hasc Hj) as [Hrun Heq].
  by split.
Qed.

End NearestPoint.

(** ** The closures of the line search *)

Lemma bind_unfold {A B} (m : M A) (k : A -> M B) (w : world) :
  bind m k w =
  match m w with
  | (inl e, w') => (inl e, w')
  | (inr a, w') => k a w'
  end.
Proof. done. Qed.

Lemma update_at_update_at {A} (a : list A) (i : Z) (v v' : A) :
  update_at (update_at a i v) i v' = update_at a i v'.
Proof.
  pose proof (length_update_at a i v) as Hlen.
  unfold update_at at 1. rewrite Hlen. unfold update_at.
  repeat case_bool_decide; try lia; by rewrite ?list_insert_insert_eq.
Qed.

Lemma cache_size (cache : gmap Z float) (n : nat) :
  (forall i v, cache !! i = Some v -> (0 <= i < Z.of_nat n)%Z) ->
  (size cache <= n)%nat.
Proof.
  intros Hdom. rewrite <- size_dom.
  transitivity (size (list_to_set (seqZ 0 (Z.of_nat n)) : gset Z)).
  - apply subseteq_size. intros i [v Hv]%elem_of_dom.
    apply elem_of_list_to_set, elem_of_seqZ. specialize (Hdom i v Hv). lia.
  - rewrite size_list_to_set by apply NoDup_seqZ. rewrite length_seqZ. lia.
Qed.

Lemma run_from_invariant_world {Q A R L} (P : L -> world -> Prop)
    (s : solver Q A R) (f : Q -> L -> M (A * L)) (fuel : nat) :
  (forall q l w, P l w ->
     match f q l w with
     | (inr (_, l'), w') => P l' w'
     | (inl _, w') => exists l', P l' w'
     end) ->
  forall hist l w, P l w ->
    match run_from fuel s f hist l w with
    | (inr (_, l'), w') => P l' w'
    | (inl _, w') => exists l', P l' w'
    end.
Proof.
  intros Hf. induction fuel as [|fuel IH]; intros hist l w Hl; cbn [run_from].
  - destruct (solver_last s hist); simpl; eauto.
  - destruct (solver_next s hist) as [q|r|e]; simpl; eauto.
    rewrite bind_unfold. specialize (Hf q l w Hl).
    destruct (f q l w) as [[e|[a l']] w']; [done|]. by apply IH.
Qed.

Section LineSearchInvariant.

Context `{Externals}.
Variable p : AcquisitionFunctionParams.
Variable x : list float.
Variable f : float.
Variable idx : Z.
Variable grids : list float.
Variable ci : Z.
Variable w0 : world.

#[local] Abbreviation inv := (line_inv p x f idx grids ci w0).

Lemma negative_acqf_with_cache_inv (i : Z) l w :
  (0 <= i < Z.of_nat (length grids))%Z ->
  inv l w ->
  match negative_acqf_with_cache p idx grids i l w with
  | (inr (v, l'), w') => inv l' w' /\ l'.1 !! i = Some v
  | (inl _, w') => w' = w
  end.
Proof.
  intros Hi Hinv. destruct l as [cache np].
  unfold negative_acqf_with_cache. destruct (cache !! i) as [v|] eqn:Hc; [done|].
  destruct (py_index_is_Some grids i Hi) as [g Hg].
  rewrite (bind_ok _ _ w g w) by by apply getitem_ok.
  rewrite bind_unfold.
  destruct (setitem np idx g w) as [[e|np'] w1] eqn:Hset.
  { pose proof (keeps_setitem eq np idx g w) as Hw. by rewrite Hset in Hw. }
  apply setitem_inr in Hset as (-> & -> & _ & _).
  unfold eval_acqf_no_grad1, log_eval, bind, ret. cbn [fst snd].
  destruct Hinv as (Hnp & Hcache & E & (Hrng & Hwarn & Hev) & Hsize & HE).
  cbn [fst snd] in *.
  assert (update_at np idx g = update_at x idx g) as Hnew.
  { destruct Hnp as [->|(c & _ & ->)]; [done|]. apply update_at_update_at. }
  assert (grid_vector x idx grids (update_at np idx g)) as Hgv.
  { exists g. split; [by eapply py_index_elem_of|done]. }
  split; [|by rewrite lookup_insert_eq].
  unfold line_inv. cbn [fst snd].
  split; [by right|]. split.
  - intros j v [[<- <-]|[Hne Hj]]%lookup_insert_Some.
    + split; [done|]. right. exists g. by rewrite Hnew.
    + by apply Hcache.
  - exists (E ++ [[update_at np idx g]]). split; [|split].
    + split; [done|]. split; [done|]. cbn. by rewrite Hev, app_assoc.
    + rewrite map_size_insert_None by done. rewrite length_app. cbn. lia.
    + apply Forall_app. split; [done|]. apply Forall_singleton. eauto.
Qed.

Lemma interpolated_negative_acqf_inv (q : float) l w :
  (2 <= length grids)%nat ->
  inv l w ->
  match interpolated_negative_acqf p idx grids q l w with
  | (inr (_, l'), w') => inv l' w'
  | (inl _, w') => exists l', inv l' w'
  end.
Proof.
  intros Hlen Hinv. unfold interpolated_negative_acqf.
  rewrite bind_unfold. pose proof (keeps_getitem eq grids 0 w) as Hw.
  destruct (getitem grids 0 w) as [[e|first] w1]; cbn in Hw; subst w1; [eauto|].
  rewrite bind_unfold. pose proof (keeps_getitem eq grids (-1) w) as Hw.
  destruct (getitem grids (-1) w) as [[e|last] w1]; cbn in Hw; subst w1; [eauto|].
  destruct (_ || _); [done|].
  set (right := np_clip _ _ _).
  assert (1 <= right <= Z.of_nat (length grids) - 1)%Z as Hright.
  { apply np_clip_bounds. lia. }
  rewrite bind_unfold.
  pose proof (negative_acqf_with_cache_inv (right - 1) l w) as Hleft.
  destruct (negative_acqf_with_cache p idx grids (right - 1) l w)
    as [[e|[vl l1]] w1].
  { rewrite Hleft; [eauto|lia|done]. }
  destruct Hleft as [Hinv1 _]; [lia|done|].
  rewrite bind_unfold.
  pose proof (negative_acqf_with_cache_inv right l1 w1) as Hright'.
  destruct (negative_acqf_with_cache p idx grids right l1 w1)
    as [[e|[vr l2]] w2].
  { rewrite Hright'; [eauto|lia|done]. }
  destruct Hright' as [Hinv2 _]; [lia|done|].
  rewrite bind_unfold. pose proof (keeps_getitem eq grids right w2) as Hw.
  destruct (getitem grids right w2) as [[e|gr] w3]; cbn in Hw; subst w3; [eauto|].
  rewrite bind_unfold. pose proof (keeps_getitem eq grids (right - 1) w2) as Hw.
  destruct (getitem grids (right - 1) w2) as [[e|gl] w3]; cbn in Hw; subst w3; [eauto|].
  done.
Qed.

End LineSearchInvariant.

Section LineSearchRun.

Context `{Externals}.

Lemma find_nearest_index_inr (grids : list float) (q : float) (i : Z) w w' :
  length grids <> 1%nat ->
  find_nearest_index grids q w = (inr i, w') ->
  w' = w /\ (0 <= i < Z.of_nat (length grids))%Z /\ (2 <= length grids)%nat.
Proof.
  intros Hlen Hrun.
  pose proof (keeps_find_nearest_index eq grids q w) as Hw.
  rewrite Hrun in Hw. cbn in Hw. subst w'. split; [done|].
  unfold find_nearest_index in Hrun.
  apply bind_inr in Hrun as (below & w1 & [Hb ->]%getitem_inr & Hrun).
  apply bind_inr in Hrun as (above & w2 & [Ha ->]%getitem_inr & Hrun).
  injection Hrun as <-.
  assert (valid_index (length grids)
            (np_clip (np_searchsorted grids q) 1 (Z.of_nat (length grids) - 1)))
    as Hvalid by (by apply py_index_valid; eexists).
  unfold valid_index in Hvalid.
  assert (2 <= length grids)%nat as Hn by lia. split; [|done].
  pose proof (np_clip_bounds (np_searchsorted grids q) 1
                (Z.of_nat (length grids) - 1)).
  destruct (_ <? _); lia.
Qed.

Lemma line_inv_evaluated p x f idx grids ci w0 l w :
  line_inv p x f idx grids ci w0 l w ->
  exists E, evaluated w0 E w /\ (length E <= length grids - 1)%nat /\
    Forall (fun b => exists v, grid_vector x idx grids v /\ b = [v]) E.
Proof.
  intros (_ & Hcache & E & Hev & Hsize & HE). exists E. split; [done|].
  split; [|done].
  assert (size l.1 <= length grids)%nat as Hle.
  { apply cache_size. intros i v Hv. by apply (Hcache i v). }
  lia.
Qed.

Lemma evaluated_nothing w (grids x : list float) (idx : Z) :
  exists E, evaluated w E w /\ (length E <= length grids - 1)%nat /\
    Forall (fun b => exists v, grid_vector x idx grids v /\ b = [v]) E.
Proof.
  exists []. split; [|split; [cbn; lia|done]].
  split; [done|]. split; [done|]. by rewrite app_nil_r.
Qed.

Lemma discrete_line_search_run p x f idx grids xtol w :
  let '(r, w') := _discrete_line_search p x f idx grids xtol w in
  (exists E, evaluated w E w' /\ (length E <= length grids - 1)%nat /\
     Forall (fun b => exists v, grid_vector x idx grids v /\ b = [v]) E) /\
  match r with
  | inr (x', f', true) =>
      grid_vector x idx grids x' /\ f' = acqf p x' /\ (f <? f') = true
  | inr (x', f', false) => x' = x /\ f' = f
  | inl _ => True
  end.
Proof.
  pose proof (evaluated_nothing w grids x idx) as Hnone.
  unfold _discrete_line_search. case_bool_decide as Hlen; [done|].
  rewrite bind_unfold. pose proof (keeps_getitem eq x idx w) as Hw.
  destruct (getitem x idx w) as [[e|current] w1]; cbn in Hw; subst w1; [done|].
  rewrite bind_unfold.
  destruct (find_nearest_index grids current w) as [[e|ci] w1] eqn:Hci.
  { pose proof (keeps_find_nearest_index eq grids current w) as Hw.
    rewrite Hci in Hw. cbn in Hw. by subst w1. }
  apply find_nearest_index_inr in Hci as (-> & Hci & Hn); [|done].
  rewrite bind_unfold. pose proof (keeps_getitem eq grids ci w) as Hw.
  destruct (getitem grids ci w) as [[e|g_current] w1]; cbn in Hw; subst w1; [done|].
  rewrite bind_unfold. unfold assert at 1.
  destruct (current =? g_current); [|done]. cbn [ret].
  rewrite bind_unfold. pose proof (keeps_getitem eq grids 0 w) as Hw.
  destruct (getitem grids 0 w) as [[e|first] w1]; cbn in Hw; subst w1; [done|].
  rewrite bind_unfold. pose proof (keeps_getitem eq grids (-1) w) as Hw.
  destruct (getitem grids (-1) w) as [[e|last] w1]; cbn in Hw; subst w1; [done|].
  assert (line_inv p x f idx grids ci w ({[ci := - f]}, x) w) as Hinv.
  { unfold line_inv. cbn [fst snd]. split; [by left|]. split.
    - intros i v [<- <-]%lookup_singleton_Some. split; [done|]. by left.
    - exists []. split; [|split; [|done]].
      + split; [done|]. split; [done|]. by rewrite app_nil_r.
      + by rewrite map_size_singleton. }
  rewrite bind_unfold. unfold run_solver.
  pose proof (run_from_invariant_world (line_inv p x f idx grids ci w)
    (minimize_scalar_brent (first - EPS, g_current, last + EPS) xtol)
    (interpolated_negative_acqf p idx grids)
    (solver_budget (minimize_scalar_brent (first - EPS, g_current, last + EPS) xtol)))
    as Hrun.
  specialize (Hrun
    (fun q l w1 Hl => interpolated_negative_acqf_inv p x f idx grids ci w q l w1 Hn Hl)
    [] _ w Hinv).
  destruct (run_from _ _ _ _ _ w) as [[e|[res_x l]] w1].
  { destruct Hrun as [l' Hl']. split; [|done]. by eapply line_inv_evaluated. }
  rewrite bind_unfold.
  destruct (find_nearest_index grids res_x w1) as [[e|opt_idx] w2] eqn:Hopt.
  { pose proof (keeps_find_nearest_index eq grids res_x w1) as Hw.
    rewrite Hopt in Hw. cbn in Hw. subst w2.
    split; [|done]. by eapply line_inv_evaluated. }
  apply find_nearest_index_inr in Hopt as (-> & Hopt & _); [|done].
  rewrite bind_unfold.
  pose proof (negative_acqf_with_cache_inv p x f idx grids ci w opt_idx l w1 Hopt Hrun)
    as Hlast.
  destruct (negative_acqf_with_cache p idx grids opt_idx l w1)
    as [[e|[negval [cache np]]] w2].
  { subst w2. split; [|done]. by eapply line_inv_evaluated. }
  destruct Hlast as [Hinv2 Hval]. cbn [fst] in Hval.
  pose proof (line_inv_evaluated _ _ _ _ _ _ _ _ _ Hinv2) as Hpost.
  destruct (negb (bool_decide (opt_idx = ci)) && (- negval >? f)) eqn:Hcond;
    [|done].
  apply andb_true_iff in Hcond as [Hne Hgt].
  apply negb_true_iff, bool_decide_eq_false in Hne.
  rewrite bind_unfold. pose proof (keeps_getitem eq grids opt_idx w2) as Hw.
  destruct (getitem grids opt_idx w2) as [[e|g_opt] w3] eqn:Hg;
    cbn in Hw; subst w3; [done|].
  apply getitem_inr in Hg as [Hg _].
  rewrite bind_unfold.
  destruct (setitem np idx g_opt w2) as [[e|np'] w3] eqn:Hset.
  { pose proof (keeps_setitem eq np idx g_opt w2) as Hw.
    rewrite Hset in Hw. cbn in Hw. by subst w3. }
  apply setitem_inr in Hset as (-> & -> & _ & _).
  split; [done|]. cbn [ret].
  destruct Hinv2 as (Hnp & Hcache & _). cbn [fst snd] in *.
  assert (update_at np idx g_opt = update_at x idx g_opt) as ->.
  { destruct Hnp as [->|(c & _ & ->)]; [done|]. apply update_at_update_at. }
  split; [|split; [|done]].
  - exists g_opt. split; [by eapply py_index_elem_of|done].
  - destruct (Hcache opt_idx negval Hval) as [_ [[? _]|(g & Hg' & ->)]]; [done|].
    rewrite Hg in Hg'. injection Hg' as <-. by rewrite neg_involutive.
Qed.

End LineSearchRun.

(** ** The contracts of the discrete optimizers *)

Section DiscreteOptimizers.

Context `{Externals}.

Lemma eval_acqf_no_grad_run p xs w :
  eval_acqf_no_grad p xs w
  = (inr (map (acqf p) xs), World (rng w) (evals w ++ [xs]) (warnings w)).
Proof. done. Qed.

(** What a call of [_exhaustive_search] that returns has done. *)
Lemma exhaustive_search_detail p x f i choices x' f' updated w w' :
  _exhaustive_search p x f i choices w = (inr (x', f', updated), w') ->
  exists current,
    py_index x i = Some current /\
    let others := List.filter (fun c => c !=? current) choices in
    evaluated w [map (update_at x i) others] w' /\
    if updated then
      exists c, c ∈ others /\ x' = update_at x i c /\ f' = acqf p x' /\
        (f <? f') = true /\
        Forall (fun c' => (acqf p (update_at x i c') <=? f') = true) others
    else
      x' = x /\ f' = f /\
      (is_nan f = false ->
       Forall (fun c' => is_nan (acqf p (update_at x i c')) = false) others ->
       Forall (fun c' => (acqf p (update_at x i c') <=? f) = true) others).
Proof.
  unfold _exhaustive_search. intros Hrun.
  apply bind_inr in Hrun as (current & w1 & [Hcur ->]%getitem_inr & Hrun).
  exists current. split; [done|]. cbv zeta.
  set (others := List.filter _ choices) in *.
  rewrite bind_unfold, eval_acqf_no_grad_run in Hrun.
  set (all := map _ others) in Hrun.
  apply bind_inr in Hrun as (best_idx & w3 & (-> & m & Hm & Hbound)%np_argmax_inr & Hrun).
  apply bind_inr in Hrun as (fbest & w4 & [Hbest ->]%getitem_inr & Hrun).
  assert (fbest = m) as -> by congruence.
  apply py_index_map in Hm as (row & Hrow & ->).
  unfold all in Hbound. rewrite !List.Forall_map in Hbound.
  destruct (acqf p row >? f) eqn:Hgt.
  - apply bind_inr in Hrun as (row' & w5 & [Hrow' ->]%getitem_inr & Hrun).
    assert (row' = row) as -> by congruence.
    injection Hrun as <- <- <- <-. split; [done|].
    apply py_index_map in Hrow as (c & Hc & ->).
    exists c. split; [by eapply py_index_elem_of|]. do 3 (split; [done|]).
    apply Hbound. by apply ltb_not_nan in Hgt as [_ ?].
  - injection Hrun as <- <- <- <-. split; [done|]. do 2 (split; [done|]).
    intros Hf Hnum.
    assert (is_nan (acqf p row) = false) as Hrownum.
    { apply py_index_map in Hrow as (c & Hc & ->).
      rewrite Forall_forall in Hnum. apply Hnum. by eapply py_index_elem_of. }
    assert ((acqf p row <=? f) = true) as Hle.
    { destruct (acqf p row <=? f) eqn:Hle; [done|].
      apply leb_total in Hle; [|done..]. unfold gtb in Hgt. congruence. }
    eapply Forall_impl; [exact (Hbound Hrownum)|].
    intros c' Hc'. cbv beta in Hc'. by eapply leb_trans.
Qed.

(** X4. The contract of [_exhaustive_search].  A call that returns has read the
    coordinate [current] and handed the evaluator one batch: the vector with
    each of the other choices in place of [current].  With the flag set, the
    result is one of these vectors, the value returned is its acquisition
    value, it is above the value given and no vector of the batch has a
    greater value.  With the flag unset the input is returned, and no vector
    of the batch has a greater value than the one given when the values are
    numbers. *)
Theorem exhaustive_search_best p x f i choices x' f' updated w w' :
  _exhaustive_search p x f i choices w = (inr (x', f', updated), w') ->
  exists current,
    py_index x i = Some current /\
    let others := List.filter (fun c => c !=? current) choices in
    evaluated w [map (update_at x i) others] w' /\
    if updated then
      exists c, c ∈ others /\ x' = update_at x i c /\ f' = acqf p x' /\
        (f <? f') = true /\
        Forall (fun c' => (acqf p (update_at x i c') <=? f') = true) others
    else
      x' = x /\ f' = f /\
      (is_nan f = false ->
       Forall (fun c' => is_nan (acqf p (update_at x i c')) = false) others ->
       Forall (fun c' => (acqf p (update_at x i c') <=? f) = true) others).
Proof. apply exhaustive_search_detail. Qed.

(** X5. When [_exhaustive_search] raises.  An index that is out of bounds is an
    [IndexError] before anything is evaluated.  When no choice is different
    from the current coordinate, the evaluator is handed an empty batch and
    [np.argmax] raises a [ValueError].  In every other case the call
    returns after the evaluation of one batch. *)
Theorem exhaustive_search_outcome p x f i choices w :
  match py_index x i with
  | None =>
      _exhaustive_search p x f i choices w
      = (inl (IndexError "index out of bounds"), w)
  | Some current =>
      let others := List.filter (fun c => c !=? current) choices in
      let w' := World (rng w) (evals w ++ [map (update_at x i) others]) (warnings w) in
      if bool_decide (others = []) then
        _exhaustive_search p x f i choices w
        = (inl (ValueError "attempt to get argmax of an empty sequence"), w')
      else
        exists r, _exhaustive_search p x f i choices w = (inr r, w')
  end.
Proof.
  unfold _exhaustive_search.
  destruct (py_index x i) as [current|] eqn:Hcur.
  2:{ rewrite bind_unfold. unfold getitem. by rewrite Hcur. }
  rewrite (bind_ok _ _ _ _ _ (getitem_ok _ _ _ w Hcur)).
  set (others := List.filter _ choices).
  rewrite bind_unfold, eval_acqf_no_grad_run.
  set (w' := World _ _ _).
  case_bool_decide as Hothers.
  { by rewrite Hothers. }
  set (fvals := map (acqf p) (map _ others)).
  assert (fvals <> []) as Hne by (subst fvals; by destruct others).
  destruct (np_argmax_nonempty fvals w' Hne) as [best_idx Hargmax].
  rewrite (bind_ok _ _ _ _ _ Hargmax).
  apply np_argmax_inr in Hargmax as (_ & m & Hm & _).
  rewrite (bind_ok _ _ _ _ _ (getitem_ok _ _ _ w' Hm)).
  destruct (m >? f); [|by eexists].
  subst fvals. apply py_index_map in Hm as (row & Hrow & _).
  rewrite (bind_ok _ _ _ _ _ (getitem_ok _ _ _ w' Hrow)). by eexists.
Qed.

(** X6. The contract of the discrete coordinate optimizer.  A call of
    [_local_search_discrete] that returns has evaluated only vectors that
    differ from the one given in coordinate [param_idx] at most, where they
    have one of the choices.  With the flag set the result is such a vector,
    the value returned is its acquisition value and it is above the value
    given; with the flag unset the input is returned. *)
Theorem local_search_discrete_returns p x f i choices xtol x' f' updated w w' :
  _local_search_discrete p x f i choices xtol w = (inr (x', f', updated), w') ->
  (exists E, evaluated w E w' /\ Forall (Forall (grid_vector x i choices)) E) /\
  if updated then
    grid_vector x i choices x' /\ f' = acqf p x' /\ (f <? f') = true
  else x' = x /\ f' = f.
Proof.
  unfold _local_search_discrete. intros Hrun.
  apply bind_inr in Hrun as (scale_type & w1 & [_ ->]%getitem_inr & Hrun).
  destruct (_ || _).
  - apply exhaustive_search_detail in Hrun as (current & Hcur & Hev & Hres).
    assert (forall c, c ∈ List.filter (fun c => c !=? current) choices -> c ∈ choices)
      as Hsub.
    { intros c [Hc _]%list_elem_of_In%filter_In. by apply list_elem_of_In. }
    split.
    + eexists. split; [exact Hev|]. apply Forall_singleton, List.Forall_map.
      apply Forall_forall. intros c Hc. exists c. split; [by apply Hsub|done].
    + destruct updated; [|by destruct Hres as (? & ? & _)].
      destruct Hres as (c & Hc & -> & -> & Hlt & _).
      split; [|done]. exists c. split; [by apply Hsub|done].
  - pose proof (discrete_line_search_run p x f i choices xtol w) as Hline.
    rewrite Hrun in Hline. destruct Hline as [(E & Hev & _ & HE) Hres].
    split; [|done]. exists E. split; [done|].
    eapply Forall_impl; [exact HE|]. intros b (v & Hv & ->).
    by apply Forall_singleton.
Qed.

(** X7. The line search evaluates on the grid only, and each point once.
    Whatever the solver asks and however the call ends, the evaluator has
    been handed single vectors that differ from the one given in coordinate
    [param_idx] at most, where they have a point of the grid, and at most
    [len(grids) - 1] of them; the random source and the log are as before. *)
Theorem discrete_line_search_evaluations p x f idx grids xtol w :
  exists E,
    evaluated w E (_discrete_line_search p x f idx grids xtol w).2 /\
    (length E <= length grids - 1)%nat /\
    Forall (fun b => exists v, grid_vector x idx grids v /\ b = [v]) E.
Proof.
  pose proof (discrete_line_search_run p x f idx grids xtol w) as Hrun.
  destruct (_discrete_line_search p x f idx grids xtol w) as [r w'].
  by destruct Hrun as [Hev _].
Qed.

End DiscreteOptimizers.

(** ** The coordinates the optimizers leave alone *)

Lemma put_at_other {A} (idxs : list Z) :
  forall (a vals r : list A) w w' (j : nat),
    Forall (fun i => 0 <= i)%Z idxs ->
    put_at a idxs vals w = (inr r, w') ->
    Z.of_nat j ∉ idxs -> r !! j = a !! j.
Proof.
  induction idxs as [|i idxs IH]; intros a [|v vals] r w w' j Hpos Hrun Hj;
    cbn [put_at] in Hrun; try done.
  { by injection Hrun as <- _. }
  apply Forall_cons in Hpos as [Hi Hpos]. apply not_elem_of_cons in Hj as [Hji Hj].
  apply bind_inr in Hrun as (a' & w1 & (-> & -> & _ & _)%setitem_inr & Hrun).
  rewrite (IH _ _ _ _ _ j Hpos Hrun Hj).
  rewrite update_at_insert by done. apply list_lookup_insert_ne. lia.
Qed.

Section GradientCoordinates.

Context `{Externals}.

Lemma negative_acqf_with_grad_other p idxs ls q (x np : list float) r np' w w' :
  Forall (fun i => 0 <= i)%Z idxs ->
  (length np = length x /\ forall j : nat, Z.of_nat j ∉ idxs -> np !! j = x !! j) ->
  negative_acqf_with_grad p idxs ls q np w = (inr (r, np'), w') ->
  length np' = length x /\ forall j : nat, Z.of_nat j ∉ idxs -> np' !! j = x !! j.
Proof.
  intros Hpos [Hlen Hother] Hrun. unfold negative_acqf_with_grad in Hrun.
  apply bind_inr in Hrun as (v & w1 & _ & Hrun).
  apply bind_inr in Hrun as (np1 & w2 & Hput & Hrun).
  apply bind_inr in Hrun as ([fval grad] & w3 & _ & Hrun).
  apply bind_inr in Hrun as (g & w4 & _ & Hrun).
  apply bind_inr in Hrun as (g' & w5 & _ & Hrun).
  injection Hrun as _ <- _.
  pose proof (put_at_inr _ _ _ _ _ _ Hput) as [_ Hlen1].
  split; [congruence|]. intros j Hj.
  rewrite (put_at_other _ _ _ _ _ _ j Hpos Hput Hj). by apply Hother.
Qed.

Lemma gradient_ascent_other p x f idxs ls tol x' f' updated w w' :
  Forall (fun i => 0 <= i)%Z idxs ->
  _gradient_ascent p x f idxs ls tol w = (inr (x', f', updated), w') ->
  length x' = length x /\ forall j : nat, Z.of_nat j ∉ idxs -> x' !! j = x !! j.
Proof.
  intros Hpos. unfold _gradient_ascent. case_bool_decide.
  { by intros [= <- _ _ _]. }
  intros Hrun.
  apply bind_inr in Hrun as ([[[z nf] nit] scratch] & w1 & Hsolve & Hrun).
  destruct (_ && _).
  2:{ by injection Hrun as <- _ _ _. }
  assert (length scratch = length x /\
          forall j : nat, Z.of_nat j ∉ idxs -> scratch !! j = x !! j)
    as [Hlen Hother].
  { unfold minimize_negative_acqf in Hsolve.
    apply bind_inr in Hsolve as (xc & w2 & _ & Hsolve).
    apply bind_inr in Hsolve as (x0 & w3 & _ & Hsolve).
    apply bind_inr in Hsolve as (pgtol & w4 & _ & Hsolve).
    unfold run_solver in Hsolve.
    eapply (run_from_invariant
              (fun l => length l = length x /\
                 forall j : nat, Z.of_nat j ∉ idxs -> l !! j = x !! j));
      [|split; [reflexivity|done]|exact Hsolve].
    intros q l w5 a l' w6 Hl Hcall.
    by eapply negative_acqf_with_grad_other. }
  apply bind_inr in Hrun as (v & w2 & _ & Hrun).
  apply bind_inr in Hrun as (np & w3 & Hput & Hrun).
  injection Hrun as <- _ _ _.
  pose proof (put_at_inr _ _ _ _ _ _ Hput) as [_ Hlen1].
  split; [congruence|]. intros j Hj.
  rewrite (put_at_other _ _ _ _ _ _ j Hpos Hput Hj). by apply Hother.
Qed.

(** X8. [_gradient_ascent] moves the continuous coordinates only.  Whatever the
    solver does, the vector a call returns has the length of the one it was
    given and agrees with it at every index that is not among
    [continuous_indices]. *)
Theorem gradient_ascent_keeps_other_coordinates
    (acqf_params : AcquisitionFunctionParams) (initial_params : list float)
    (initial_fval : float) (continuous_indices : list Z)
    (lengthscale : list float) (tol : float)
    (x : list float) (f : float) (updated : bool) (w w' : world) :
  Forall (fun i => 0 <= i)%Z continuous_indices ->
  _gradient_ascent acqf_params initial_params initial_fval continuous_indices
    lengthscale tol w = (inr (x, f, updated), w') ->
  length x = length initial_params /\
  forall j : nat,
    Z.of_nat j ∉ continuous_indices -> x !! j = initial_params !! j.
Proof. apply gradient_ascent_other. Qed.

End GradientCoordinates.

Section DriverInvariants.

Context `{Externals}.

Lemma local_search_discrete_inr p x f i choices xtol x' f' updated w w' :
  _local_search_discrete p x f i choices xtol w = (inr (x', f', updated), w') ->
  if updated then
    grid_vector x i choices x' /\ f' = acqf p x' /\ (f <? f') = true
  else x' = x /\ f' = f.
Proof.
  unfold _local_search_discrete. intros Hrun.
  apply bind_inr in Hrun as (scale_type & w1 & [_ ->]%getitem_inr & Hrun).
  destruct (_ || _).
  - apply exhaustive_search_inr in Hrun as (current & Hcur & Hres).
    destruct updated; [|done].
    destruct Hres as (c & Hc & _ & -> & -> & Hlt & _).
    split; [|done]. by exists c.
  - pose proof (discrete_line_search_run p x f i choices xtol w) as Hline.
    rewrite Hrun in Hline. by destruct Hline as [_ Hres].
Qed.

Section Preserves.

Variable I : list float -> float -> Prop.
Variable p : AcquisitionFunctionParams.
Variable idxs : list Z.
Variable ls : list float.
Variable tol : float.
Variable groups : list (Z * list float * float).

Hypothesis I_gradient : forall x f x' f' u w w',
  I x f -> _gradient_ascent p x f idxs ls tol w = (inr (x', f', u), w') -> I x' f'.
Hypothesis I_discrete : forall g x f x' f' u w w',
  g ∈ groups -> I x f ->
  _local_search_discrete p x f g.1.1 g.1.2 g.2 w = (inr (x', f', u), w') ->
  I x' f'.

Lemma sweep_discrete_preserves (todo : list (Z * list float * float)) :
  todo ⊆ groups ->
  forall x f last r w w',
    I x f ->
    sweep_discrete p todo (x, f, last) w = (inr r, w') ->
    match r with
    | inl (x', f') => I x' f'
    | inr (x', f', _) => I x' f'
    end.
Proof using I_discrete.
  induction todo as [|[[i choices] xtol] todo IH]; intros Hsub x f last r w w' HI;
    cbn [sweep_discrete].
  - by intros [= <- _].
  - case_bool_decide; [by intros [= <- _]|].
    intros Hrun. apply bind_inr in Hrun as ([[x1 f1] u] & w1 & Hstep & Hrun).
    eapply IH; [|  |exact Hrun].
    + intros g Hg. apply Hsub. by right.
    + eapply (I_discrete (i, choices, xtol)); [|exact HI|exact Hstep].
      apply Hsub. by left.
Qed.

Lemma sweeps_preserves (iters : nat) :
  forall x f last x' f' w w',
    I x f ->
    sweeps p idxs ls tol groups iters (x, f, last) w = (inr (x', f'), w') ->
    I x' f'.
Proof using I_gradient I_discrete.
  induction iters as [|iters IH]; intros x f last x' f' w w' HI; cbn [sweeps].
  - intros Hrun. apply bind_inr in Hrun as ([] & w1 & _ & Hrun).
    by injection Hrun as <- <- _.
  - case_bool_decide; [by intros [= <- <- _]|].
    intros Hrun. apply bind_inr in Hrun as ([[x1 f1] u] & w1 & Hgrad & Hrun).
    apply bind_inr in Hrun as (r & w2 & Hsweep & Hrun).
    pose proof (I_gradient _ _ _ _ _ _ _ HI Hgrad) as HI1.
    pose proof (sweep_discrete_preserves groups (reflexivity _) _ _ _ _ _ _ HI1 Hsweep)
      as HI2.
    destruct r as [[x2 f2]|[[x2 f2] [i|]]].
    + by injection Hrun as <- <- _.
    + by eapply IH.
    + by injection Hrun as <- <- _.
Qed.

End Preserves.

Lemma np_where_from_elem_of {A} (q : A -> bool) (a : list A) :
  forall (k i : Z),
    i ∈ np_where_from q a k ->
    exists x, a !! Z.to_nat (i - k) = Some x /\ q x = true /\ (k <= i)%Z.
Proof.
  induction a as [|y a IH]; intros k i; cbn [np_where_from];
    [by intros ?%elem_of_nil|].
  assert (i ∈ np_where_from q a (k + 1) ->
          exists x, (y :: a) !! Z.to_nat (i - k) = Some x /\ q x = true /\ (k <= i)%Z)
    as Hrest.
  { intros (x & Hx & Hq & Hk)%IH. exists x. split; [|split; [done|lia]].
    replace (Z.to_nat (i - k)) with (S (Z.to_nat (i - (k + 1)))) by lia. done. }
  destruct (q y) eqn:Hy; [|done].
  intros [->|Hin]%elem_of_cons; [|by apply Hrest].
  exists y. replace (Z.to_nat (k - k)) with 0%nat by lia. split; [done|].
  split; [done|lia].
Qed.

Lemma parameter_groups_disjoint p idxs ls groups w w' :
  parameter_groups p w = (inr (idxs, ls, groups), w') ->
  Forall (fun i => 0 <= i)%Z idxs /\
  forall i, i ∈ idxs -> i ∉ (fun g => g.1.1) <$> groups.
Proof.
  unfold parameter_groups. intros Hrun.
  apply bind_inr in Hrun as (isl & w1 & _ & Hrun).
  apply bind_inr in Hrun as (choices & w2 & _ & [= <- _ <- _]).
  split; [apply np_where_from_ge|].
  intros i (x & Hx & Hzero & _)%np_where_from_elem_of
    (x' & Hx' & Hpos & _)%zip3_index_elem_of%np_where_from_elem_of.
  assert (x' = x) as -> by congruence. cbv beta in Hzero, Hpos.
  apply eqb_eq in Hzero as ->. by vm_compute in Hpos.
Qed.

Lemma NoDup_fmap_elem_of {A B} (g : A -> B) (l : list A) (a b : A) :
  NoDup (g <$> l) -> a ∈ l -> b ∈ l -> g a = g b -> a = b.
Proof.
  induction l as [|c l IH]; [by intros _ ?%elem_of_nil|].
  cbn [fmap list_fmap]. intros [Hc Hnd]%NoDup_cons Ha Hb Hab.
  apply elem_of_cons in Ha as [->|Ha]; apply elem_of_cons in Hb as [->|Hb];
    [done| | |by apply IH].
  - exfalso. apply Hc. rewrite Hab. by apply list_elem_of_fmap_2.
  - exfalso. apply Hc. rewrite <- Hab. by apply list_elem_of_fmap_2.
Qed.

Lemma on_grids_gradient p idxs ls tol groups x0 x f x' f' u w w' :
  Forall (fun i => 0 <= i)%Z idxs ->
  Forall (fun g => (0 <= g.1.1)%Z) groups ->
  (forall i, i ∈ idxs -> i ∉ (fun g => g.1.1) <$> groups) ->
  on_grids idxs groups x0 x ->
  _gradient_ascent p x f idxs ls tol w = (inr (x', f', u), w') ->
  on_grids idxs groups x0 x'.
Proof.
  intros Hpos Hgpos Hdisj (Hlen & Hgrid & Hother) Hrun.
  apply gradient_ascent_other in Hrun as [Hlen' Hsame]; [|done].
  split; [congruence|]. split.
  - rewrite Forall_forall in Hgrid, Hgpos. apply Forall_forall.
    intros g Hg. destruct (Hgrid g Hg) as (c & Hc & Hin).
    exists c. split; [|done]. specialize (Hgpos g Hg).
    rewrite py_index_lookup in * by done. rewrite <- Hc. apply Hsame.
    rewrite Z2Nat.id by done. intros Hidx. apply (Hdisj _ Hidx).
    by apply (list_elem_of_fmap_2 (fun g => g.1.1)).
  - intros j Hj Hjg. rewrite Hsame by done. by apply Hother.
Qed.

Lemma on_grids_discrete p idxs groups x0 g x f x' f' u w w' :
  Forall (fun g => (0 <= g.1.1)%Z) groups ->
  NoDup ((fun g => g.1.1) <$> groups) ->
  g ∈ groups ->
  on_grids idxs groups x0 x ->
  _local_search_discrete p x f g.1.1 g.1.2 g.2 w = (inr (x', f', u), w') ->
  on_grids idxs groups x0 x'.
Proof.
  intros Hgpos Hnd Hg (Hlen & Hgrid & Hother) Hrun.
  apply local_search_discrete_inr in Hrun.
  destruct u; [|by destruct Hrun as [-> _]].
  destruct Hrun as [(c & Hc & ->) _].
  rewrite Forall_forall in Hgrid, Hgpos.
  pose proof (Hgpos g Hg) as Hi.
  split; [by rewrite length_update_at|]. split.
  - apply Forall_forall. intros g' Hg'.
    destruct (Hgrid g' Hg') as (c' & Hc' & Hin').
    destruct (decide (g'.1.1 = g.1.1)) as [Heq|Hne].
    + assert (g' = g) as -> by by eapply (NoDup_fmap_elem_of (fun g => g.1.1)).
      exists c. split; [|done]. by eapply py_index_update_at.
    + exists c'. split; [|done].
      rewrite py_index_update_at_ne; [done..| |done]. by apply Hgpos.
  - intros j Hj Hjg. rewrite update_at_insert by done.
    rewrite list_lookup_insert_ne; [by apply Hother|].
    intros Heq. apply Hjg. rewrite <- Heq, Z2Nat.id by done.
    by apply (list_elem_of_fmap_2 (fun g => g.1.1)).
Qed.

(** X9. [local_search_mixed] keeps the vector in the search space.  When the
    discrete coordinates of the start vector are on their grids, so are
    those of the vector returned; the two vectors have one length, and a
    coordinate that is neither continuous nor discrete (its step is negative
    or NaN) is returned as it was given. *)
Theorem local_search_mixed_stays_on_grid
    (acqf_params : AcquisitionFunctionParams)
    (initial_normalized_params : list float) (tol : float) (max_iter : Z)
    (w : world) (continuous_indices : list Z) (lengthscale : list float)
    (groups : list (Z * list float * float))
    (x : list float) (f : float) (w' : world) :
  parameter_groups acqf_params w = (inr (continuous_indices, lengthscale, groups), w) ->
  Forall (on_grid initial_normalized_params) groups ->
  local_search_mixed acqf_params initial_normalized_params tol max_iter w
  = (inr (x, f), w') ->
  length x = length initial_normalized_params /\
  Forall (on_grid x) groups /\
  forall j : nat,
    Z.of_nat j ∉ continuous_indices ->
    Z.of_nat j ∉ (fun g => g.1.1) <$> groups ->
    x !! j = initial_normalized_params !! j.
Proof.
  intros Hgroups Hstart. unfold local_search_mixed. rewrite (bind_ok _ _ _ _ _ Hgroups).
  intros Hrun. apply bind_inr in Hrun as (f0 & w1 & _ & Hrun).
  pose proof (parameter_groups_inr _ _ _ _ _ _ Hgroups) as [_ Hgpos].
  pose proof (parameter_groups_NoDup _ _ _ _ _ _ Hgroups) as Hnd.
  pose proof (parameter_groups_disjoint _ _ _ _ _ _ Hgroups) as [Hpos Hdisj].
  eapply (sweeps_preserves
            (fun x _ => on_grids continuous_indices groups initial_normalized_params x));
    [| | |exact Hrun].
  - intros. by eapply on_grids_gradient.
  - intros. by eapply on_grids_discrete.
  - by split.
Qed.

Lemma np_where_from_nil {A} (q : A -> bool) (a : list A) :
  Forall (fun x => q x = false) a -> forall k, np_where_from q a k = [].
Proof.
  induction 1 as [|x a Hx _ IH]; intros k; cbn [np_where_from]; [done|].
  by rewrite Hx.
Qed.

Lemma local_search_mixed_value_inr p x0 tol max_iter x f w w' :
  Forall (fun s => (s =? zero) = false) (steps (search_space p)) ->
  local_search_mixed p x0 tol max_iter w = (inr (x, f), w') ->
  f = acqf p x.
Proof.
  intros Hsteps. unfold local_search_mixed. intros Hrun.
  apply bind_inr in Hrun as ([[idxs ls] groups] & w1 & Hgroups & Hrun).
  assert (idxs = []) as ->.
  { unfold parameter_groups in Hgroups.
    apply bind_inr in Hgroups as (isl & w2 & _ & Hgroups).
    apply bind_inr in Hgroups as (choices & w3 & _ & [= <- _ _ _]).
    by apply np_where_from_nil. }
  apply bind_inr in Hrun as (f0 & w2 & Heval & Hrun).
  unfold eval_acqf_no_grad1 in Heval.
  apply bind_inr in Heval as (? & ? & _ & [= <- <-]).
  eapply (sweeps_preserves (fun x f => f = acqf p x)); [| | |exact Hrun].
  - by intros xa fa xb fb u wa wb -> [= <- <- _ _].
  - intros g xa fa xb fb u wa wb _ -> Hstep.
    apply local_search_discrete_inr in Hstep.
    destruct u; [by destruct Hstep as (_ & ? & _)|by destruct Hstep as [-> ->]].
  - done.
Qed.

Lemma search_from_value p tol starts :
  Forall (fun s => (s =? zero) = false) (steps (search_space p)) ->
  forall x f x' f' w w',
    f = acqf p x ->
    search_from p tol starts x f w = (inr (x', f'), w') ->
    f' = acqf p x'.
Proof.
  intros Hsteps. induction starts as [|s starts IH]; intros x f x' f' w w' Hf;
    cbn [search_from].
  - by intros [= <- <- _].
  - intros Hrun. apply bind_inr in Hrun as ([x1 f1] & w1 & Hsearch & Hrun).
    apply local_search_mixed_value_inr in Hsearch; [|done].
    destruct (f1 >? f); (eapply IH; [|exact Hrun]; done).
Qed.

(** X10. Without continuous parameters the value returned is the value of the
    vector returned.  In a search space none of whose steps is zero, the
    value that [local_search_mixed] returns is the acquisition value of the
    vector it returns, whichever optimizer found it, and so is the value that
    [optimize_acqf_mixed] returns. *)
Theorem discrete_search_returns_value_of_vector
    (acqf_params : AcquisitionFunctionParams) :
  Forall (fun s => (s =? zero) = false) (steps (search_space acqf_params)) ->
  (forall initial_normalized_params tol max_iter w x f w',
     local_search_mixed acqf_params initial_normalized_params tol max_iter w
     = (inr (x, f), w') ->
     f = acqf acqf_params x) /\
  (forall given_initial_xs n_additional_samples n_local_search tol w x f w',
     optimize_acqf_mixed acqf_params given_initial_xs n_additional_samples
       n_local_search tol w = (inr (x, f), w') ->
     f = acqf acqf_params x).
Proof.
  intros Hsteps. split.
  { intros ? ? ? ? ? ? ?. by apply local_search_mixed_value_inr. }
  intros given n_samples n_search tol w x f w'.
  unfold optimize_acqf_mixed. intros Hrun.
  apply bind_inr in Hrun as ([] & w1 & _ & Hrun).
  apply bind_inr in Hrun as (sampled_xs & w2 & _ & Hrun).
  rewrite bind_unfold, eval_acqf_no_grad_run in Hrun.
  apply bind_inr in Hrun as (max_i & w4 & _ & Hrun).
  apply bind_inr in Hrun as (probs & w5 & _ & Hrun).
  apply bind_inr in Hrun as (idxs & w6 & _ & Hrun).
  apply bind_inr in Hrun as (best_x & w7 & [Hx _]%getitem_inr & Hrun).
  apply bind_inr in Hrun as (best_f & w8 & [Hf _]%getitem_inr & Hrun).
  apply bind_inr in Hrun as (rest & w9 & _ & Hrun).
  eapply search_from_value; [done| |exact Hrun].
  apply py_index_map in Hf as (row & Hrow & ->). congruence.
Qed.

End DriverInvariants.

(** ** The start points of the multi-start driver *)

Section MultiStart.

Context `{Externals}.

Lemma assert_true (msg : string) (w : world) : assert true msg w = (inr tt, w).
Proof. done. Qed.

(** X11. An empty pool is an error.  When the sampler returns no point (as for
    [n_additional_samples = 0]), [optimize_acqf_mixed] hands the evaluator an
    empty batch and raises the [ValueError] of [np.argmax], whatever seed
    points it was given. *)
Theorem optimize_acqf_mixed_empty_pool
    (acqf_params : AcquisitionFunctionParams)
    (given_initial_xs : option (list (list float)))
    (n_additional_samples n_local_search : Z) (tol : float) (w : world) :
  let sampled :=
    sample_normalized_params n_additional_samples (search_space acqf_params)
      (rng w) in
  (Z.of_nat (length (default [] given_initial_xs)) <= n_local_search - 1)%Z ->
  sampled.1 = [] ->
  optimize_acqf_mixed acqf_params given_initial_xs n_additional_samples
    n_local_search tol w
  = (inl (ValueError "attempt to get argmax of an empty sequence"),
     World sampled.2 (evals w ++ [[]]) (warnings w)).
Proof.
  intros sampled Hseeds Hempty. unfold optimize_acqf_mixed.
  rewrite bool_decide_eq_true_2 by done.
  rewrite (bind_ok _ _ _ _ _ (assert_true _ w)).
  rewrite bind_unfold. fold sampled. destruct sampled as [xs r].
  cbn [fst snd] in *. subst xs. done.
Qed.

Lemma filter_length_lt {A} (P : A -> bool) (l : list A) (k : nat) (y : A) :
  l !! k = Some y -> P y = false ->
  (length (List.filter P l) < length l)%nat.
Proof.
  revert k. induction l as [|x l IH]; intros [|k] Hk Hy; cbn in *; try done.
  - injection Hk as ->. rewrite Hy.
    pose proof (List.filter_length_le P l). lia.
  - specialize (IH k Hk Hy). destruct (P x); cbn; lia.
Qed.

Lemma zero_div_not_positive (t : float) : (zero / t >? zero) = false.
Proof.
  destruct t as [b| | |]; try done.
  unfold div, zero, of_Z. case_bool_decide as Hb; [done|].
  unfold gtb, ltb. apply bool_decide_eq_false.
  rewrite Z2Qc_inj_0. unfold Qcdiv. rewrite Qcmult_0_l.
  intros Habs. by apply Qclt_not_eq in Habs.
Qed.

Lemma py_index_lookup_some {A} (a : list A) (i : Z) (x : A) :
  py_index a i = Some x -> exists k : nat, a !! k = Some x /\ (k < length a)%nat /\
    forall v, update_at a i v = <[k := v]> a.
Proof.
  unfold py_index, update_at. intros Hx.
  repeat case_bool_decide; try done; eexists; (split; [exact Hx|]);
    (split; [by eapply lookup_lt_Some|done]).
Qed.

(** X12. The pool must hold a start point for every local search.  When the
    sampler returns fewer points than [n_local_search] less the number of
    seed points, [optimize_acqf_mixed] raises a [ValueError] and runs no
    local search: the best point of the pool has weight zero, so fewer
    points than [rng.choice] is asked for have a positive weight. *)
Theorem optimize_acqf_mixed_small_pool
    (acqf_params : AcquisitionFunctionParams)
    (given_initial_xs : option (list (list float)))
    (n_additional_samples n_local_search : Z) (tol : float) (w : world) :
  let sampled :=
    sample_normalized_params n_additional_samples (search_space acqf_params)
      (rng w) in
  (Z.of_nat (length sampled.1)
   < n_local_search - Z.of_nat (length (default [] given_initial_xs)))%Z ->
  exists msg,
    optimize_acqf_mixed acqf_params given_initial_xs n_additional_samples
      n_local_search tol w
    = (inl (ValueError msg),
       World sampled.2 (evals w ++ [sampled.1]) (warnings w)).
Proof.
  intros sampled Hsmall. unfold optimize_acqf_mixed.
  rewrite bool_decide_eq_true_2 by lia.
  rewrite (bind_ok _ _ _ _ _ (assert_true _ w)).
  rewrite bind_unfold. fold sampled. destruct sampled as [pool r].
  cbn [fst snd] in *.
  rewrite bind_unfold, eval_acqf_no_grad_run. cbn [rng evals warnings].
  set (w1 := World r _ _). set (f_vals := map _ pool).
  rewrite bind_unfold.
  destruct (np_argmax f_vals w1) as [[e|max_i] w2] eqn:Hmax.
  { unfold np_argmax in Hmax. destruct f_vals; [|done].
    injection Hmax as <- <-. by eexists. }
  apply np_argmax_inr in Hmax as (-> & m & Hm & _).
  rewrite bind_unfold. unfold softmax_probs.
  rewrite (bind_ok _ _ _ _ _ (getitem_ok _ _ _ w1 Hm)).
  set (raw := map _ f_vals).
  assert (valid_index (length raw) max_i) as Hvalid.
  { subst raw. rewrite length_map. apply py_index_valid. by eexists. }
  rewrite (bind_ok _ _ _ _ _ (setitem_ok _ _ zero w1 Hvalid)).
  cbn [ret]. set (probs := map _ (update_at raw max_i zero)).
  assert (length probs = length pool) as Hlen.
  { subst probs raw f_vals. by rewrite length_map, length_update_at, !length_map. }
  assert (length (List.filter (fun v => v >? zero) probs) < length pool)%nat
    as Hcount.
  { rewrite <- Hlen. apply py_index_valid in Hvalid as [y Hy].
    apply py_index_lookup_some in Hy as (k & Hk & Hlt & Hupd).
    apply (filter_length_lt _ _ k (zero / np_sum (update_at raw max_i zero))).
    - subst probs. rewrite Hupd.
      change (map ?g ?l) with (g <$> l). rewrite list_lookup_fmap.
      by rewrite list_lookup_insert_eq.
    - apply zero_div_not_positive. }
  rewrite bind_unfold. unfold rng_choice. rewrite Hlen.
  repeat (match goal with
          | |- context [if ?c then raise ?e else _] =>
              destruct c eqn:?; [by eexists|]
          end).
  rewrite bool_decide_eq_false in *. lia.
Qed.

Lemma local_search_mixed_ge_start p x0 tol max_iter x f w w' :
  is_nan (acqf p x0) = false ->
  local_search_mixed p x0 tol max_iter w = (inr (x, f), w') ->
  (acqf p x0 <=? f) = true.
Proof.
  intros Hnum. unfold local_search_mixed. intros Hrun.
  apply bind_inr in Hrun as ([[idxs ls] groups] & w1 & _ & Hrun).
  apply bind_inr in Hrun as (f0 & w2 & Heval & Hrun).
  unfold eval_acqf_no_grad1 in Heval.
  apply bind_inr in Heval as (? & ? & _ & [= <- <-]).
  eapply sweeps_monotone; [|exact Hrun]. by apply leb_refl.
Qed.

Lemma search_from_dominates_starts p tol starts :
  forall x f x' f' w w',
    is_nan f = false ->
    search_from p tol starts x f w = (inr (x', f'), w') ->
    Forall (fun s => is_nan (acqf p s) = false -> (acqf p s <=? f') = true) starts.
Proof.
  induction starts as [|s starts IH]; intros x f x' f' w w' Hf;
    cbn [search_from]; [done|].
  intros Hrun. apply bind_inr in Hrun as ([x1 f1] & w1 & Hsearch & Hrun).
  apply Forall_cons.
  destruct (f1 >? f) eqn:Hgt.
  - pose proof Hgt as [_ Hf1]%ltb_not_nan. split; [|by eapply IH].
    intros Hs. eapply search_from_monotone; [|exact Hrun].
    by eapply local_search_mixed_ge_start.
  - split; [|by eapply IH]. intros Hs.
    pose proof (local_search_mixed_ge_start _ _ _ _ _ _ _ _ Hs Hsearch) as Hle.
    eapply search_from_monotone; [|exact Hrun].
    eapply leb_trans; [exact Hle|].
    destruct (f1 <=? f) eqn:Hle1; [done|].
    apply leb_total in Hle1; [|by apply leb_not_nan in Hle as [_ ?]|done].
    unfold gtb in Hgt. congruence.
Qed.

(** X13. The result is at least as good as every seed point.  When the values of
    the pool are numbers, the value [optimize_acqf_mixed] returns is at least
    the acquisition value of each vector of [given_initial_xs] whose value
    is a number. *)
Theorem optimize_acqf_mixed_dominates_seeds
    (acqf_params : AcquisitionFunctionParams)
    (given_initial_xs : list (list float))
    (n_additional_samples n_local_search : Z) (tol : float)
    (w : world) (x : list float) (f : float) (w' : world) :
  let pool :=
    (sample_normalized_params n_additional_samples
       (search_space acqf_params) (rng w)).1 in
  Forall (fun q => is_nan (acqf acqf_params q) = false) pool ->
  optimize_acqf_mixed acqf_params (Some given_initial_xs) n_additional_samples
    n_local_search tol w = (inr (x, f), w') ->
  Forall (fun s => is_nan (acqf acqf_params s) = false ->
                   (acqf acqf_params s <=? f) = true) given_initial_xs.
Proof.
  intros pool Hnum. unfold optimize_acqf_mixed. intros Hrun.
  apply bind_inr in Hrun as ([] & w1 & Hassert & Hrun).
  assert (w1 = w) as ->.
  { unfold assert in Hassert. destruct (bool_decide _); [|done].
    by injection Hassert. }
  apply bind_inr in Hrun as (sampled_xs & w2 & Hsample & Hrun).
  assert (sampled_xs = pool) as ->.
  { subst pool. destruct (sample_normalized_params _ _ _).
    by injection Hsample. }
  rewrite bind_unfold, eval_acqf_no_grad_run in Hrun.
  apply bind_inr in Hrun as (max_i & w4 & _ & Hrun).
  apply bind_inr in Hrun as (probs & w5 & _ & Hrun).
  apply bind_inr in Hrun as (idxs & w6 & _ & Hrun).
  apply bind_inr in Hrun as (best_x & w7 & _ & Hrun).
  apply bind_inr in Hrun as (best_f & w8 & [Hbest _]%getitem_inr & Hrun).
  apply bind_inr in Hrun as (rest & w9 & _ & Hrun).
  apply search_from_dominates_starts in Hrun.
  - cbn [default] in Hrun. apply Forall_app in Hrun as [_ Hrun].
    by apply Forall_app in Hrun as [_ Hrun].
  - apply py_index_map in Hbest as (q & Hq & ->).
    rewrite Forall_forall in Hnum. apply Hnum. by eapply py_index_elem_of.
Qed.

End MultiStart.

(** ** Tolerance, category codes and weights *)

Section Edges.

Context `{Externals}.

Lemma take_at_ok {A} (a : list A) (idxs : list Z) (w : world) :
  Forall (valid_index (length a)) idxs ->
  exists r, take_at a idxs w = (inr r, w) /\ length r = length idxs.
Proof.
  induction 1 as [|i idxs Hi _ [r [IH Hlen]]]; [by exists []|].
  cbn [take_at]. apply py_index_valid in Hi as [x Hx].
  rewrite (bind_ok _ _ _ _ _ (getitem_ok _ _ _ w Hx)).
  rewrite (bind_ok _ _ _ _ _ IH). exists (x :: r). split; [done|].
  cbn. by rewrite Hlen.
Qed.

(** X14. A negative tolerance is an error of the continuous optimizer only.
    With at least one continuous index, indices that are in bounds and one
    length scale for each, [_gradient_ascent] with [tol < 0] raises the
    [ValueError] of [math.sqrt] before the solver is called and before
    anything is evaluated. *)
Theorem gradient_ascent_negative_tol
    (acqf_params : AcquisitionFunctionParams) (initial_params : list float)
    (initial_fval : float) (continuous_indices : list Z)
    (lengthscale : list float) (tol : float) (w : world) :
  continuous_indices <> [] ->
  Forall (valid_index (length initial_params)) continuous_indices ->
  length lengthscale = length continuous_indices ->
  (tol <? zero) = true ->
  _gradient_ascent acqf_params initial_params initial_fval continuous_indices
    lengthscale tol w
  = (inl (ValueError "math domain error"), w).
Proof.
  intros Hne Hvalid Hlen Htol. unfold _gradient_ascent.
  rewrite bool_decide_eq_false_2 by by destruct continuous_indices.
  rewrite bind_unfold. unfold minimize_negative_acqf.
  destruct (take_at_ok initial_params continuous_indices w Hvalid) as (xc & Hxc & Hlenxc).
  rewrite (bind_ok _ _ _ _ _ Hxc).
  destruct (np_zip_with_ok div xc lengthscale w) as [x0 Hx0]; [congruence|].
  rewrite (bind_ok _ _ _ _ _ Hx0).
  rewrite bind_unfold. unfold math_sqrt. by rewrite Htol.
Qed.

Lemma np_arange_codes (k : Z) (w : world) :
  np_arange zero (of_Z k) one w
  = (inr (map (fun j : nat => of_Z (Z.of_nat j)) (seq 0 (Z.to_nat k))), w).
Proof.
  unfold np_arange.
  assert ((of_Z k - zero) / one = of_Z k) as ->.
  { unfold zero, one, of_Z, sub. cbn [neg add div].
    rewrite bool_decide_eq_false_2.
    2:{ rewrite <- Z2Qc_inj_0. intros Heq%Z2Qc_inj. lia. }
    f_equal. rewrite Z2Qc_inj_0, Z2Qc_inj_1. field. by intros ?. }
  unfold of_Z at 1. cbn [Qc_of_Z this]. rewrite Qceiling_Z.
  unfold ret. do 2 f_equal. apply map_ext. intros j.
  unfold zero, one, of_Z. cbn [mul add]. f_equal.
  rewrite Z2Qc_inj_0, Z2Qc_inj_1. ring.
Qed.

(** X15. The choices of a categorical parameter are its category codes.  For a
    categorical parameter whose upper bound is the integer [k],
    [local_search_mixed] takes [0, 1, ..., k - 1] as the choices, whatever
    the lower bound and the step; there is no choice when [k <= 0]. *)
Theorem choices_of_categorical (space : SearchSpace) (i : Z) (lo : float)
    (k : Z) (w : world) :
  py_index (scale_types space) i = Some CATEGORICAL ->
  py_index (bounds space) i = Some (lo, of_Z k) ->
  choices_of space i w
  = (inr (map (fun j : nat => of_Z (Z.of_nat j)) (seq 0 (Z.to_nat k))), w).
Proof.
  intros Hscale Hbounds. unfold choices_of.
  rewrite (bind_ok _ _ _ _ _ (getitem_ok _ _ _ w Hscale)).
  rewrite (bind_ok _ _ _ _ _ (getitem_ok _ _ _ w Hbounds)).
  rewrite bool_decide_eq_true_2 by done. apply np_arange_codes.
Qed.

Lemma foldl_add_Fin (qs : list Qc) :
  forall a : Qc, foldl add (Fin a) (Fin <$> qs) = Fin (foldl Qcplus a qs).
Proof. induction qs as [|q qs IH]; intros a; [done|]. cbn. apply IH. Qed.

Lemma foldl_Qcplus_div (t : Qc) (qs : list Qc) :
  forall a : Qc,
    foldl Qcplus (a / t)%Qc ((fun q => q / t)%Qc <$> qs) = (foldl Qcplus a qs / t)%Qc.
Proof.
  induction qs as [|q qs IH]; intros a; [done|]. cbn.
  rewrite <- IH. f_equal. unfold Qcdiv. ring.
Qed.

Lemma forallb_update_at (P : float -> bool) (a : list float) (i : Z) (v : float) :
  forallb P a = true -> P v = true -> forallb P (update_at a i v) = true.
Proof.
  rewrite !forallb_forall. intros Ha Hv x Hx%list_elem_of_In.
  unfold update_at in Hx. repeat case_bool_decide;
    try (by apply Ha, list_elem_of_In).
  all: apply list_elem_of_lookup in Hx as [k Hk];
    apply list_lookup_insert_Some in Hk as [(_ & <- & _)|[_ Hk']]; [done|];
    by eapply Ha, list_elem_of_In, list_elem_of_lookup_2.
Qed.

(** X16. The weights of the start points are normalized.  When the exponentials
    of line 299 are finite and the weights sum to something other than zero
    once the best point's weight is set to zero, the weights that
    [optimize_acqf_mixed] hands to [rng.choice] are as many as the points of
    the pool, the weight of the best point is zero and the weights sum to
    one (exactly, the finite values being exact here). *)
Theorem softmax_probs_normalized (f_vals : list float) (max_i : Z)
    (f_max : float) (w : world) :
  (0 <= max_i)%Z ->
  py_index f_vals max_i = Some f_max ->
  let raw := update_at (map (fun v => exp (v - f_max)) f_vals) max_i zero in
  forallb is_finite (map (fun v => exp (v - f_max)) f_vals) = true ->
  np_sum raw <> zero ->
  exists probs,
    softmax_probs f_vals max_i w = (inr probs, w) /\
    length probs = length f_vals /\
    py_index probs max_i = Some zero /\
    np_sum probs = one.
Proof.
  intros Hpos Hmax raw Hfin Htotal. unfold softmax_probs.
  rewrite (bind_ok _ _ _ _ _ (getitem_ok _ _ _ w Hmax)).
  assert (valid_index (length (map (fun v => exp (v - f_max)) f_vals)) max_i)
    as Hvalid.
  { rewrite length_map. apply py_index_valid. by eexists. }
  rewrite (bind_ok _ _ _ _ _ (setitem_ok _ _ zero w Hvalid)). fold raw.
  eexists. split; [done|].
  assert (length raw = length f_vals) as Hlen.
  { subst raw. by rewrite length_update_at, length_map. }
  split; [by rewrite length_map|].
  assert (py_index raw max_i = Some zero) as Hzero.
  { apply py_index_valid in Hvalid as [y Hy]. subst raw.
    by eapply py_index_update_at. }
  destruct (finite_grid raw) as [qs Hqs].
  { subst raw. by apply forallb_update_at. }
  rewrite Hqs in *. unfold np_sum in *.
  set (t := foldl Qcplus (Qc_of_Z 0) qs).
  assert (foldl add zero (Fin <$> qs) = Fin t) as Htot by apply foldl_add_Fin.
  rewrite Htot in *.
  assert (t <> Qc_of_Z 0) as Ht by (intros Heq; apply Htotal; by rewrite Heq).
  assert (map (fun p => p / Fin t) (Fin <$> qs) = Fin <$> ((fun q => q / t)%Qc <$> qs))
    as ->.
  { change (map ?g ?l) with (g <$> l). rewrite <- !list_fmap_compose.
    apply list_fmap_ext. intros _ q _. cbn [compose div].
    rewrite bool_decide_eq_false_2; [done|]. by rewrite <- Z2Qc_inj_0. }
  clear Htot.
  split.
  - change (Fin <$> ?l) with (map Fin l) at 1.
    rewrite py_index_lookup in * by done.
    change (map ?g ?l) with (g <$> l) in *.
    rewrite !list_lookup_fmap in *.
    destruct (qs !! Z.to_nat max_i) as [q|]; [|done].
    cbn in *. injection Hzero as ->. unfold zero, of_Z. do 2 f_equal.
    rewrite Z2Qc_inj_0. unfold Qcdiv. ring.
  - unfold zero, of_Z. rewrite foldl_add_Fin.
    replace (Qc_of_Z 0) with (Qc_of_Z 0 / t)%Qc at 1
      by (rewrite Z2Qc_inj_0; unfold Qcdiv; ring).
    rewrite foldl_Qcplus_div. fold t. unfold one, of_Z. f_equal.
    rewrite Z2Qc_inj_1. unfold Qcdiv. apply Qcmult_inv_r.
    by rewrite <- Z2Qc_inj_0.
Qed.

End Edges.

(** ** The bracket of the line search *)

Section Bracket.

Context `{Externals}.

Lemma np_searchsorted_grid_point (qs : list Qc) (j : nat) (q : Qc) :
  ascending (Fin <$> qs) = true -> qs !! j = Some q ->
  np_searchsorted (Fin <$> qs) (Fin q) = Z.of_nat j.
Proof.
  intros Hasc Hj.
  destruct (np_searchsorted_spec qs q Hasc) as (r & -> & Hr & Hbelow & Habove).
  f_equal. destruct (Nat.lt_trichotomy r j) as [Hlt|[->|Hgt]]; [|done|].
  - destruct (lookup_lt_is_Some_2 qs r) as [qr Hqr].
    { apply lookup_lt_Some in Hj. lia. }
    pose proof (ascending_Fin_lt qs r j qr q Hasc Hqr Hj Hlt) as Hlt'.
    pose proof (Habove r qr (le_n _) Hqr) as Hle.
    exfalso. by eapply Qclt_not_le.
  - pose proof (Hbelow j q Hgt Hj) as Habs. by apply Qclt_not_eq in Habs.
Qed.

Lemma py_index_last {A} (a : list A) :
  (1 <= length a)%nat -> py_index a (-1) = a !! (length a - 1)%nat.
Proof.
  intros Hlen. unfold py_index.
  rewrite bool_decide_eq_false_2 by lia. rewrite bool_decide_eq_true_2 by lia.
  f_equal. lia.
Qed.

Lemma EPS_positive : exists e : Qc, EPS = Fin e /\ (0 < e)%Qc.
Proof. eexists. split; [reflexivity|]. by vm_compute. Qed.

(** The value of [w_left * neg_left + w_right * neg_right] at a grid point
    whose weight is one, the other point having the weight zero. *)
Lemma weighted_at_grid_point (b : Qc) (near : float) :
  Fin 1 * - Fin b + Fin 0 * - near = (if is_finite near then - Fin b else NaN) /\
  Fin 0 * - near + Fin 1 * - Fin b = (if is_finite near then - Fin b else NaN).
Proof.
  destruct near as [a| | |]; cbn [is_finite neg mul add]; try done.
  split; f_equal; ring.
Qed.

End Bracket.

Section BracketTheorem.

Context `{Externals}.

Lemma weight_zero (a c : Qc) :
  (c < a)%Qc ->
  (Fin a - Fin a) / (Fin a - Fin c) = Fin 0 /\ one - Fin 0 = Fin 1.
Proof.
  intros Hlt. unfold one, of_Z, sub. cbn [neg add div]. split.
  - rewrite bool_decide_eq_false_2 by (intros Heq; qc_lra).
    f_equal. unfold Qcdiv. ring.
  - reflexivity.
Qed.

Lemma weight_one (a c : Qc) :
  (c < a)%Qc ->
  (Fin a - Fin c) / (Fin a - Fin c) = Fin 1 /\ one - Fin 1 = Fin 0.
Proof.
  intros Hlt. unfold one, of_Z, sub. cbn [neg add div].
  assert (a + - c <> 0)%Qc as Hne by (intros Heq; qc_lra). split.
  - rewrite bool_decide_eq_false_2 by done.
    f_equal. unfold Qcdiv. by apply Qcmult_inv_r.
  - reflexivity.
Qed.

Lemma negative_acqf_with_cache_miss p idx grids (i : Z) (g : float)
    (cache : gmap Z float) (np : list float) (w : world) :
  cache !! i = None -> py_index grids i = Some g ->
  valid_index (length np) idx ->
  negative_acqf_with_cache p idx grids i (cache, np) w
  = (inr (- acqf p (update_at np idx g),
          (<[i := - acqf p (update_at np idx g)]> cache, update_at np idx g)),
     World (rng w) (evals w ++ [[update_at np idx g]]) (warnings w)).
Proof.
  intros Hmiss Hg Hvalid. unfold negative_acqf_with_cache. rewrite Hmiss.
  rewrite (bind_ok _ _ _ _ _ (getitem_ok _ _ _ w Hg)).
  by rewrite (bind_ok _ _ _ _ _ (setitem_ok _ _ g w Hvalid)).
Qed.

Lemma negative_acqf_with_cache_hit p idx grids (i : Z) (v : float)
    (l : gmap Z float * list float) (w : world) :
  l.1 !! i = Some v ->
  negative_acqf_with_cache p idx grids i l w = (inr (v, l), w).
Proof.
  destruct l as [cache np]. cbn [fst]. intros Hhit.
  unfold negative_acqf_with_cache. by rewrite Hhit.
Qed.

(** X17. The bracket handed to Brent's method.  On an ascending grid of two
    or more finite points, with the coordinate in bounds and a finite value
    [f] cached for the current grid point, the interpolated objective is
    [inf], and evaluates nothing, at every point strictly below the first
    grid point or strictly above the last: so it is at an end of the
    bracket of line 150, [grids[0] - EPS] or [grids[-1] + EPS], whenever
    taking or adding [EPS] moves that end off its grid point.  At the
    current grid point the objective evaluates the neighbouring grid point
    (the one before, or the second point of the grid when the current point
    is the first) and is [-f] when the value there is finite; when that
    value is infinite or NaN, it is NaN.  (The two weights there are the
    quotients [0 / d] and [d / d] of a difference [d] of two grid points,
    exact here.) *)
Theorem line_search_bracket_values
    (acqf_params : AcquisitionFunctionParams) (initial_params : list float)
    (initial_fval : float) (param_idx : Z) (grids : list float)
    (current_choice_i : nat) (g_current g_near first last : float) (w : world) :
  (2 <= length grids)%nat ->
  forallb is_finite grids = true ->
  ascending grids = true ->
  valid_index (length initial_params) param_idx ->
  grids !! current_choice_i = Some g_current ->
  grids !! (if decide (current_choice_i = 0%nat) then 1%nat
            else (current_choice_i - 1)%nat) = Some g_near ->
  py_index grids 0 = Some first ->
  py_index grids (-1) = Some last ->
  is_finite initial_fval = true ->
  let locals : gmap Z float * list float :=
    ({[ Z.of_nat current_choice_i := - initial_fval ]}, initial_params) in
  let objective := interpolated_negative_acqf acqf_params param_idx grids in
  let near := update_at initial_params param_idx g_near in
  (forall q : float,
     (q <? first) = true \/ (q >? last) = true ->
     objective q locals w = (inr (PInf, locals), w)) /\
  exists locals',
    objective g_current locals w
    = (inr (if is_finite (acqf acqf_params near) then - initial_fval else NaN,
            locals'),
       World (rng w) (evals w ++ [[near]]) (warnings w)).
Proof.
  intros Hlen [qs ->]%finite_grid Hasc Hvalid Hci Hnear Hfirst Hlast Hf
    locals objective near.
  rewrite length_fmap in Hlen.
  rewrite list_lookup_fmap in Hci, Hnear.
  destruct (qs !! current_choice_i) as [qc|] eqn:Hqc; [|done].
  injection Hci as <-.
  destruct (qs !! _) as [qn|] eqn:Hqn in Hnear; [|done].
  injection Hnear as <-.
  change 0%Z with (Z.of_nat 0) in Hfirst.
  rewrite py_index_nonneg, list_lookup_fmap in Hfirst.
  destruct (qs !! 0%nat) as [q0|] eqn:Hq0; [|done]. injection Hfirst as <-.
  pose proof Hlast as Hlast'.
  rewrite py_index_last, list_lookup_fmap, length_fmap in Hlast'
    by (rewrite length_fmap; lia).
  destruct (qs !! (length qs - 1)%nat) as [ql|] eqn:Hql; [|done].
  injection Hlast' as <-.
  assert (py_index (Fin <$> qs) 0 = Some (Fin q0)) as Hfirst.
  { change 0%Z with (Z.of_nat 0).
    by rewrite py_index_nonneg, list_lookup_fmap, Hq0. }
  pose proof (lookup_lt_Some _ _ _ Hqc) as Hcilt.
  assert (q0 <= qc)%Qc as H0c
    by (eapply (ascending_Fin_le qs 0 current_choice_i); [done..|lia]).
  assert (qc <= ql)%Qc as Hcl
    by (eapply (ascending_Fin_le qs current_choice_i (length qs - 1)); [done..|lia]).
  assert (forall q l,
            objective q l w
            = (do first <- getitem (Fin <$> qs) 0;
               do last <- getitem (Fin <$> qs) (-1);
               if (q <? first) || (q >? last) then ret (PInf, l)
               else
                 let right := np_clip (np_searchsorted (Fin <$> qs) q) 1
                                (Z.of_nat (length (Fin <$> qs)) - 1) in
                 let left := (right - 1)%Z in
                 do '(neg_acqf_left, l) <-
                   negative_acqf_with_cache acqf_params param_idx (Fin <$> qs) left l;
                 do '(neg_acqf_right, l) <-
                   negative_acqf_with_cache acqf_params param_idx (Fin <$> qs) right l;
                 do g_right <- getitem (Fin <$> qs) right;
                 do g_left <- getitem (Fin <$> qs) left;
                 let w_left := (g_right - q) / (g_right - g_left) in
                 let w_right := one - w_left in
                 ret (w_left * neg_acqf_left + w_right * neg_acqf_right, l)) w)
    as Hobj by done.
  split.
  - intros q Hq. rewrite Hobj.
    rewrite (bind_ok _ _ _ _ _ (getitem_ok _ _ _ w Hfirst)).
    rewrite (bind_ok _ _ _ _ _ (getitem_ok _ _ _ w Hlast)).
    destruct Hq as [-> | ->]; [done|by rewrite orb_true_r].
  - rewrite Hobj.
    rewrite (bind_ok _ _ _ _ _ (getitem_ok _ _ _ w Hfirst)).
    rewrite (bind_ok _ _ _ _ _ (getitem_ok _ _ _ w Hlast)).
    assert ((Fin qc <? Fin q0) = false) as ->
      by (apply bool_decide_eq_false; intros ?; qc_lra).
    assert ((Fin qc >? Fin ql) = false) as ->
      by (apply bool_decide_eq_false; intros ?; qc_lra).
    cbn [orb]. rewrite (np_searchsorted_grid_point qs _ _ Hasc Hqc), length_fmap.
    cbv zeta. subst locals. destruct initial_fval as [b| | |]; try done.
    destruct (decide (current_choice_i = 0%nat)) as [->|Hne].
    + replace (np_clip (Z.of_nat 0) 1 (Z.of_nat (length qs) - 1)) with (Z.of_nat 1)
        by (unfold np_clip; lia).
      replace (Z.of_nat 1 - 1)%Z with (Z.of_nat 0) by lia.
      assert (q0 = qc) as -> by congruence.
      pose proof (ascending_Fin_lt qs 0 1 qc qn Hasc Hqc Hqn (le_n _)) as Hlt.
      rewrite (bind_ok _ _ _ _ _
                 (negative_acqf_with_cache_hit _ _ _ _ (- Fin b)
                    ({[Z.of_nat 0 := - Fin b]}, initial_params) w
                    (lookup_singleton_eq _ _))).
      assert (({[Z.of_nat 0 := - Fin b]} : gmap Z float) !! Z.of_nat 1 = None)
        as Hmiss by (apply lookup_singleton_ne; lia).
      assert (py_index (Fin <$> qs) (Z.of_nat 1) = Some (Fin qn)) as Hgn
        by (by rewrite py_index_nonneg, list_lookup_fmap, Hqn).
      rewrite (bind_ok _ _ _ _ _
                 (negative_acqf_with_cache_miss acqf_params param_idx
                    (Fin <$> qs) (Z.of_nat 1) (Fin qn) _ initial_params w
                    Hmiss Hgn Hvalid)).
      set (w1 := World _ _ _).
      rewrite (bind_ok _ _ w1 (Fin qn) w1)
        by (apply getitem_ok; by rewrite py_index_nonneg, list_lookup_fmap, Hqn).
      rewrite (bind_ok _ _ w1 (Fin qc) w1)
        by (apply getitem_ok; by rewrite py_index_nonneg, list_lookup_fmap, Hqc).
      destruct (weight_one qn qc Hlt) as [-> ->].
      rewrite (proj1 (weighted_at_grid_point b _)). by eexists.
    + replace (np_clip (Z.of_nat current_choice_i) 1 (Z.of_nat (length qs) - 1))
        with (Z.of_nat current_choice_i) by (unfold np_clip; lia).
      replace (Z.of_nat current_choice_i - 1)%Z
        with (Z.of_nat (current_choice_i - 1)) by lia.
      pose proof (ascending_Fin_lt qs (current_choice_i - 1) current_choice_i
                    qn qc Hasc Hqn Hqc ltac:(lia)) as Hlt.
      assert (({[Z.of_nat current_choice_i := - Fin b]} : gmap Z float)
                !! Z.of_nat (current_choice_i - 1) = None)
        as Hmiss by (apply lookup_singleton_ne; lia).
      assert (py_index (Fin <$> qs) (Z.of_nat (current_choice_i - 1)) = Some (Fin qn))
        as Hgn by (by rewrite py_index_nonneg, list_lookup_fmap, Hqn).
      rewrite (bind_ok _ _ _ _ _
                 (negative_acqf_with_cache_miss acqf_params param_idx
                    (Fin <$> qs) (Z.of_nat (current_choice_i - 1)) (Fin qn) _
                    initial_params w Hmiss Hgn Hvalid)).
      set (w1 := World _ _ _).
      assert ((<[Z.of_nat (current_choice_i - 1) := - acqf acqf_params near]>
                 ({[Z.of_nat current_choice_i := - Fin b]} : gmap Z float))
                !! Z.of_nat current_choice_i = Some (- Fin b)) as Hhit
        by (by rewrite lookup_insert_ne, lookup_singleton_eq by lia).
      rewrite (bind_ok _ _ _ _ _
                 (negative_acqf_with_cache_hit acqf_params param_idx (Fin <$> qs)
                    _ (- Fin b) (_, near) w1 Hhit)).
      rewrite (bind_ok _ _ w1 (Fin qc) w1)
        by (apply getitem_ok; by rewrite py_index_nonneg, list_lookup_fmap, Hqc).
      rewrite (bind_ok _ _ w1 (Fin qn) w1)
        by (apply getitem_ok; by rewrite py_index_nonneg, list_lookup_fmap, Hqn).
      destruct (weight_zero qc qn Hlt) as [-> ->].
      rewrite (proj2 (weighted_at_grid_point b _)). by eexists.
Qed.

End BracketTheorem.

(** ** The result as a coordinate-wise maximum *)

Section LocalMaximum.

Context `{Externals}.

(** X18. The result of the discrete search is a coordinate-wise maximum.  Take a
    search space without continuous parameters in which the dispatcher
    sends every discrete parameter to the exhaustive search, and a start
    vector on the grid.  When [local_search_mixed] returns without the
    warning of the iteration cap, the value returned is the acquisition
    value of the vector returned, and replacing one discrete coordinate of
    that vector by any choice of its parameter gives no greater value,
    provided the values at the choices of that parameter are numbers. *)
Theorem local_search_mixed_coordinatewise_maximum
    (acqf_params : AcquisitionFunctionParams)
    (initial_normalized_params : list float) (tol : float) (max_iter : Z)
    (w : world) (lengthscale : list float)
    (groups : list (Z * list float * float))
    (x : list float) (f : float) (w' : world) :
  parameter_groups acqf_params w = (inr ([], lengthscale, groups), w) ->
  Forall (searched_exhaustively acqf_params) groups ->
  Forall (on_grid initial_normalized_params) groups ->
  local_search_mixed acqf_params initial_normalized_params tol max_iter w
  = (inr (x, f), w') ->
  warnings w' = warnings w ->
  f = acqf acqf_params x /\
  Forall (fun g =>
    Forall (fun c => is_nan (acqf acqf_params (update_at x g.1.1 c)) = false) g.1.2 ->
    Forall (fun c => (acqf acqf_params (update_at x g.1.1 c) <=? f) = true) g.1.2)
    groups.
Proof.
  intros Hgroups Hex Hgrid Hrun Hwarn.
  pose proof (parameter_groups_inr _ _ _ _ _ _ Hgroups) as [_ Hpos].
  pose proof (parameter_groups_NoDup _ _ _ _ _ _ Hgroups) as Hnd.
  unfold local_search_mixed in Hrun.
  rewrite (bind_ok _ _ _ _ _ Hgroups) in Hrun.
  unfold bind at 1, eval_acqf_no_grad1 at 1, bind at 1, ret at 1 in Hrun.
  cbn [log_eval] in Hrun.
  destruct (sweeps_inv acqf_params groups Hex Hpos Hnd lengthscale tol
              (Z.to_nat max_iter) initial_normalized_params
              (acqf acqf_params initial_normalized_params) None x f
              (World (rng w) (evals w ++ [[initial_normalized_params]]) (warnings w))
              w')
    as [[Hf Hon] Hquiet]; [by split|by constructor|exact Hrun|done|].
  split; [done|].
  rewrite Forall_forall in Hquiet, Hex, Hon, Hpos. apply Forall_forall.
  intros g Hg Hnum.
  destruct (Hon g Hg) as (current & Hcur & Hin).
  destruct (Hquiet g Hg w) as [w1 Hstep].
  rewrite local_search_discrete_exhaustive in Hstep by by apply Hex.
  apply exhaustive_search_detail in Hstep as (current' & Hcur' & _ & _ & _ & Hmax).
  assert (current' = current) as -> by congruence.
  assert (acqf acqf_params (update_at x g.1.1 current) = f) as Hself.
  { rewrite update_at_same; [done|by apply Hpos|done]. }
  assert (is_nan f = false) as Hfnum.
  { rewrite <- Hself. rewrite Forall_forall in Hnum. by apply Hnum. }
  rewrite Forall_forall in Hnum.
  assert (Forall (fun c' => (acqf acqf_params (update_at x g.1.1 c') <=? f) = true)
            (List.filter (fun c => c !=? current) g.1.2)) as Hothers.
  { apply Hmax; [done|]. apply Forall_forall.
    intros c [Hc _]%list_elem_of_In%filter_In. by apply Hnum, list_elem_of_In. }
  rewrite Forall_forall in Hothers. apply Forall_forall. intros c Hc.
  destruct (c !=? current) eqn:Hne.
  - apply Hothers, list_elem_of_In, filter_In. split; [by apply list_elem_of_In|done].
  - apply neqb_false_eq in Hne as ->. rewrite Hself. by apply leb_refl.
Qed.

End LocalMaximum.

(** ** A space without parameters to search *)

Section NothingToSearch.

Context `{Externals}.

(** X19. A search space with nothing to search.  When no step is zero and no
    step is positive (an empty space, or steps that are negative or NaN),
    there is no continuous and no discrete parameter: with [max_iter > 0],
    [local_search_mixed] evaluates the start vector once and returns it with
    its value, without a warning. *)
Theorem local_search_mixed_nothing_to_search
    (acqf_params : AcquisitionFunctionParams)
    (initial_normalized_params : list float) (tol : float) (max_iter : Z)
    (w : world) :
  Forall (fun s => (s =? zero) = false /\ (s >? zero) = false)
    (steps (search_space acqf_params)) ->
  (0 < max_iter)%Z ->
  local_search_mixed acqf_params initial_normalized_params tol max_iter w
  = (inr (initial_normalized_params,
          acqf acqf_params initial_normalized_params),
     World (rng w) (evals w ++ [[initial_normalized_params]]) (warnings w)).
Proof.
  intros Hsteps Hiter.
  assert (parameter_groups acqf_params w = (inr ([], [], []), w)) as Hgroups.
  { unfold parameter_groups, np_where.
    rewrite !np_where_from_nil; [done|..];
      (eapply Forall_impl; [exact Hsteps|]); by intros s [? ?]. }
  unfold local_search_mixed. rewrite (bind_ok _ _ _ _ _ Hgroups).
  destruct (Z.to_nat max_iter) as [|iters] eqn:Hn; [lia|]. done.
Qed.

End NothingToSearch.

(** ** When the line search returns *)


Section LineSearchReturns.

Context `{Externals}.




End LineSearchReturns.

(** ** When the discrete search returns *)

Section DiscreteSearchReturns.

Context `{Externals}.

Lemma exhaustive_search_total p x f i choices current c w :
  py_index x i = Some current -> c ∈ choices -> (c !=? current) = true ->
  exists r w', _exhaustive_search p x f i choices w = (inr r, w').
Proof.
  intros Hcur Hc Hne. unfold _exhaustive_search.
  rewrite (bind_ok _ _ _ _ _ (getitem_ok _ _ _ w Hcur)).
  set (others := List.filter _ choices).
  rewrite bind_unfold, eval_acqf_no_grad_run.
  set (w' := World _ _ _). set (fvals := map (acqf p) (map _ others)).
  assert (fvals <> []) as Hfvals.
  { assert (c ∈ others) as Hin
      by (apply list_elem_of_In, filter_In; split; [by apply list_elem_of_In|done]).
    subst fvals. destruct others; [by apply elem_of_nil in Hin|done]. }
  destruct (np_argmax_nonempty fvals w' Hfvals) as [best_idx Hargmax].
  rewrite (bind_ok _ _ _ _ _ Hargmax).
  apply np_argmax_inr in Hargmax as (_ & m & Hm & _).
  rewrite (bind_ok _ _ _ _ _ (getitem_ok _ _ _ w' Hm)).
  destruct (m >? f); [|by eauto].
  subst fvals. apply py_index_map in Hm as (row & Hrow & _).
  rewrite (bind_ok _ _ _ _ _ (getitem_ok _ _ _ w' Hrow)). by eauto.
Qed.

Lemma neqb_of_ne (x y : float) : x <> y -> (x !=? y) = true.
Proof.
  intros Hne. unfold neqb. destruct (x =? y) eqn:Heq; [|done].
  by apply eqb_eq in Heq.
Qed.

Lemma another_choice (choices : list float) (current : float) :
  NoDup choices -> (2 <= length choices)%nat ->
  exists c, c ∈ choices /\ (c !=? current) = true.
Proof.
  destruct choices as [|a [|b rest]]; cbn [length]; [lia..|].
  intros [Hab _]%NoDup_cons _.
  destruct (a !=? current) eqn:Ha.
  - exists a. split; [by left|done].
  - apply neqb_false_eq in Ha as ->. exists b. split; [by right; left|].
    apply neqb_of_ne. intros ->. apply Hab. by left.
Qed.

Section Returns.

Variable p : AcquisitionFunctionParams.
Variable groups : list (Z * list float * float).
Variable x0 : list float.
Hypothesis groups_exhaustive : Forall (searched_exhaustively p) groups.
Hypothesis groups_nonneg : Forall (fun g => (0 <= g.1.1)%Z) groups.
Hypothesis groups_nodup : NoDup ((fun g => g.1.1) <$> groups).
Hypothesis groups_choices :
  Forall (fun g => NoDup g.1.2 /\ (2 <= length g.1.2)%nat) groups.

Lemma sweep_discrete_returns (todo : list (Z * list float * float)) :
  todo ⊆ groups ->
  forall x f last w,
    on_grids [] groups x0 x ->
    exists r w',
      sweep_discrete p todo (x, f, last) w = (inr r, w') /\
      match r with
      | inl (x', _) => on_grids [] groups x0 x'
      | inr (x', _, _) => on_grids [] groups x0 x'
      end.
Proof using All.
  induction todo as [|[[i choices] xtol] todo IH]; intros Hsub x f last w Hon;
    cbn [sweep_discrete].
  - by exists (inr (x, f, last)), w.
  - case_bool_decide; [by exists (inl (x, f)), w|].
    assert ((i, choices, xtol) ∈ groups) as Hg by (apply Hsub; by left).
    rewrite Forall_forall in groups_exhaustive, groups_choices.
    pose proof (local_search_discrete_exhaustive p (i, choices, xtol) x f w
                  (groups_exhaustive _ Hg)) as Hex.
    cbn [fst snd] in Hex.
    destruct Hon as (Hlen & Hgrid & Hother).
    rewrite Forall_forall in Hgrid.
    destruct (Hgrid _ Hg) as (current & Hcur & _). cbn [fst snd] in Hcur.
    destruct (groups_choices _ Hg) as [Hnd Htwo]. cbn [fst snd] in Hnd, Htwo.
    destruct (another_choice choices current Hnd Htwo) as (c & Hc & Hne).
    destruct (exhaustive_search_total p x f i choices current c w Hcur Hc Hne)
      as ([[x1 f1] u] & w1 & Hrun).
    rewrite <- Hex in Hrun. rewrite (bind_ok _ _ _ _ _ Hrun).
    apply IH; [intros g ?; apply Hsub; by right|].
    eapply (on_grids_discrete p [] groups x0 (i, choices, xtol));
      [done..| |exact Hrun].
    split; [done|]. split; [by apply Forall_forall|done].
Qed.

Lemma sweeps_returns ls tol (iters : nat) :
  forall x f last w,
    on_grids [] groups x0 x ->
    exists r w', sweeps p [] ls tol groups iters (x, f, last) w = (inr r, w').
Proof using All.
  induction iters as [|iters IH]; intros x f last w Hon; cbn [sweeps].
  - by eexists _, _.
  - case_bool_decide; [by eexists _, _|].
    unfold _gradient_ascent. rewrite bool_decide_eq_true_2 by done.
    unfold bind at 1. unfold ret at 1.
    destruct (sweep_discrete_returns groups (reflexivity _) x f last w Hon)
      as (r & w1 & Hsweep & Hr).
    rewrite (bind_ok _ _ _ _ _ Hsweep).
    destruct r as [[x2 f2]|[[x2 f2] [i|]]]; [by eexists _, _| |by eexists _, _].
    by apply IH.
Qed.

End Returns.

(** X21. The discrete search returns when every parameter has a choice to turn
    to.  Take a search space without continuous parameters in which the
    dispatcher sends every discrete parameter to the exhaustive search, each
    parameter with two or more distinct choices, and a start vector on the
    grid.  Then [local_search_mixed] raises nothing: it returns a vector and
    a value. *)
Theorem local_search_mixed_returns
    (acqf_params : AcquisitionFunctionParams)
    (initial_normalized_params : list float) (tol : float) (max_iter : Z)
    (w : world) (lengthscale : list float)
    (groups : list (Z * list float * float)) :
  parameter_groups acqf_params w = (inr ([], lengthscale, groups), w) ->
  Forall (searched_exhaustively acqf_params) groups ->
  Forall (on_grid initial_normalized_params) groups ->
  Forall (fun g => NoDup g.1.2 /\ (2 <= length g.1.2)%nat) groups ->
  exists r w',
    local_search_mixed acqf_params initial_normalized_params tol max_iter w
    = (inr r, w').
Proof.
  intros Hgroups Hex Hgrid Hchoices.
  pose proof (parameter_groups_inr _ _ _ _ _ _ Hgroups) as [_ Hpos].
  pose proof (parameter_groups_NoDup _ _ _ _ _ _ Hgroups) as Hnd.
  unfold local_search_mixed. rewrite (bind_ok _ _ _ _ _ Hgroups).
  unfold bind at 1, eval_acqf_no_grad1 at 1, bind at 1, ret at 1.
  cbn [log_eval].
  by apply (sweeps_returns acqf_params groups initial_normalized_params).
Qed.

End DiscreteSearchReturns.

(** ** What the evaluator is handed *)

Section EvaluatesOnly.

Context `{Externals}.
Variable G : list float -> Prop.

Lemma evaluates_only_ret {A} (a : A) (post : A -> Prop) :
  post a -> evaluates_only G (ret a) post.
Proof. intros Ha w. exists []. by rewrite app_nil_r. Qed.

Lemma evaluates_only_raise {A} (e : exn) (post : A -> Prop) :
  evaluates_only G (raise e) post.
Proof. intros w. exists []. by rewrite app_nil_r. Qed.

Lemma evaluates_only_bind {A B} (m : M A) (k : A -> M B)
    (mid : A -> Prop) (post : B -> Prop) :
  evaluates_only G m mid ->
  (forall a, mid a -> evaluates_only G (k a) post) ->
  evaluates_only G (bind m k) post.
Proof.
  intros Hm Hk w. destruct (Hm w) as (E1 & Hev1 & HE1 & Hmid).
  rewrite bind_unfold. destruct (m w) as [[e|a] w1]; cbn [fst snd] in *.
  { by exists E1. }
  destruct (Hk a Hmid w1) as (E2 & Hev2 & HE2 & Hpost).
  exists (E1 ++ E2). split; [|split; [by apply Forall_app|done]].
  by rewrite Hev2, Hev1, app_assoc.
Qed.

Lemma evaluates_only_weaken {A} (m : M A) (post post' : A -> Prop) :
  (forall a, post a -> post' a) ->
  evaluates_only G m post -> evaluates_only G m post'.
Proof.
  intros Himp Hm w. destruct (Hm w) as (E & Hev & HE & Hpost).
  exists E. split; [done|]. split; [done|].
  destruct (m w).1; [done|by apply Himp].
Qed.

(** A computation that leaves the world as it is. *)
Lemma evaluates_only_pure {A} (m : M A) (post : A -> Prop) :
  keeps eq m ->
  (forall w a w', m w = (inr a, w') -> post a) ->
  evaluates_only G m post.
Proof.
  intros Hkeep Hpost w. exists []. rewrite app_nil_r.
  split; [by rewrite <- (Hkeep w)|]. split; [done|].
  specialize (Hpost w). destruct (m w) as [[e|a] w']; [done|]. by eapply Hpost.
Qed.

Lemma evaluates_only_log_eval (xs : list (list float)) :
  Forall G xs -> evaluates_only G (log_eval xs) (fun _ => True).
Proof. intros Hxs w. exists [xs]. split; [done|]. split; [|done]. by apply Forall_singleton. Qed.

Lemma evaluates_only_warn (msg : string) :
  evaluates_only G (warn msg) (fun _ => True).
Proof. intros w. exists []. by rewrite app_nil_r. Qed.

Lemma evaluates_only_run_from {Q A R L} (P : L -> Prop) (s : solver Q A R)
    (f : Q -> L -> M (A * L)) (fuel : nat) :
  (forall q l, P l -> evaluates_only G (f q l) (fun al => P al.2)) ->
  forall hist l, P l ->
    evaluates_only G (run_from fuel s f hist l) (fun rl => P rl.2).
Proof.
  intros Hf. induction fuel as [|fuel IH]; intros hist l Hl; cbn [run_from].
  - destruct (solver_last s hist);
      [apply evaluates_only_raise|by apply evaluates_only_ret].
  - destruct (solver_next s hist) as [q|r|e];
      [|by apply evaluates_only_ret|apply evaluates_only_raise].
    eapply evaluates_only_bind; [by apply Hf|].
    intros [a l'] Hl'. by apply IH.
Qed.

End EvaluatesOnly.

Section EvaluatesOptimizers.

Context `{Externals}.
Variable G : list float -> Prop.
Variable p : AcquisitionFunctionParams.

Section Continuous.

Variable idxs : list Z.
Variable x : list float.
Hypothesis idxs_nonneg : Forall (fun i => 0 <= i)%Z idxs.
Hypothesis G_continuous : forall v, agrees idxs x v -> G v.

Lemma put_at_agrees (np v np' : list float) w w' :
  agrees idxs x np -> put_at np idxs v w = (inr np', w') -> agrees idxs x np'.
Proof using idxs_nonneg.
  intros [Hlen Hother] Hput.
  pose proof (put_at_inr _ _ _ _ _ _ Hput) as [_ Hlen1].
  split; [congruence|]. intros j Hj.
  rewrite (put_at_other _ _ _ _ _ _ j idxs_nonneg Hput Hj). by apply Hother.
Qed.

Lemma evaluates_only_negative_acqf_with_grad ls q np :
  agrees idxs x np ->
  evaluates_only G (negative_acqf_with_grad p idxs ls q np)
    (fun r => agrees idxs x r.2).
Proof using idxs_nonneg G_continuous.
  intros Hnp. unfold negative_acqf_with_grad.
  eapply (evaluates_only_bind G _ _ (fun _ => True)).
  { apply evaluates_only_pure; [apply (keeps_np_zip_with eq)|done]. }
  intros v _.
  eapply (evaluates_only_bind G _ _ (fun np' => agrees idxs x np')).
  { apply evaluates_only_pure; [apply (keeps_put_at eq)|].
    intros w np' w' Hput. by eapply put_at_agrees. }
  intros np' Hnp'.
  eapply (evaluates_only_bind G _ _ (fun _ => True)).
  { unfold eval_acqf_with_grad.
    eapply (evaluates_only_bind G _ _ (fun _ => True));
      [|intros; by apply evaluates_only_ret].
    apply evaluates_only_log_eval, Forall_singleton. by apply G_continuous. }
  intros [fval grad] _.
  eapply (evaluates_only_bind G _ _ (fun _ => True)).
  { apply evaluates_only_pure; [apply (keeps_take_at eq)|done]. }
  intros g _.
  eapply (evaluates_only_bind G _ _ (fun _ => True)).
  { apply evaluates_only_pure; [apply (keeps_np_zip_with eq)|done]. }
  intros g' _. by apply evaluates_only_ret.
Qed.

Lemma evaluates_only_gradient_ascent ls tol f :
  G x ->
  evaluates_only G (_gradient_ascent p x f idxs ls tol) (fun r => G r.1.1).
Proof using idxs_nonneg G_continuous.
  intros Hx. unfold _gradient_ascent.
  case_bool_decide; [by apply evaluates_only_ret|].
  eapply (evaluates_only_bind G _ _ (fun r => agrees idxs x r.2)).
  { unfold minimize_negative_acqf.
    eapply (evaluates_only_bind G _ _ (fun _ => True)).
    { apply evaluates_only_pure; [apply (keeps_take_at eq)|done]. }
    intros xc _.
    eapply (evaluates_only_bind G _ _ (fun _ => True)).
    { apply evaluates_only_pure; [apply (keeps_np_zip_with eq)|done]. }
    intros xs _.
    eapply (evaluates_only_bind G _ _ (fun _ => True)).
    { apply evaluates_only_pure; [apply (keeps_math_sqrt eq)|done]. }
    intros pgtol _. unfold run_solver.
    apply (evaluates_only_run_from G (fun l => agrees idxs x l)); [|done].
    intros q l Hl. by apply evaluates_only_negative_acqf_with_grad. }
  intros [[[z nf] nit] scratch] Hscratch. cbn [snd] in Hscratch.
  destruct (_ && _); [|by apply evaluates_only_ret].
  eapply (evaluates_only_bind G _ _ (fun _ => True)).
  { apply evaluates_only_pure; [apply (keeps_np_zip_with eq)|done]. }
  intros v _.
  eapply (evaluates_only_bind G _ _ (fun np' => agrees idxs x np')).
  { apply evaluates_only_pure; [apply (keeps_put_at eq)|].
    intros w np' w' Hput. by eapply put_at_agrees. }
  intros np' Hnp'. apply evaluates_only_ret. by apply G_continuous.
Qed.

End Continuous.

Section Discrete.

Variable x : list float.
Variable i : Z.
Variable choices : list float.
Hypothesis G_x : G x.
Hypothesis G_discrete : forall c, c ∈ choices -> G (update_at x i c).

Lemma evaluates_only_exhaustive_search f :
  evaluates_only G (_exhaustive_search p x f i choices) (fun r => G r.1.1).
Proof using G_x G_discrete.
  unfold _exhaustive_search.
  eapply (evaluates_only_bind G _ _ (fun _ => True)).
  { apply evaluates_only_pure; [apply (keeps_getitem eq)|done]. }
  intros current _.
  set (others := List.filter _ choices).
  assert (Forall G (map (fun c => update_at x i c) others)) as Hbatch.
  { apply List.Forall_map, Forall_forall.
    intros c [Hc _]%list_elem_of_In%filter_In. by apply G_discrete, list_elem_of_In. }
  eapply (evaluates_only_bind G _ _ (fun _ => True)).
  { unfold eval_acqf_no_grad.
    eapply (evaluates_only_bind G _ _ (fun _ => True));
      [|intros; by apply evaluates_only_ret].
    by apply evaluates_only_log_eval. }
  intros fvals _.
  eapply (evaluates_only_bind G _ _ (fun _ => True)).
  { apply evaluates_only_pure; [apply (keeps_np_argmax eq)|done]. }
  intros best_idx _.
  eapply (evaluates_only_bind G _ _ (fun _ => True)).
  { apply evaluates_only_pure; [apply (keeps_getitem eq)|done]. }
  intros fbest _.
  destruct (fbest >? f); [|by apply evaluates_only_ret].
  eapply (evaluates_only_bind G _ _ (fun row => G row)).
  { apply evaluates_only_pure; [apply (keeps_getitem eq)|].
    intros w row w' [Hrow _]%getitem_inr.
    rewrite Forall_forall in Hbatch. by eapply Hbatch, py_index_elem_of. }
  intros row Hrow. by apply evaluates_only_ret.
Qed.

Lemma evaluates_only_discrete_line_search f xtol :
  evaluates_only G (_discrete_line_search p x f i choices xtol)
    (fun r => G r.1.1).
Proof using G_x G_discrete.
  intros w. pose proof (discrete_line_search_run p x f i choices xtol w) as Hrun.
  destruct (_discrete_line_search p x f i choices xtol w) as [r w'].
  destruct Hrun as [(E & (_ & _ & Hev) & _ & HE) Hres].
  exists E. split; [done|]. split.
  - eapply Forall_impl; [exact HE|]. intros b (v & (c & Hc & ->) & ->).
    apply Forall_singleton. by apply G_discrete.
  - cbn [fst]. destruct r as [e|[[x' f'] [|]]]; [done| |].
    + destruct Hres as [(c & Hc & ->) _]. by apply G_discrete.
    + by destruct Hres as [-> _].
Qed.

Lemma evaluates_only_local_search_discrete f xtol :
  evaluates_only G (_local_search_discrete p x f i choices xtol)
    (fun r => G r.1.1).
Proof using G_x G_discrete.
  unfold _local_search_discrete.
  eapply (evaluates_only_bind G _ _ (fun _ => True)).
  { apply evaluates_only_pure; [apply (keeps_getitem eq)|done]. }
  intros scale_type _.
  destruct (_ || _);
    [apply evaluates_only_exhaustive_search|apply evaluates_only_discrete_line_search].
Qed.

End Discrete.

Section Driver.

Variable idxs : list Z.
Variable ls : list float.
Variable tol : float.
Variable groups : list (Z * list float * float).
Hypothesis idxs_nonneg : Forall (fun i => 0 <= i)%Z idxs.
Hypothesis G_continuous : forall x v, G x -> agrees idxs x v -> G v.
Hypothesis G_discrete : forall g x c,
  g ∈ groups -> G x -> c ∈ g.1.2 -> G (update_at x g.1.1 c).

Lemma evaluates_only_sweep_discrete (todo : list (Z * list float * float)) :
  todo ⊆ groups ->
  forall x f last,
    G x ->
    evaluates_only G (sweep_discrete p todo (x, f, last))
      (fun r => match r with
                | inl (x', _) => G x'
                | inr (x', _, _) => G x'
                end).
Proof using G_discrete.
  induction todo as [|[[i choices] xtol] todo IH]; intros Hsub x f last Hx;
    cbn [sweep_discrete].
  - by apply evaluates_only_ret.
  - case_bool_decide; [by apply evaluates_only_ret|].
    eapply (evaluates_only_bind G _ _ (fun r => G r.1.1)).
    { apply evaluates_only_local_search_discrete; [done|].
      intros c Hc. apply (G_discrete (i, choices, xtol)); [|done..].
      apply Hsub. by left. }
    intros [[x1 f1] u] Hx1. apply IH; [|done].
    intros g Hg. apply Hsub. by right.
Qed.

Lemma evaluates_only_sweeps (iters : nat) :
  forall x f last,
    G x ->
    evaluates_only G (sweeps p idxs ls tol groups iters (x, f, last))
      (fun r => G r.1).
Proof using idxs_nonneg G_continuous G_discrete.
  induction iters as [|iters IH]; intros x f last Hx; cbn [sweeps].
  - eapply (evaluates_only_bind G _ _ (fun _ => True));
      [apply evaluates_only_warn|intros; by apply evaluates_only_ret].
  - case_bool_decide; [by apply evaluates_only_ret|].
    eapply (evaluates_only_bind G _ _ (fun r => G r.1.1)).
    { apply evaluates_only_gradient_ascent; [done| |done].
      intros v Hv. by eapply G_continuous. }
    intros [[x1 f1] u] Hx1. cbn [fst] in Hx1.
    eapply evaluates_only_bind;
      [by apply (evaluates_only_sweep_discrete groups (reflexivity _))|].
    intros [[x2 f2]|[[x2 f2] [j|]]] Hx2;
      [by apply evaluates_only_ret|by apply IH|by apply evaluates_only_ret].
Qed.

End Driver.

End EvaluatesOptimizers.

Section EvaluatesInSpace.

Context `{Externals}.

Lemma on_grids_continuous_move idxs groups x0 x v :
  Forall (fun g => (0 <= g.1.1)%Z) groups ->
  (forall i, i ∈ idxs -> i ∉ (fun g => g.1.1) <$> groups) ->
  on_grids idxs groups x0 x ->
  length v = length x ->
  (forall j : nat, Z.of_nat j ∉ idxs -> v !! j = x !! j) ->
  on_grids idxs groups x0 v.
Proof.
  intros Hgpos Hdisj (Hlen & Hgrid & Hother) Hlen' Hsame.
  split; [congruence|]. split.
  - rewrite Forall_forall in Hgrid, Hgpos. apply Forall_forall.
    intros g Hg. destruct (Hgrid g Hg) as (c & Hc & Hin).
    exists c. split; [|done]. specialize (Hgpos g Hg).
    rewrite py_index_lookup in * by done. rewrite <- Hc. apply Hsame.
    rewrite Z2Nat.id by done. intros Hidx. apply (Hdisj _ Hidx).
    by apply (list_elem_of_fmap_2 (fun g => g.1.1)).
  - intros j Hj Hjg. rewrite Hsame by done. by apply Hother.
Qed.

Lemma on_grids_discrete_move idxs groups x0 g x c :
  Forall (fun g => (0 <= g.1.1)%Z) groups ->
  NoDup ((fun g => g.1.1) <$> groups) ->
  g ∈ groups -> on_grids idxs groups x0 x -> c ∈ g.1.2 ->
  on_grids idxs groups x0 (update_at x g.1.1 c).
Proof.
  intros Hgpos Hnd Hg (Hlen & Hgrid & Hother) Hc.
  rewrite Forall_forall in Hgrid, Hgpos.
  pose proof (Hgpos g Hg) as Hi.
  split; [by rewrite length_update_at|]. split.
  - apply Forall_forall. intros g' Hg'.
    destruct (Hgrid g' Hg') as (c' & Hc' & Hin').
    destruct (decide (g'.1.1 = g.1.1)) as [Heq|Hne].
    + assert (g' = g) as -> by by eapply (NoDup_fmap_elem_of (fun g => g.1.1)).
      exists c. split; [|done]. by eapply py_index_update_at.
    + exists c'. split; [|done].
      rewrite py_index_update_at_ne; [done..| |done]. by apply Hgpos.
  - intros j Hj Hjg. rewrite update_at_insert by done.
    rewrite list_lookup_insert_ne; [by apply Hother|].
    intros Heq. apply Hjg. rewrite <- Heq, Z2Nat.id by done.
    by apply (list_elem_of_fmap_2 (fun g => g.1.1)).
Qed.

(** X22. [local_search_mixed] evaluates inside the search space only.  When the
    discrete coordinates of the start vector are on their grids then,
    however the call ends, every vector it hands to the evaluator has the
    length of the start vector, its discrete coordinates on their grids,
    and the coordinates that are neither continuous nor discrete as the
    start vector has them. *)
Theorem local_search_mixed_evaluates_in_space
    (acqf_params : AcquisitionFunctionParams)
    (initial_normalized_params : list float) (tol : float) (max_iter : Z)
    (w : world) (continuous_indices : list Z) (lengthscale : list float)
    (groups : list (Z * list float * float)) :
  parameter_groups acqf_params w = (inr (continuous_indices, lengthscale, groups), w) ->
  Forall (on_grid initial_normalized_params) groups ->
  exists E,
    evals (local_search_mixed acqf_params initial_normalized_params tol
             max_iter w).2 = evals w ++ E /\
    Forall (Forall (on_grids continuous_indices groups initial_normalized_params)) E.
Proof.
  intros Hgroups Hstart.
  pose proof (parameter_groups_inr _ _ _ _ _ _ Hgroups) as [_ Hgpos].
  pose proof (parameter_groups_NoDup _ _ _ _ _ _ Hgroups) as Hnd.
  pose proof (parameter_groups_disjoint _ _ _ _ _ _ Hgroups) as [Hpos Hdisj].
  set (G := on_grids continuous_indices groups initial_normalized_params).
  assert (G initial_normalized_params) as Hx0 by by split.
  unfold local_search_mixed. rewrite (bind_ok _ _ _ _ _ Hgroups).
  assert (evaluates_only G
            (do best_fval <- eval_acqf_no_grad1 acqf_params initial_normalized_params;
             sweeps acqf_params continuous_indices lengthscale tol groups
               (Z.to_nat max_iter) (initial_normalized_params, best_fval, None))
            (fun r => G r.1)) as Hrun.
  { eapply (evaluates_only_bind G _ _ (fun _ => True)).
    { unfold eval_acqf_no_grad1.
      eapply (evaluates_only_bind G _ _ (fun _ => True));
        [|intros; by apply evaluates_only_ret].
      by apply evaluates_only_log_eval, Forall_singleton. }
    intros f0 _. apply evaluates_only_sweeps; [done| | |done].
    - intros x v Hx [Hlen Hsame]. by eapply on_grids_continuous_move.
    - intros g x c Hg Hx Hc. by eapply on_grids_discrete_move. }
  destruct (Hrun w) as (E & Hev & HE & _). by exists E.
Qed.

End EvaluatesInSpace.

(** ** The multi-start driver on the grids *)

Section MultiStartInSpace.

Context `{Externals}.

Lemma evaluates_only_mono (G G' : list float -> Prop) {A} (m : M A)
    (post : A -> Prop) :
  (forall v, G v -> G' v) ->
  evaluates_only G m post -> evaluates_only G' m post.
Proof.
  intros Himp Hm w. destruct (Hm w) as (E & Hev & HE & Hpost).
  exists E. split; [done|]. split; [|done].
  eapply Forall_impl; [exact HE|]. intros b Hb.
  eapply Forall_impl; [exact Hb|done].
Qed.

(** A computation that hands nothing to the evaluator. *)
Lemma evaluates_only_quiet (G : list float -> Prop) {A} (m : M A)
    (post : A -> Prop) :
  (forall w, evals (m w).2 = evals w) ->
  (forall w a w', m w = (inr a, w') -> post a) ->
  evaluates_only G m post.
Proof.
  intros Hkeep Hpost w. exists []. rewrite app_nil_r.
  split; [done|]. split; [done|].
  specialize (Hpost w). destruct (m w) as [[e|a] w']; [done|]. by eapply Hpost.
Qed.

Lemma take_at_elem_of {A} (a : list A) (idxs : list Z) :
  forall r w w', take_at a idxs w = (inr r, w') -> Forall (fun x => x ∈ a) r.
Proof.
  induction idxs as [|i idxs IH]; intros r w w'; cbn [take_at].
  - by intros [= <- _].
  - intros (x & w1 & [Hx ->]%getitem_inr & Hrest)%bind_inr.
    apply bind_inr in Hrest as (xs & w2 & Hxs & [= <- _]).
    apply Forall_cons. split; [by eapply py_index_elem_of|by eapply IH].
Qed.

Lemma parameter_groups_any_world p r w w' :
  parameter_groups p w = (inr r, w) -> parameter_groups p w' = (inr r, w').
Proof.
  intros Hrun.
  pose proof (indep_parameter_groups p w' w) as Hind.
  pose proof (keeps_parameter_groups eq p w') as Hw.
  rewrite Hrun in Hind.
  destruct (parameter_groups p w') as [r' w'']. cbn in *. by subst.
Qed.

Section OnGrid.

Variable p : AcquisitionFunctionParams.
Variable idxs : list Z.
Variable ls : list float.
Variable groups : list (Z * list float * float).
Variable w0 : world.
Hypothesis Hgroups : parameter_groups p w0 = (inr (idxs, ls, groups), w0).

#[local] Abbreviation on_every_grid :=
  (fun v : list float => Forall (on_grid v) groups).

Lemma evaluates_only_search (x0 : list float) (tol : float) (iters : nat) :
  on_every_grid x0 ->
  evaluates_only (on_grids idxs groups x0)
    (do best_fval <- eval_acqf_no_grad1 p x0;
     sweeps p idxs ls tol groups iters (x0, best_fval, None))
    (fun r => on_grids idxs groups x0 r.1).
Proof using Hgroups.
  intros Hstart.
  pose proof (parameter_groups_inr _ _ _ _ _ _ Hgroups) as [_ Hgpos].
  pose proof (parameter_groups_NoDup _ _ _ _ _ _ Hgroups) as Hnd.
  pose proof (parameter_groups_disjoint _ _ _ _ _ _ Hgroups) as [Hpos Hdisj].
  assert (on_grids idxs groups x0 x0) as Hx0 by by split.
  eapply (evaluates_only_bind _ _ _ (fun _ => True)).
  { unfold eval_acqf_no_grad1.
    eapply (evaluates_only_bind _ _ _ (fun _ => True));
      [|intros; by apply evaluates_only_ret].
    by apply evaluates_only_log_eval, Forall_singleton. }
  intros f0 _. apply evaluates_only_sweeps; [done| | |done].
  - intros x v Hx [Hlen Hsame]. by eapply on_grids_continuous_move.
  - intros g x c Hg Hx Hc. by eapply on_grids_discrete_move.
Qed.

Lemma evaluates_only_local_search_mixed (x0 : list float) (tol : float)
    (max_iter : Z) :
  on_every_grid x0 ->
  evaluates_only on_every_grid (local_search_mixed p x0 tol max_iter)
    (fun r => on_every_grid r.1).
Proof using Hgroups.
  intros Hstart w. unfold local_search_mixed.
  rewrite (bind_ok _ _ _ _ _ (parameter_groups_any_world _ _ _ w Hgroups)).
  destruct (evaluates_only_search x0 tol (Z.to_nat max_iter) Hstart w)
    as (E & Hev & HE & Hpost).
  exists E. split; [done|]. split.
  - eapply Forall_impl; [exact HE|]. intros b Hb.
    eapply Forall_impl; [exact Hb|]. by intros v (_ & Hv & _).
  - destruct (_ w).1 as [e|r]; [done|]. by destruct Hpost as (_ & Hr & _).
Qed.

Lemma evaluates_only_search_from (tol : float) (starts : list (list float)) :
  Forall on_every_grid starts ->
  forall best_x best_f,
    on_every_grid best_x ->
    evaluates_only on_every_grid (search_from p tol starts best_x best_f)
      (fun r => on_every_grid r.1).
Proof using Hgroups.
  induction 1 as [|s starts Hs _ IH]; intros best_x best_f Hbest;
    cbn [search_from].
  - by apply evaluates_only_ret.
  - eapply evaluates_only_bind;
      [by apply evaluates_only_local_search_mixed|].
    intros [x f] Hx. destruct (f >? best_f); by apply IH.
Qed.

End OnGrid.

(** X23. [optimize_acqf_mixed] stays on the grids.  When every point the
    sampler returns and every seed point has its discrete coordinates on
    their grids then, however the call ends, so has every vector handed to
    the evaluator, and so has the vector returned. *)
Theorem optimize_acqf_mixed_stays_on_grid
    (acqf_params : AcquisitionFunctionParams)
    (given_initial_xs : option (list (list float)))
    (n_additional_samples n_local_search : Z) (tol : float) (w : world)
    (continuous_indices : list Z) (lengthscale : list float)
    (groups : list (Z * list float * float)) :
  parameter_groups acqf_params w = (inr (continuous_indices, lengthscale, groups), w) ->
  let pool :=
    (sample_normalized_params n_additional_samples
       (search_space acqf_params) (rng w)).1 in
  let run :=
    optimize_acqf_mixed acqf_params given_initial_xs n_additional_samples
      n_local_search tol w in
  Forall (fun v => Forall (on_grid v) groups) pool ->
  Forall (fun v => Forall (on_grid v) groups) (default [] given_initial_xs) ->
  (exists E,
     evals run.2 = evals w ++ E /\
     Forall (Forall (fun v => Forall (on_grid v) groups)) E) /\
  match run.1 with
  | inr (x, _) => Forall (on_grid x) groups
  | inl _ => True
  end.
Proof.
  intros Hgroups pool run Hpool Hgiven. subst run.
  set (G := fun v : list float => Forall (on_grid v) groups).
  destruct (sample_normalized_params n_additional_samples
              (search_space acqf_params) (rng w)) as [xs r] eqn:Hsample.
  cbn [fst] in pool. subst pool.
  set (w1 := World r (evals w) (warnings w)).
  destruct (bool_decide
              (Z.of_nat (length (default [] given_initial_xs)) <= n_local_search - 1)%Z)
    eqn:Hseeds.
  2:{ assert (optimize_acqf_mixed acqf_params given_initial_xs
                n_additional_samples n_local_search tol w
              = (inl (AssertionError
                   "We must choose at least 1 best sampled point + given_initial_xs as start points."),
                 w)) as ->.
      { unfold optimize_acqf_mixed. by rewrite Hseeds. }
      split; [|done]. exists []. by rewrite app_nil_r. }
  assert (evaluates_only G
    (do f_vals <- eval_acqf_no_grad acqf_params xs;
     do max_i <- np_argmax f_vals;
     do probs <- softmax_probs f_vals max_i;
     do remaining_idxs <-
       rng_choice (Z.of_nat (length xs))
         (n_local_search - Z.of_nat (length (default [] given_initial_xs)) - 1)%Z probs;
     do best_x <- getitem xs max_i;
     do best_f <- getitem f_vals max_i;
     do rest <- take_at xs remaining_idxs;
     search_from acqf_params tol ([best_x] ++ rest ++ default [] given_initial_xs)
       best_x best_f)
    (fun r => G r.1)) as Hrest.
  { eapply (evaluates_only_bind _ _ _ (fun _ => True)).
    { unfold eval_acqf_no_grad.
      eapply (evaluates_only_bind _ _ _ (fun _ => True));
        [|intros; by apply evaluates_only_ret].
      by apply evaluates_only_log_eval. }
    intros f_vals _.
    eapply (evaluates_only_bind _ _ _ (fun _ => True)).
    { apply evaluates_only_pure; [apply (keeps_np_argmax eq)|done]. }
    intros max_i _.
    eapply (evaluates_only_bind _ _ _ (fun _ => True)).
    { apply evaluates_only_quiet; [|done]. intros w2.
      destruct (softmax_probs f_vals max_i w2) as [res w3] eqn:Hs.
      by rewrite (softmax_probs_pure _ _ _ _ _ Hs). }
    intros probs _.
    eapply (evaluates_only_bind _ _ _ (fun _ => True)).
    { apply evaluates_only_quiet; [apply rng_choice_evals|done]. }
    intros remaining_idxs _.
    eapply (evaluates_only_bind _ _ _ (fun best_x => G best_x)).
    { apply evaluates_only_pure; [apply (keeps_getitem eq)|].
      intros w2 best_x w3 [Hx _]%getitem_inr.
      rewrite Forall_forall in Hpool. by eapply Hpool, py_index_elem_of. }
    intros best_x Hbest.
    eapply (evaluates_only_bind _ _ _ (fun _ => True)).
    { apply evaluates_only_pure; [apply (keeps_getitem eq)|done]. }
    intros best_f _.
    eapply (evaluates_only_bind _ _ _ (fun rest => Forall G rest)).
    { apply evaluates_only_pure; [apply (keeps_take_at eq)|].
      intros w2 rest w3 Hrest%take_at_elem_of.
      rewrite Forall_forall in Hpool.
      eapply Forall_impl; [exact Hrest|]. intros v Hv. by apply Hpool. }
    intros rest Hrest.
    eapply (evaluates_only_search_from acqf_params); [exact Hgroups| |done].
    apply Forall_app. split; [by apply Forall_singleton|].
    by apply Forall_app. }
  assert (optimize_acqf_mixed acqf_params given_initial_xs n_additional_samples
            n_local_search tol w
          = (do f_vals <- eval_acqf_no_grad acqf_params xs;
             do max_i <- np_argmax f_vals;
             do probs <- softmax_probs f_vals max_i;
             do remaining_idxs <-
               rng_choice (Z.of_nat (length xs))
                 (n_local_search - Z.of_nat (length (default [] given_initial_xs)) - 1)%Z
                 probs;
             do best_x <- getitem xs max_i;
             do best_f <- getitem f_vals max_i;
             do rest <- take_at xs remaining_idxs;
             search_from acqf_params tol
               ([best_x] ++ rest ++ default [] given_initial_xs) best_x best_f) w1)
    as ->.
  { unfold optimize_acqf_mixed. rewrite Hseeds.
    rewrite (bind_ok _ _ _ _ _ (assert_true _ w)).
    rewrite bind_unfold. by rewrite Hsample. }
  destruct (Hrest w1) as (E & Hev & HE & Hpost).
  split; [by exists E|]. by destruct (_ w1).1 as [e|[x f]].
Qed.

End MultiStartInSpace.

(** ** The multi-start driver and the coordinate-wise maximum *)

#[local] Instance warnings_grow_preorder : PreOrder warnings_grow.
Proof.
  split; [intros w; unfold warnings_grow; reflexivity|].
  intros w1 w2 w3. unfold warnings_grow. intros H12 H23. by etrans.
Qed.

Lemma log_eval_warnings_grow xs : keeps warnings_grow (log_eval xs).
Proof. intros w. unfold warnings_grow. reflexivity. Qed.

Section WarningsGrow.

Context `{Externals}.

Lemma warn_warnings_grow msg : keeps warnings_grow (warn msg).
Proof. intros w. unfold warnings_grow. cbn. by apply prefix_app_r. Qed.

Lemma sweeps_warnings_grow p idxs ls tol groups iters :
  forall st, keeps warnings_grow (sweeps p idxs ls tol groups iters st).
Proof.
  induction iters as [|iters IH]; intros [[x f] last]; simpl.
  - apply (keeps_bind warnings_grow); [apply warn_warnings_grow|].
    intros _. apply (keeps_ret warnings_grow).
  - case_bool_decide; [apply (keeps_ret warnings_grow)|].
    apply (keeps_bind warnings_grow);
      [apply (keeps_gradient_ascent warnings_grow log_eval_warnings_grow)|].
    intros [[x' f'] upd].
    apply (keeps_bind warnings_grow);
      [apply (keeps_sweep_discrete warnings_grow log_eval_warnings_grow)|].
    intros [res|[[x'' f''] [last''|]]]; try apply (keeps_ret warnings_grow).
    apply IH.
Qed.

Lemma local_search_mixed_warnings_grow p x tol max_iter :
  keeps warnings_grow (local_search_mixed p x tol max_iter).
Proof.
  unfold local_search_mixed.
  apply (keeps_bind warnings_grow); [apply (keeps_parameter_groups warnings_grow)|].
  intros [[idxs ls] groups].
  apply (keeps_bind warnings_grow);
    [apply (keeps_eval_acqf_no_grad1 warnings_grow log_eval_warnings_grow)|].
  intros f. apply sweeps_warnings_grow.
Qed.

Lemma search_from_warnings_grow p tol starts :
  forall x f, keeps warnings_grow (search_from p tol starts x f).
Proof.
  induction starts as [|s starts IH]; intros x f; cbn [search_from].
  - apply (keeps_ret warnings_grow).
  - apply (keeps_bind warnings_grow); [apply local_search_mixed_warnings_grow|].
    intros [x1 f1]. destruct (f1 >? f); apply IH.
Qed.

(** Between two worlds with the same warnings no warning was logged. *)
Lemma warnings_between (w w1 w' : world) :
  warnings_grow w w1 -> warnings_grow w1 w' -> warnings w' = warnings w ->
  warnings w1 = warnings w /\ warnings w' = warnings w1.
Proof.
  unfold warnings_grow. intros H1 H2 Heq. rewrite Heq in H2.
  assert (warnings w1 = warnings w) as Hw1.
  { symmetry. apply prefix_length_eq; [done|by apply prefix_length]. }
  split; [done|congruence].
Qed.

Lemma rng_choice_warnings a size q w :
  warnings (rng_choice a size q w).2 = warnings w.
Proof. unfold rng_choice, raise. repeat case_match; try done. Qed.

End WarningsGrow.

Section MaximumOfStarts.

Context `{Externals}.
Variable p : AcquisitionFunctionParams.
Variable ls : list float.
Variable groups : list (Z * list float * float).
Variable w0 : world.
Hypothesis Hgroups : parameter_groups p w0 = (inr ([], ls, groups), w0).
Hypothesis groups_exhaustive : Forall (searched_exhaustively p) groups.

(** The value is that of the vector, the vector is on the grid and no
    discrete optimizer moves it. *)
#[local] Abbreviation settled :=
  (fun (x : list float) (f : float) =>
     state_ok p groups x f /\ Forall (quiet p x f) groups).

Lemma local_search_mixed_settled x0 tol max_iter x f w w' :
  Forall (on_grid x0) groups ->
  local_search_mixed p x0 tol max_iter w = (inr (x, f), w') ->
  warnings w' = warnings w ->
  settled x f /\ ((x, f) = (x0, acqf p x0) \/ (acqf p x0 <? f) = true).
Proof using Hgroups groups_exhaustive.
  intros Hgrid Hrun Hwarn.
  pose proof (parameter_groups_inr _ _ _ _ _ _ Hgroups) as [_ Hpos].
  pose proof (parameter_groups_NoDup _ _ _ _ _ _ Hgroups) as Hnd.
  unfold local_search_mixed in Hrun.
  rewrite (bind_ok _ _ _ _ _ (parameter_groups_any_world _ _ _ w Hgroups)) in Hrun.
  unfold bind at 1, eval_acqf_no_grad1 at 1, bind at 1, ret at 1 in Hrun.
  cbn [log_eval] in Hrun. split.
  - eapply (sweeps_inv p groups groups_exhaustive Hpos Hnd ls tol
              (Z.to_nat max_iter) x0 (acqf p x0) None x f);
      [by split|by constructor|exact Hrun|done].
  - eapply (sweeps_preserves
              (fun x f => (x, f) = (x0, acqf p x0) \/ (acqf p x0 <? f) = true));
      [| | |exact Hrun].
    + intros xa fa xb fb u wa wb HI Hstep.
      unfold _gradient_ascent in Hstep. cbn in Hstep.
      by injection Hstep as <- <- _ _.
    + intros g xa fa xb fb u wa wb _ HI Hstep.
      apply local_search_discrete_inr in Hstep.
      destruct u; [|by destruct Hstep as [-> ->]].
      destruct Hstep as (_ & _ & Hlt). right.
      destruct HI as [[= _ ->]|Hlt0]; [done|by eapply ltb_trans].
    + by left.
Qed.

Lemma search_from_settled tol (starts : list (list float)) :
  Forall (fun s => Forall (on_grid s) groups) starts ->
  forall best_x best_f x f w w',
    settled best_x best_f ->
    search_from p tol starts best_x best_f w = (inr (x, f), w') ->
    warnings w' = warnings w ->
    settled x f.
Proof using Hgroups groups_exhaustive.
  induction 1 as [|s starts Hs _ IH]; intros best_x best_f x f w w' Hbest;
    cbn [search_from].
  - by intros [= <- <- _].
  - intros Hrun Hwarn.
    pose proof (local_search_mixed_warnings_grow p s tol default_max_iter w) as Hg1.
    apply bind_inr in Hrun as ([x1 f1] & w1 & Hsearch & Hrun).
    rewrite Hsearch in Hg1. cbn [snd] in Hg1.
    assert (warnings_grow w1 w') as Hg2.
    { destruct (f1 >? best_f).
      - pose proof (search_from_warnings_grow p tol starts x1 f1 w1) as Hg.
        by rewrite Hrun in Hg.
      - pose proof (search_from_warnings_grow p tol starts best_x best_f w1) as Hg.
        by rewrite Hrun in Hg. }
    destruct (warnings_between w w1 w' Hg1 Hg2 Hwarn) as [Hw1 Hw'].
    destruct (local_search_mixed_settled s tol default_max_iter x1 f1 w w1 Hs
                Hsearch Hw1) as [Hsettled _].
    destruct (f1 >? best_f).
    + by apply (IH x1 f1 x f w1 w').
    + by apply (IH best_x best_f x f w1 w').
Qed.

Lemma search_from_best_settled tol (best_x : list float)
    (starts : list (list float)) x f w w' :
  Forall (fun s => Forall (on_grid s) groups) (best_x :: starts) ->
  search_from p tol (best_x :: starts) best_x (acqf p best_x) w = (inr (x, f), w') ->
  warnings w' = warnings w ->
  settled x f.
Proof using Hgroups groups_exhaustive.
  intros [Hbest Hstarts]%Forall_cons Hrun Hwarn. cbn [search_from] in Hrun.
  pose proof (local_search_mixed_warnings_grow p best_x tol default_max_iter w) as Hg1.
  apply bind_inr in Hrun as ([x1 f1] & w1 & Hsearch & Hrun).
  rewrite Hsearch in Hg1. cbn [snd] in Hg1.
  assert (warnings_grow w1 w') as Hg2.
  { destruct (f1 >? acqf p best_x).
    - pose proof (search_from_warnings_grow p tol starts x1 f1 w1) as Hg.
      by rewrite Hrun in Hg.
    - pose proof (search_from_warnings_grow p tol starts best_x (acqf p best_x) w1)
        as Hg.
      by rewrite Hrun in Hg. }
  destruct (warnings_between w w1 w' Hg1 Hg2 Hwarn) as [Hw1 Hw'].
  destruct (local_search_mixed_settled best_x tol default_max_iter x1 f1 w w1
              Hbest Hsearch Hw1) as [Hsettled Hmove].
  destruct (f1 >? acqf p best_x) eqn:Hgt.
  - by apply (search_from_settled tol starts Hstarts x1 f1 x f w1 w').
  - destruct Hmove as [[= -> ->]|Hlt]; [|unfold gtb in Hgt; congruence].
    by apply (search_from_settled tol starts Hstarts best_x (acqf p best_x) x f w1 w').
Qed.

Lemma settled_coordinatewise_maximum x f :
  settled x f ->
  f = acqf p x /\ Forall (on_grid x) groups /\
  Forall (fun g =>
    Forall (fun c => is_nan (acqf p (update_at x g.1.1 c)) = false) g.1.2 ->
    Forall (fun c => (acqf p (update_at x g.1.1 c) <=? f) = true) g.1.2)
    groups.
Proof using Hgroups groups_exhaustive.
  intros [[Hf Hon] Hquiet].
  pose proof (parameter_groups_inr _ _ _ _ _ _ Hgroups) as [_ Hpos].
  split; [done|]. split; [done|].
  rewrite Forall_forall in Hquiet, groups_exhaustive, Hon, Hpos.
  apply Forall_forall. intros g Hg Hnum.
  destruct (Hon g Hg) as (current & Hcur & Hin).
  destruct (Hquiet g Hg w0) as [w1 Hstep].
  rewrite local_search_discrete_exhaustive in Hstep by by apply groups_exhaustive.
  apply exhaustive_search_detail in Hstep as (current' & Hcur' & _ & _ & _ & Hmax).
  assert (current' = current) as -> by congruence.
  assert (acqf p (update_at x g.1.1 current) = f) as Hself.
  { rewrite update_at_same; [done|by apply Hpos|done]. }
  assert (is_nan f = false) as Hfnum.
  { rewrite <- Hself. rewrite Forall_forall in Hnum. by apply Hnum. }
  rewrite Forall_forall in Hnum.
  assert (Forall (fun c' => (acqf p (update_at x g.1.1 c') <=? f) = true)
            (List.filter (fun c => c !=? current) g.1.2)) as Hothers.
  { apply Hmax; [done|]. apply Forall_forall.
    intros c [Hc _]%list_elem_of_In%filter_In. by apply Hnum, list_elem_of_In. }
  rewrite Forall_forall in Hothers. apply Forall_forall. intros c Hc.
  destruct (c !=? current) eqn:Hne.
  - apply Hothers, list_elem_of_In, filter_In. split; [by apply list_elem_of_In|done].
  - apply neqb_false_eq in Hne as ->. rewrite Hself. by apply leb_refl.
Qed.

End MaximumOfStarts.

Section MaximumTheorem.

Context `{Externals}.

(** X24. The multi-start driver returns a coordinate-wise maximum.  Take a
    search space without continuous parameters in which the dispatcher
    sends every discrete parameter to the exhaustive search, a pool and
    seed points on the grid.  When [optimize_acqf_mixed] returns and no
    local search has logged the warning of the iteration cap, the value
    returned is the acquisition value of the vector returned, that vector
    is on the grid, and replacing one of its discrete coordinates by any
    choice of the parameter gives no greater value, provided the values at
    the choices of that parameter are numbers. *)
Theorem optimize_acqf_mixed_coordinatewise_maximum
    (acqf_params : AcquisitionFunctionParams)
    (given_initial_xs : option (list (list float)))
    (n_additional_samples n_local_search : Z) (tol : float) (w : world)
    (lengthscale : list float) (groups : list (Z * list float * float))
    (x : list float) (f : float) (w' : world) :
  parameter_groups acqf_params w = (inr ([], lengthscale, groups), w) ->
  Forall (searched_exhaustively acqf_params) groups ->
  let pool :=
    (sample_normalized_params n_additional_samples
       (search_space acqf_params) (rng w)).1 in
  Forall (fun v => Forall (on_grid v) groups) pool ->
  Forall (fun v => Forall (on_grid v) groups) (default [] given_initial_xs) ->
  optimize_acqf_mixed acqf_params given_initial_xs n_additional_samples
    n_local_search tol w = (inr (x, f), w') ->
  warnings w' = warnings w ->
  f = acqf acqf_params x /\
  Forall (on_grid x) groups /\
  Forall (fun g =>
    Forall (fun c => is_nan (acqf acqf_params (update_at x g.1.1 c)) = false) g.1.2 ->
    Forall (fun c => (acqf acqf_params (update_at x g.1.1 c) <=? f) = true) g.1.2)
    groups.
Proof.
  intros Hgroups Hex pool Hpool Hgiven Hrun Hwarn.
  apply (settled_coordinatewise_maximum acqf_params lengthscale groups w Hgroups Hex).
  unfold optimize_acqf_mixed in Hrun.
  apply bind_inr in Hrun as ([] & w1 & Hassert & Hrun).
  assert (w1 = w) as ->.
  { unfold assert in Hassert. destruct (bool_decide _); [|done].
    by injection Hassert. }
  apply bind_inr in Hrun as (sampled_xs & w2 & Hsample & Hrun).
  assert (sampled_xs = pool /\ warnings w2 = warnings w) as [-> Hw2].
  { subst pool. destruct (sample_normalized_params _ _ _).
    by injection Hsample as <- <-. }
  rewrite bind_unfold, eval_acqf_no_grad_run in Hrun.
  apply bind_inr in Hrun as (max_i & w4 & [-> _]%np_argmax_inr & Hrun).
  apply bind_inr in Hrun as (probs & w5 & ->%softmax_probs_pure & Hrun).
  apply bind_inr in Hrun as (idxs & w6 & Hchoice & Hrun).
  pose proof (f_equal (fun r => warnings r.2) Hchoice) as Hw6.
  cbv beta in Hw6. rewrite rng_choice_warnings in Hw6. cbn [snd warnings] in Hw6.
  apply bind_inr in Hrun as (best_x & w7 & [Hx ->]%getitem_inr & Hrun).
  apply bind_inr in Hrun as (best_f & w8 & [Hf ->]%getitem_inr & Hrun).
  apply bind_inr in Hrun as (rest & w9 & Hrest & Hrun).
  pose proof (take_at_elem_of _ _ _ _ _ Hrest) as Hin.
  apply take_at_inr in Hrest as (-> & _ & _).
  apply py_index_map in Hf as (row & Hrow & ->).
  assert (row = best_x) as -> by congruence.
  rewrite Forall_forall in Hpool.
  eapply (search_from_best_settled acqf_params lengthscale groups w Hgroups Hex);
    [|exact Hrun|congruence].
  apply Forall_cons. split; [by eapply Hpool, py_index_elem_of|].
  apply Forall_app. split; [|done].
  eapply Forall_impl; [exact Hin|]. intros v Hv. by apply Hpool.
Qed.

End MaximumTheorem.

(** * The theorems at concrete inputs *)

Section Concrete.

Import Toy Examples.
#[local] Existing Instance toy.

(** C1 at the mixed example, a pool of eight points and three searches. *)
Lemma optimize_acqf_mixed_dominates_pool_witness :
  Forall (fun q => (acqf p_mixed q <=? frac 99 100) = true)
    (sample_normalized_params 8 (search_space p_mixed) (rng w0)).1.
Proof.
  apply (optimize_acqf_mixed_dominates_pool p_mixed None 8 3 default_tol w0
           [frac 1 2; one] (frac 99 100)
           (optimize_acqf_mixed p_mixed None 8 3 default_tol w0).2);
    compute_done.
Defined.

(** C2 at the mixed example. *)
Lemma local_search_mixed_monotone_witness :
  (acqf p_mixed [frac 1 10; zero] <=? frac 91 100) = true.
Proof.
  apply (local_search_mixed_monotone p_mixed [frac 1 10; zero] default_tol
           default_max_iter w0 [frac 1 10; one] (frac 91 100)
           (local_search_mixed p_mixed [frac 1 10; zero] default_tol
              default_max_iter w0).2);
    compute_done.
Defined.

(** C3. A categorical parameter with one category, at its only value: the
    exhaustive search, to which the dispatcher sends it, hands the evaluator an
    empty batch and raises the error of [np.argmax] on an empty array, and so
    does the driver; the line search returns the same input unchanged. *)
Theorem exhaustive_search_single_choice_raises :
  _exhaustive_search p_single [zero] zero 0 [zero] w0
  = (inl (ValueError "attempt to get argmax of an empty sequence"),
     World 0 [[]] [])
  /\ (local_search_mixed p_single [zero] default_tol default_max_iter w0).1
     = inl (ValueError "attempt to get argmax of an empty sequence")
  /\ _discrete_line_search p_single [zero] zero 0 [zero] PInf w0
     = (inr ([zero], zero, false), w0).
Proof. split_and!; compute_done. Qed.

(** C4, the claim as stated fails: the query [1/4] is at the same distance
    from the grid points [0] (index 0) and [1/2] (index 1), and the index
    returned is 1. *)
Lemma find_nearest_index_tie_upper :
  (abs (frac 1 4 - zero) =? abs (frac 1 4 - frac 1 2)) = true /\
  np_clip (np_searchsorted [zero; frac 1 2; one] (frac 1 4)) 1 2 = 1%Z /\
  find_nearest_index [zero; frac 1 2; one] (frac 1 4) w0 = (inr 1%Z, w0).
Proof. split_and!; compute_done. Qed.

(** C4 as amended, on the grid [0, 1, 2, 3] and the query [3/2]. *)
Lemma find_nearest_index_tie_witness :
  find_nearest_index [zero; one; of_Z 2; of_Z 3] (frac 3 2) w0 = (inr 2%Z, w0).
Proof.
  destruct (find_nearest_index_tie [zero; one; of_Z 2; of_Z 3] (frac 3 2) w0)
    as (below & above & Hbelow & Habove & Htie); [simpl; lia|].
  apply Some_inj in Hbelow as <-. apply Some_inj in Habove as <-.
  apply Htie. compute_done.
Defined.

(** C5 at the mixed example: one seed point is too many for one search, and
    no seed point is few enough for three. *)
Lemma optimize_acqf_mixed_precondition_witness :
  optimize_acqf_mixed p_mixed (Some [[zero; zero]]) 8 1 default_tol w0
  = (inl (AssertionError
      "We must choose at least 1 best sampled point + given_initial_xs as start points."),
     w0)
  /\ (evals w0 ++ [(sample_normalized_params 8 (search_space p_mixed) (rng w0)).1])
     `prefix_of` evals (optimize_acqf_mixed p_mixed None 8 3 default_tol w0).2.
Proof.
  split.
  - apply (proj1 (optimize_acqf_mixed_precondition p_mixed (Some [[zero; zero]])
                    8 1 default_tol w0)).
    simpl. lia.
  - apply (proj2 (optimize_acqf_mixed_precondition p_mixed None 8 3 default_tol w0)).
    simpl. lia.
Defined.

(** C6 on the line [f(x) = x] from [1/40]: the solver moves to the upper
    bound in one iteration, and the move is reported. *)
Lemma gradient_ascent_accepts_witness :
  exists z neg_fval_opt nit scratch v,
    minimize_negative_acqf p_line [frac 1 40] [0%Z] [one] default_tol w0
    = (inr ((z, neg_fval_opt, nit), scratch),
       (_gradient_ascent p_line [frac 1 40] (frac 1 40) [0%Z] [one] default_tol w0).2) /\
    (- neg_fval_opt >? frac 1 40) = true /\ (0 < nit)%Z /\
    one = - neg_fval_opt /\
    np_zip_with mul z [one]
      (_gradient_ascent p_line [frac 1 40] (frac 1 40) [0%Z] [one] default_tol w0).2
    = (inr v, (_gradient_ascent p_line [frac 1 40] (frac 1 40) [0%Z] [one] default_tol w0).2) /\
    put_at scratch [0%Z] v
      (_gradient_ascent p_line [frac 1 40] (frac 1 40) [0%Z] [one] default_tol w0).2
    = (inr [one], (_gradient_ascent p_line [frac 1 40] (frac 1 40) [0%Z] [one] default_tol w0).2).
Proof.
  apply (proj1 (proj2 (gradient_ascent_accepts p_line [frac 1 40] (frac 1 40)
                         [0%Z] [one] default_tol w0)) [one] one true).
  compute_done.
Defined.

(** C8, the claim as stated fails: from [(0, 0)] on the staircase the driver
    uses up its hundred sweeps and returns [(199, 200)] with the warning; run
    again from there it returns [(201, 201)], whose value is greater. *)
Lemma local_search_mixed_not_idempotent :
  let first :=
    local_search_mixed p_stairs [zero; zero] default_tol default_max_iter w0 in
  first.1 = inr ([of_Z 199; of_Z 200], of_Z 399) /\
  warnings first.2 = ["local_search_mixed: Local search did not converge."] /\
  (local_search_mixed p_stairs [of_Z 199; of_Z 200] default_tol default_max_iter
     first.2).1
  = inr ([of_Z 201; of_Z 201], of_Z 402).
Proof. intros first. split_and!; compute_done. Qed.

(** C8 as amended, on the staircase with three categories: the driver
    returns [(2, 2)] without a warning, and returns it again from there. *)
Lemma local_search_mixed_fixed_point_witness :
  exists w',
    local_search_mixed p_cat [of_Z 2; of_Z 2] default_tol default_max_iter
      (local_search_mixed p_cat [zero; zero] default_tol default_max_iter w0).2
    = (inr ([of_Z 2; of_Z 2], of_Z 4), w').
Proof.
  apply (local_search_mixed_fixed_point p_cat [zero; zero] default_tol
           default_max_iter w0 [] cat_groups [of_Z 2; of_Z 2] (of_Z 4)
           (local_search_mixed p_cat [zero; zero] default_tol default_max_iter w0).2).
  - compute_done.
  - unfold cat_groups.
    repeat (apply Forall_cons; split; [exists CATEGORICAL; split; [compute_done|by left]|]).
    apply Forall_nil_2.
  - unfold cat_groups.
    repeat (apply Forall_cons; split; [exists zero; split; compute_done|]).
    apply Forall_nil_2.
  - compute_done.
  - compute_done.
Defined.

(** C9, the claim as stated fails: a pool of one point is a pool whose points
    share one value; its only weight is [0 / 0], and [rng.choice] raises. *)
Lemma softmax_probs_single_point :
  np_argmax [frac 1 2] w0 = (inr 0%Z, w0) /\
  softmax_probs [frac 1 2] 0 w0 = (inr [NaN], w0) /\
  (optimize_acqf_mixed p_mixed None 1 1 default_tol w0).1
  = inl (ValueError "probabilities contain NaN").
Proof. split_and!; compute_done. Qed.

(** C9 as amended, for a pool of four points of value [1/2]; weights
    of ten decimal digits are accepted as well. *)
Lemma softmax_probs_all_equal_witness :
  softmax_probs (replicate 4 (frac 1 2)) 0 w0
  = (inr [zero; frac 1 3; frac 1 3; frac 1 3], w0) /\
  np_sum [zero; frac 1 3; frac 1 3; frac 1 3] = one /\
  (rng_choice 4 2 (zero :: replicate 3 (dec 3333333333 10)) w0).1
  = inr (choice_draw 4 2 (zero :: replicate 3 (dec 3333333333 10)) (rng w0)).1.
Proof.
  destruct (softmax_probs_all_equal (Q2Qc (1 # 2)) 2 w0)
    as (_ & Hprobs & Hsum & _ & _ & Hnear); [compute_done|].
  assert (one / of_Z (Z.of_nat 3) = frac 1 3) as Hshare by compute_done.
  cbn [replicate] in Hprobs, Hsum. rewrite Hshare in Hprobs, Hsum.
  split; [done|]. split; [done|].
  apply (Hnear (Q2Qc (3333333333 # 10000000000)) 2%Z); [done|compute_done|lia].
Defined.

(** Called by hand on a grid of one point, the guard of line 106 comes
    before the assertion: the vector [0.3], off the grid, is returned as it
    is.  The dispatcher sends a grid of one point to the exhaustive
    search. *)
Lemma discrete_line_search_singleton_off_grid :
  (frac 3 10 =? frac 1 2) = false /\
  _discrete_line_search p_grid [frac 3 10] zero 0 [frac 1 2] one w0
  = (inr ([frac 3 10], zero, false), w0).
Proof. split; compute_done. Qed.

(** C10, on the grid of twenty points and the vector [1/41]. *)
Lemma discrete_line_search_off_grid_witness :
  _discrete_line_search p_grid [frac 1 41] zero 0 grid20 (frac 1 80) w0
  = (inl (AssertionError EmptyString), w0).
Proof.
  destruct (discrete_line_search_off_grid p_grid [frac 1 41] zero 0 grid20
              (frac 1 80) w0 (frac 1 41))
    as (i & nearest & Hfind & Hnear & Hraise); [simpl; lia|compute_done|].
  apply Hraise.
  assert (find_nearest_index grid20 (frac 1 41) w0 = (inr 0%Z, w0)) as Hzero
    by compute_done.
  rewrite Hzero in Hfind. injection Hfind as <-.
  assert (py_index grid20 0 = Some (frac 1 40)) as Hfirst by compute_done.
  rewrite Hfirst in Hnear. injection Hnear as <-. compute_done.
Defined.

(** The categorical coordinate of the mixed example moves to category 1. *)
Lemma improved_flag_strict_witness : (frac (-9) 100 <? frac 91 100) = true.
Proof.
  apply (improved_flag_strict p_mixed [frac 1 10; zero] (frac (-9) 100)
           [0%Z] [one] default_tol 1 [zero; one; of_Z 2] (frac 1 4)
           [frac 1 10; one] (frac 91 100) w0
           (_local_search_discrete p_mixed [frac 1 10; zero] (frac (-9) 100) 1
              [zero; one; of_Z 2] (frac 1 4) w0).2).
  right. compute_done.
Defined.

(** The nearest point of the grid [0, 1/2, 1] to 3/10. *)
Lemma find_nearest_index_nearest_witness :
  exists (k : nat) (g : float),
    find_nearest_index [zero; frac 1 2; one] (Fin (Q2Qc (3 # 10))) w0
    = (inr (Z.of_nat k), w0) /\
    [zero; frac 1 2; one] !! k = Some g /\
    Forall (fun g' => (abs (Fin (Q2Qc (3 # 10)) - g)
                       <=? abs (Fin (Q2Qc (3 # 10)) - g')) = true)
      [zero; frac 1 2; one].
Proof.
  apply (find_nearest_index_nearest [zero; frac 1 2; one] (Q2Qc (3 # 10)) w0);
    [cbn; lia|compute_done..].
Defined.

(** The eighth point of the grid of twenty. *)
Lemma find_nearest_index_of_grid_point_witness :
  find_nearest_index grid20 (frac 15 40) w0 = (inr (Z.of_nat 7), w0) /\
  (frac 15 40 =? frac 15 40) = true.
Proof.
  apply (find_nearest_index_of_grid_point grid20 7 (frac 15 40) w0);
    [cbn; lia|compute_done..].
Defined.

(** The exhaustive search over the three categories of the mixed example. *)
Lemma exhaustive_search_best_witness :
  exists current,
    py_index [frac 1 10; zero] 1 = Some current /\
    let others := List.filter (fun c => c !=? current) [zero; one; of_Z 2] in
    evaluated w0 [map (update_at [frac 1 10; zero] 1) others]
      (_exhaustive_search p_mixed [frac 1 10; zero] (frac (-9) 100) 1
         [zero; one; of_Z 2] w0).2 /\
    exists c, c ∈ others /\ [frac 1 10; one] = update_at [frac 1 10; zero] 1 c /\
      frac 91 100 = acqf p_mixed [frac 1 10; one] /\
      (frac (-9) 100 <? frac 91 100) = true /\
      Forall (fun c' => (acqf p_mixed (update_at [frac 1 10; zero] 1 c')
                         <=? frac 91 100) = true) others.
Proof.
  apply (exhaustive_search_best p_mixed [frac 1 10; zero] (frac (-9) 100) 1
           [zero; one; of_Z 2] [frac 1 10; one] (frac 91 100) true w0
           (_exhaustive_search p_mixed [frac 1 10; zero] (frac (-9) 100) 1
              [zero; one; of_Z 2] w0).2).
  compute_done.
Defined.

(** The dispatcher on the categorical parameter of the mixed example. *)
Lemma local_search_discrete_returns_witness :
  (exists E,
     evaluated w0 E
       (_local_search_discrete p_mixed [frac 1 10; zero] (frac (-9) 100) 1
          [zero; one; of_Z 2] (frac 1 4) w0).2 /\
     Forall (Forall (grid_vector [frac 1 10; zero] 1 [zero; one; of_Z 2])) E) /\
  grid_vector [frac 1 10; zero] 1 [zero; one; of_Z 2] [frac 1 10; one] /\
  frac 91 100 = acqf p_mixed [frac 1 10; one] /\
  (frac (-9) 100 <? frac 91 100) = true.
Proof.
  apply (local_search_discrete_returns p_mixed [frac 1 10; zero] (frac (-9) 100)
           1 [zero; one; of_Z 2] (frac 1 4) [frac 1 10; one] (frac 91 100) true w0
           (_local_search_discrete p_mixed [frac 1 10; zero] (frac (-9) 100) 1
              [zero; one; of_Z 2] (frac 1 4) w0).2).
  compute_done.
Defined.

(** The continuous coordinate of the mixed example moves from 9/10 to 0, the
    categorical one stays. *)
Lemma gradient_ascent_keeps_other_coordinates_witness :
  length [zero; zero] = length [frac 9 10; zero] /\
  forall j : nat,
    Z.of_nat j ∉ [0%Z] -> [zero; zero] !! j = [frac 9 10; zero] !! j.
Proof.
  apply (gradient_ascent_keeps_other_coordinates p_mixed [frac 9 10; zero]
           (frac (-1) 4) [0%Z] [one] default_tol [zero; zero] (frac (-4) 25) true
           w0
           (_gradient_ascent p_mixed [frac 9 10; zero] (frac (-1) 4) [0%Z] [one]
              default_tol w0).2);
    compute_done.
Defined.

(** The mixed example from [(1/10, 0)]: the categorical coordinate ends at
    category 1. *)
Lemma local_search_mixed_stays_on_grid_witness :
  length [frac 1 10; one] = length [frac 1 10; zero] /\
  Forall (on_grid [frac 1 10; one]) [(1%Z, [zero; one; of_Z 2], frac 1 4)] /\
  forall j : nat,
    Z.of_nat j ∉ [0%Z] ->
    Z.of_nat j ∉ (fun g : Z * list float * float => g.1.1)
                   <$> [(1%Z, [zero; one; of_Z 2], frac 1 4)] ->
    [frac 1 10; one] !! j = [frac 1 10; zero] !! j.
Proof.
  apply (local_search_mixed_stays_on_grid p_mixed [frac 1 10; zero] default_tol
           default_max_iter w0 [0%Z] [one] [(1%Z, [zero; one; of_Z 2], frac 1 4)]
           [frac 1 10; one] (frac 91 100)
           (local_search_mixed p_mixed [frac 1 10; zero] default_tol
              default_max_iter w0).2).
  - compute_done.
  - apply Forall_cons. split; [|apply Forall_nil_2].
    exists zero. split; compute_done.
  - compute_done.
Defined.

(** The two categorical parameters of the staircase. *)
Lemma discrete_search_returns_value_of_vector_witness :
  of_Z 4 = acqf p_cat [of_Z 2; of_Z 2].
Proof.
  destruct (discrete_search_returns_value_of_vector p_cat) as [Hlocal _].
  - compute_done.
  - apply (Hlocal [zero; zero] default_tol default_max_iter w0 [of_Z 2; of_Z 2]
             (of_Z 4)
             (local_search_mixed p_cat [zero; zero] default_tol default_max_iter
                w0).2).
    compute_done.
Defined.

(** No sample at all. *)
Lemma optimize_acqf_mixed_empty_pool_witness :
  optimize_acqf_mixed p_mixed None 0 1 default_tol w0
  = (inl (ValueError "attempt to get argmax of an empty sequence"),
     World (sample_normalized_params 0 (search_space p_mixed) (rng w0)).2
       (evals w0 ++ [[]]) (warnings w0)).
Proof.
  apply (optimize_acqf_mixed_empty_pool p_mixed None 0 1 default_tol w0);
    compute_done.
Defined.

(** Three samples for the ten local searches of the default. *)
Lemma optimize_acqf_mixed_small_pool_witness :
  exists msg,
    optimize_acqf_mixed p_mixed None 3 default_n_local_search default_tol w0
    = (inl (ValueError msg),
       World (sample_normalized_params 3 (search_space p_mixed) (rng w0)).2
         (evals w0 ++ [(sample_normalized_params 3 (search_space p_mixed) (rng w0)).1])
         (warnings w0)).
Proof.
  apply (optimize_acqf_mixed_small_pool p_mixed None 3 default_n_local_search
           default_tol w0).
  compute_done.
Defined.

(** The mixed example with the seed point [(0, 0)]. *)
Lemma optimize_acqf_mixed_dominates_seeds_witness :
  Forall (fun s => is_nan (acqf p_mixed s) = false ->
                   (acqf p_mixed s <=? frac 99 100) = true) [[zero; zero]].
Proof.
  apply (optimize_acqf_mixed_dominates_seeds p_mixed [[zero; zero]] 8 3
           default_tol w0 [frac 1 2; one] (frac 99 100)
           (optimize_acqf_mixed p_mixed (Some [[zero; zero]]) 8 3 default_tol w0).2);
    compute_done.
Defined.

(** The line example with the tolerance [-1]. *)
Lemma gradient_ascent_negative_tol_witness :
  _gradient_ascent p_line [frac 1 40] (frac 1 40) [0%Z] [one] (of_Z (-1)) w0
  = (inl (ValueError "math domain error"), w0).
Proof.
  apply (gradient_ascent_negative_tol p_line [frac 1 40] (frac 1 40) [0%Z] [one]
           (of_Z (-1)) w0); compute_done.
Defined.

(** The categorical parameter of the mixed example has three categories. *)
Lemma choices_of_categorical_witness :
  choices_of (search_space p_mixed) 1 w0
  = (inr (map (fun j : nat => of_Z (Z.of_nat j)) (seq 0 (Z.to_nat 3))), w0).
Proof.
  apply (choices_of_categorical (search_space p_mixed) 1 zero 3 w0); compute_done.
Defined.

(** Three points of one value: the weights are 0, 1/2 and 1/2. *)
Lemma softmax_probs_normalized_witness :
  exists probs,
    softmax_probs [frac 1 2; frac 1 2; frac 1 2] 0 w0 = (inr probs, w0) /\
    length probs = length [frac 1 2; frac 1 2; frac 1 2] /\
    py_index probs 0 = Some zero /\
    np_sum probs = one.
Proof.
  apply (softmax_probs_normalized [frac 1 2; frac 1 2; frac 1 2] 0 (frac 1 2) w0);
    compute_done.
Defined.

(** The grid of twenty and its eighth point, [f(x) = -(x - 1/2)^2]. *)
Lemma line_search_bracket_values_witness :
  interpolated_negative_acqf p_grid 0 grid20 (frac 1 40 - EPS)
    ({[ Z.of_nat 7 := - frac (-1) 64 ]}, [frac 15 40]) w0
  = (inr (PInf, ({[ Z.of_nat 7 := - frac (-1) 64 ]}, [frac 15 40])), w0) /\
  exists locals',
    interpolated_negative_acqf p_grid 0 grid20 (frac 15 40)
      ({[ Z.of_nat 7 := - frac (-1) 64 ]}, [frac 15 40]) w0
    = (inr (- frac (-1) 64, locals'),
       World (rng w0) (evals w0 ++ [[update_at [frac 15 40] 0 (frac 13 40)]])
         (warnings w0)).
Proof.
  destruct (line_search_bracket_values p_grid [frac 15 40] (frac (-1) 64) 0
              grid20 7 (frac 15 40) (frac 13 40) (frac 1 40) (frac 39 40) w0)
    as (Hends & Hmid); [compute_done..|].
  split; [|exact Hmid].
  apply Hends. left. compute_done.
Defined.

(** The staircase with three categories: from [(0, 0)] the search ends at
    [(2, 2)], where no single coordinate can be improved. *)
Lemma local_search_mixed_coordinatewise_maximum_witness :
  of_Z 4 = acqf p_cat [of_Z 2; of_Z 2] /\
  Forall (fun g : Z * list float * float =>
    Forall (fun c => is_nan (acqf p_cat (update_at [of_Z 2; of_Z 2] g.1.1 c)) = false)
      g.1.2 ->
    Forall (fun c => (acqf p_cat (update_at [of_Z 2; of_Z 2] g.1.1 c) <=? of_Z 4) = true)
      g.1.2)
    cat_groups.
Proof.
  apply (local_search_mixed_coordinatewise_maximum p_cat [zero; zero] default_tol
           default_max_iter w0 [] cat_groups [of_Z 2; of_Z 2] (of_Z 4)
           (local_search_mixed p_cat [zero; zero] default_tol default_max_iter w0).2).
  - compute_done.
  - unfold cat_groups.
    repeat (apply Forall_cons; split; [exists CATEGORICAL; split; [compute_done|by left]|]).
    apply Forall_nil_2.
  - unfold cat_groups.
    repeat (apply Forall_cons; split; [exists zero; split; compute_done|]).
    apply Forall_nil_2.
  - compute_done.
  - compute_done.
Defined.

(** A parameter whose step is negative is left alone. *)
Lemma local_search_mixed_nothing_to_search_witness :
  local_search_mixed
    {| search_space := {| scale_types := [LINEAR]; bounds := [(zero, one)];
                          steps := [of_Z (-1)] |};
       kernel_params := {| inverse_squared_lengthscales := [one] |};
       acqf := fun x => default NaN (head x);
       acqf_grad := fun _ => [one] |}
    [frac 1 2] default_tol default_max_iter w0
  = (inr ([frac 1 2], frac 1 2),
     World (rng w0) (evals w0 ++ [[[frac 1 2]]]) (warnings w0)).
Proof.
  apply (local_search_mixed_nothing_to_search
           {| search_space := {| scale_types := [LINEAR]; bounds := [(zero, one)];
                                 steps := [of_Z (-1)] |};
              kernel_params := {| inverse_squared_lengthscales := [one] |};
              acqf := fun x => default NaN (head x);
              acqf_grad := fun _ => [one] |}
           [frac 1 2] default_tol default_max_iter w0).
  - apply Forall_cons. split; [split; compute_done|apply Forall_nil_2].
  - unfold default_max_iter. lia.
Defined.


(** The staircase with three categories. *)
Lemma local_search_mixed_returns_witness :
  exists r w',
    local_search_mixed p_cat [zero; zero] default_tol default_max_iter w0
    = (inr r, w').
Proof.
  apply (local_search_mixed_returns p_cat [zero; zero] default_tol
           default_max_iter w0 [] cat_groups).
  - compute_done.
  - unfold cat_groups.
    repeat (apply Forall_cons; split; [exists CATEGORICAL; split; [compute_done|by left]|]).
    apply Forall_nil_2.
  - unfold cat_groups.
    repeat (apply Forall_cons; split; [exists zero; split; compute_done|]).
    apply Forall_nil_2.
  - compute_done.
Defined.

(** The mixed example from [(1/10, 0)]. *)
Lemma local_search_mixed_evaluates_in_space_witness :
  exists E,
    evals (local_search_mixed p_mixed [frac 1 10; zero] default_tol
             default_max_iter w0).2 = evals w0 ++ E /\
    Forall (Forall (on_grids [0%Z] [(1%Z, [zero; one; of_Z 2], frac 1 4)]
                      [frac 1 10; zero])) E.
Proof.
  apply (local_search_mixed_evaluates_in_space p_mixed [frac 1 10; zero]
           default_tol default_max_iter w0 [0%Z] [one]
           [(1%Z, [zero; one; of_Z 2], frac 1 4)]).
  - compute_done.
  - apply Forall_cons. split; [|apply Forall_nil_2].
    exists zero. split; compute_done.
Defined.

(** The mixed example with a pool of eight and three local searches. *)
Lemma optimize_acqf_mixed_stays_on_grid_witness :
  (exists E,
     evals (optimize_acqf_mixed p_mixed None 8 3 default_tol w0).2 = evals w0 ++ E /\
     Forall (Forall (fun v =>
       Forall (on_grid v) [(1%Z, [zero; one; of_Z 2], frac 1 4)])) E) /\
  Forall (on_grid [frac 1 2; one]) [(1%Z, [zero; one; of_Z 2], frac 1 4)].
Proof.
  assert ((sample_normalized_params 8 (search_space p_mixed) (rng w0)).1
          = [[zero; zero]; [frac 7 10; one]; [frac 3 10; of_Z 2]; [one; zero];
             [frac 3 5; one]; [frac 1 5; of_Z 2]; [frac 9 10; zero];
             [frac 1 2; one]]) as Hpool by compute_done.
  assert ((optimize_acqf_mixed p_mixed None 8 3 default_tol w0).1
          = inr ([frac 1 2; one], frac 99 100)) as Hrun by compute_done.
  pose proof (optimize_acqf_mixed_stays_on_grid p_mixed None 8 3 default_tol w0
                [0%Z] [one] [(1%Z, [zero; one; of_Z 2], frac 1 4)]) as Hthm.
  cbv zeta in Hthm. rewrite Hpool, Hrun in Hthm. apply Hthm.
  - compute_done.
  - repeat (apply Forall_cons; split;
      [apply Forall_cons; split;
         [eexists; split; [reflexivity|compute_done]|apply Forall_nil_2]|]).
    apply Forall_nil_2.
  - apply Forall_nil_2.
Defined.

(** The staircase with three categories, a pool of four and two local
    searches: the driver ends at [(2, 2)]. *)
Lemma optimize_acqf_mixed_coordinatewise_maximum_witness :
  of_Z 4 = acqf p_cat [of_Z 2; of_Z 2] /\
  Forall (on_grid [of_Z 2; of_Z 2]) cat_groups /\
  Forall (fun g : Z * list float * float =>
    Forall (fun c => is_nan (acqf p_cat (update_at [of_Z 2; of_Z 2] g.1.1 c)) = false)
      g.1.2 ->
    Forall (fun c => (acqf p_cat (update_at [of_Z 2; of_Z 2] g.1.1 c) <=? of_Z 4) = true)
      g.1.2)
    cat_groups.
Proof.
  assert ((sample_normalized_params 4 (search_space p_cat) (rng w0)).1
          = [[zero; zero]; [one; one]; [of_Z 2; of_Z 2]; [zero; zero]])
    as Hpool by compute_done.
  pose proof (optimize_acqf_mixed_coordinatewise_maximum p_cat None 4 2
                default_tol w0 [] cat_groups [of_Z 2; of_Z 2] (of_Z 4)
                (optimize_acqf_mixed p_cat None 4 2 default_tol w0).2) as Hthm.
  cbv zeta in Hthm. rewrite Hpool in Hthm. apply Hthm.
  - compute_done.
  - unfold cat_groups.
    repeat (apply Forall_cons; split; [exists CATEGORICAL; split; [compute_done|by left]|]).
    apply Forall_nil_2.
  - unfold cat_groups.
    repeat (apply Forall_cons; split;
      [repeat (apply Forall_cons; split;
         [eexists; split; [reflexivity|compute_done]|]); apply Forall_nil_2|]).
    apply Forall_nil_2.
  - apply Forall_nil_2.
  - compute_done.
  - compute_done.
Defined.

End Concrete.
